(** * VietSpeak pronunciation engine: evaluation metrics and feedback

    A shallow embedding of the scoring core of the repository:
    - [ai-core/scripts/evaluate.py]            (modules [Evaluate], [Benchmark]),
    - [apps/backend/src/services/pronunciation.py] (modules [Pronunciation],
      [Service]),
    - [mcp/src/tools.py]                       (module [Tools]),
    - [apps/backend/src/services/audio.py]     (module [Audio]),
    - [ai-core/scripts/data_prep.py]           (module [DataPrep]).

    Python values are modelled as follows.
    - [str] is a sequence of code points; Rocq's [string] carries the
      code points below 256, on which [str.lower] and [str.split] are
      transcribed exactly (module [PyStr]).
    - [int] is unbounded: [nat] for counts and indices.
    - [float] is IEEE 754 binary64: Rocq's primitive [float], with
      [round(x, 1)] written out on the exact value of [x] (module
      [PyFloat]).  The two corpus ratios, true quotients of two
      counts, are kept as exact rationals.
    - a list indexed in place is a [list] with explicit [IndexError]
      ([None]) on an access out of range.
    - a [dict] whose iteration order is observed is an association list
      in insertion order. *)

From Stdlib Require Import ZArith QArith Uint63 Floats Ascii String List Lia
  DecimalString.
From stdpp Require Import base option list sorting strings gmap.

Set Default Proof Using "Type".
Set Warnings "-inexact-float".
Open Scope string_scope.
Open Scope list_scope.
Open Scope nat_scope.

(** ** Python [str] *)

Module PyStr.

(** [str.isspace] on one code point below 256. *)
Definition is_space (c : ascii) : bool :=
  let n := nat_of_ascii c in
  (((9 <=? n) && (n <=? 13)) || ((28 <=? n) && (n <=? 32))
   || (n =? 133) || (n =? 160))%nat.

(** The code points below 256 that [str.lower] changes: A-Z and the
    Latin-1 capitals (all of 192..222 but the multiplication sign). *)
Definition is_upper (c : ascii) : bool :=
  let n := nat_of_ascii c in
  (((65 <=? n) && (n <=? 90))
   || ((192 <=? n) && (n <=? 222) && negb (n =? 215)))%nat.

Definition lower_char (c : ascii) : ascii :=
  if is_upper c then ascii_of_nat (nat_of_ascii c + 32) else c.

(** [s.lower()] *)
Fixpoint lower (s : string) : string :=
  match s with
  | EmptyString => EmptyString
  | String c s' => String (lower_char c) (lower s')
  end.

(** [s.startswith(p)] *)
Fixpoint startswith (p s : string) : bool :=
  match p, s with
  | EmptyString, _ => true
  | String a p', String b s' => bool_decide (a = b) && startswith p' s'
  | String _ _, EmptyString => false
  end.

(** [p in s] for two strings: [p] occurs somewhere in [s]. *)
Fixpoint contains (p s : string) : bool :=
  startswith p s ||
  match s with
  | EmptyString => false
  | String _ s' => contains p s'
  end.

(** [s.split()] with no separator: the maximal runs of characters
    that are not whitespace.  [cur] is the run being read, if any. *)
Fixpoint split_from (cur : option string) (s : string) : list string :=
  match s with
  | EmptyString => match cur with Some w => [w] | None => [] end
  | String c s' =>
      if is_space c then
        match cur with
        | Some w => w :: split_from None s'
        | None => split_from None s'
        end
      else
        split_from (Some (default EmptyString cur +:+ String c EmptyString)) s'
  end.

Definition split (s : string) : list string := split_from None s.

End PyStr.

(** ** Python's [round(x, 1)] *)

Module PyFloat.
Open Scope Z_scope.

(** [P / D] rounded to the nearest integer, a tie going to the even
    one. *)
Definition round_half_even (P D : Z) : Z :=
  let k := P / D in
  let r := P mod D in
  if 2 * r <? D then k
  else if D <? 2 * r then k + 1
  else if Z.even k then k else k + 1.

(** The number of tenths nearest to the exact value [m * 2^e], taken
    in units of [2^-1074] (every float has [-1074 <= e]). *)
Definition tenths (m : positive) (e : Z) : Z :=
  round_half_even (10 * Z.pos m * 2 ^ (e + 1074)) (2 ^ 1074).

(** The float nearest to [n / 10], with the sign [s]: what reading the
    decimal string back gives. *)
Definition of_tenths (s : bool) (n : Z) : spec_float :=
  match n with
  | Z.pos _ =>
      let '(q, e, l) := SFdiv_core_binary prec emax n 0 10 0 in
      binary_round_aux prec emax s q e l
  | _ => S754_zero s
  end.

(** [round(x, 1)]: a finite [x] is rounded, on its exact value, to one
    decimal (correctly, ties to even) and the decimal is converted
    back; zeros, infinities and NaN round to themselves. *)
Definition round1 (x : float) : float :=
  match Prim2SF x with
  | S754_finite s m e => SF2Prim (of_tenths s (tenths m e))
  | _ => x
  end.

End PyFloat.

(** ** pronunciation.py: the backend's pronunciation service *)

Module Pronunciation.

Open Scope float_scope.

Record PhonemeResult := {
  phoneme : string;
  score : float;
  expected : string;
  actual : string;
  suggestion : option string
}.

Record PronunciationScore := {
  overall : float;
  accuracy : float;
  fluency : float;
  completeness : float
}.

Record PronunciationFeedback := {
  phonemes : list PhonemeResult;
  suggestions : list string;
  vietnamese_interference : option (list string)
}.

(** The messages of [_generate_feedback], as the UTF-8 text of the
    source literals. *)
Definition tip_th : string :=
  "Người Việt thường phát âm 'th' như 't'. Hãy đặt lưỡi giữa hai hàm răng.".
Definition tip_s : string := "Âm 's' cuối từ cần rõ ràng, đừng bỏ qua.".
Definition tip_ed : string := "Đuôi '-ed' có 3 cách phát âm: /t/, /d/, /ɪd/".
Definition tip_r : string :=
  "Âm 'r' trong tiếng Anh khác với tiếng Việt. Uốn cong lưỡi về phía sau.".
Definition suggest_slow_down : string := "Hãy nói chậm hơn và rõ ràng hơn.".
Definition suggest_no_pauses : string :=
  "Cố gắng nói liền mạch, không ngắt quãng giữa các từ.".

(** The dict literal [vietnamese_issues]. *)
Definition vietnamese_issues : gmap string string :=
  <["th" := tip_th]> (<["s" := tip_s]> (<["ed" := tip_ed]> (<["r" := tip_r]> ∅))).

(** [_generate_feedback(reference_text, transcription, score)].
    The three local lists start empty; [suggestions] and
    [vietnamese_interference] are appended to under the guards of the
    source, [phonemes] is never touched; an empty interference list is
    returned as [None]. *)
Definition _generate_feedback
    (reference_text transcription : string) (score : PronunciationScore)
    : PronunciationFeedback :=
  let phonemes : list PhonemeResult := [] in
  let suggestions : list string := [] in
  let vietnamese_interference : list string := [] in
  let suggestions :=
    if overall score <? 70 then suggestions ++ [suggest_slow_down]
    else suggestions in
  let suggestions :=
    if fluency score <? 60 then suggestions ++ [suggest_no_pauses]
    else suggestions in
  let ref_lower := PyStr.lower reference_text in
  let vietnamese_interference :=
    if PyStr.contains "th" ref_lower
    then vietnamese_interference ++ [vietnamese_issues !!! "th"]
    else vietnamese_interference in
  {| phonemes := phonemes;
     suggestions := suggestions;
     vietnamese_interference :=
       match vietnamese_interference with
       | [] => None
       | _ :: _ => Some vietnamese_interference
       end |}.

(** The scores of a similarity ratio: the body of [_calculate_scores]
    below the computation of [similarity].  The four products are
    taken on the unrounded values; rounding comes last, in the
    constructor call. *)
Definition scores_of_similarity (similarity : float) : PronunciationScore :=
  let overall := similarity * 100 in
  let accuracy := overall * 0.95 in
  let fluency := overall * 0.9 in
  let completeness := similarity * 100 in
  {| overall := PyFloat.round1 overall;
     accuracy := PyFloat.round1 accuracy;
     fluency := PyFloat.round1 fluency;
     completeness := PyFloat.round1 completeness |}.

Section Scores.

(** [SequenceMatcher(None, a, b).ratio()] of Python's difflib. *)
Variable sequence_matcher_ratio : string → string → float.

(** [_calculate_scores(audio, reference_text, transcription)] *)
Definition _calculate_scores
    (audio : list float) (reference_text transcription : string)
    : PronunciationScore :=
  let similarity :=
    sequence_matcher_ratio
      (PyStr.lower reference_text) (PyStr.lower transcription) in
  scores_of_similarity similarity.

End Scores.

End Pronunciation.

(** ** tools.py: the MCP tool [get_phoneme_feedback] *)

Module Tools.

(** One entry of the dict literal [vietnamese_interference]. *)
Record InterferencePattern := {
  ipa : string;
  common_error : string;
  tip : string;
  examples : list string
}.

Definition pattern_th : InterferencePattern :=
  {| ipa := "θ";
     common_error := "t or s";
     tip := "Âm 'th' không có trong tiếng Việt. Đặt đầu lưỡi giữa hai hàm răng và thổi hơi nhẹ.";
     examples := ["think → tink (sai)"; "three → tree (sai)"] |}.

Definition pattern_r : InterferencePattern :=
  {| ipa := "ɹ";
     common_error := "l or ɾ";
     tip := "Âm 'r' tiếng Anh khác tiếng Việt. Uốn cong lưỡi về phía sau, không chạm vào nơi nào.";
     examples := ["red → led (sai)"; "right → light (sai)"] |}.

Definition pattern_final_consonants : InterferencePattern :=
  {| ipa := "various";
     common_error := "dropping";
     tip := "Người Việt hay bỏ âm cuối. Hãy phát âm rõ ràng các phụ âm cuối như -t, -d, -s.";
     examples := ["cat → ca (sai)"; "dogs → dog (sai)"] |}.

Definition pattern_short_vowels : InterferencePattern :=
  {| ipa := "ɪ, ʊ, æ";
     common_error := "lengthening";
     tip := "Phân biệt nguyên âm ngắn và dài. 'ship' khác 'sheep'.";
     examples := ["ship vs sheep"; "full vs fool"] |}.

Definition vietnamese_interference : gmap string InterferencePattern :=
  <["th" := pattern_th]>
    (<["r" := pattern_r]>
       (<["final_consonants" := pattern_final_consonants]>
          (<["short_vowels" := pattern_short_vowels]> ∅))).

#[local] Instance InterferencePattern_inhabited : Inhabited InterferencePattern :=
  populate pattern_final_consonants.

(** The dict [result] that the tool serialises with [json.dumps]. *)
Record PhonemeFeedback := {
  success : bool;
  text : string;
  phoneme_count : nat;
  vietnamese_specific_tips : list InterferencePattern;
  practice_suggestions : list string
}.

(** [get_phoneme_feedback_tool(text, detected_phonemes)], up to the
    JSON encoding of its result. *)
Definition get_phoneme_feedback_tool
    (text : string) (detected_phonemes : option (list string))
    : PhonemeFeedback :=
  let relevant_tips : list InterferencePattern := [] in
  let text_lower := PyStr.lower text in
  let relevant_tips :=
    if PyStr.contains "th" text_lower
    then relevant_tips ++ [vietnamese_interference !!! "th"]
    else relevant_tips in
  let relevant_tips :=
    if PyStr.contains "r" text_lower
    then relevant_tips ++ [vietnamese_interference !!! "r"]
    else relevant_tips in
  let relevant_tips :=
    relevant_tips ++ [vietnamese_interference !!! "final_consonants"] in
  {| success := true;
     text := text;
     phoneme_count := length (PyStr.split text);
     vietnamese_specific_tips := relevant_tips;
     practice_suggestions :=
       ["Nghe và bắt chước người bản xứ";
        "Thu âm giọng mình và so sánh";
        "Tập trung vào một âm khó tại một thời điểm"] |}.

End Tools.

(** ** numpy on one-dimensional float64 arrays

    The four numpy entry points [calculate_gop_metrics] calls, written
    out from numpy's own definitions ([np.mean], [np.cov], [np.corrcoef],
    [np.clip]).  An array is a [list float]; sums run left to right.
    numpy itself adds pairwise from 8 items on, and its dot product may
    fuse a multiplication with the addition that follows: the last bits
    of a sum can differ from the ones computed here.  What is proved
    below of these functions (NaN results, signs and ranges, exact
    zeros) holds in any order of summation. *)

Module Np.

Open Scope float_scope.

(** [float(k)] for an integer [0 <= k < 2^63]. *)
Definition of_int (k : Z) : float := PrimFloat.of_uint63 (Uint63.of_Z k).
Definition of_nat (n : nat) : float := of_int (Z.of_nat n).

Definition sum (a : list float) : float := foldl PrimFloat.add 0 a.

(** [np.mean(a)]: the sum over the number of items (0/0 when empty). *)
Definition mean (a : list float) : float := sum a / of_nat (length a).

Definition subtract (a b : list float) : list float := zip_with PrimFloat.sub a b.
Definition dot (a b : list float) : float := sum (zip_with PrimFloat.mul a b).

(** [np.maximum] and [np.minimum] hand a NaN through. *)
Definition maximum (x y : float) : float :=
  if is_nan x then x else if is_nan y then y else if x <? y then y else x.
Definition minimum (x y : float) : float :=
  if is_nan x then x else if is_nan y then y else if y <? x then y else x.
Definition clip (x lo hi : float) : float := minimum (maximum x lo) hi.

(** The normalisation of [np.cov] with [ddof = 1]: [1 / (N - 1)], the
    divisor being replaced by [0.0] when it is not positive. *)
Definition cov_scale (n : nat) : float :=
  let fact := (Z.of_nat n - 1)%Z in
  let fact := if bool_decide (fact ≤ 0)%Z then 0 else of_int fact in
  1 / fact.

(** Entry [i, j] of [np.cov(x, y)] for the rows [xi], [xj]. *)
Definition cov_entry (xi xj : list float) : float :=
  let ci := (λ v, v - mean xi) <$> xi in
  let cj := (λ v, v - mean xj) <$> xj in
  dot ci cj * cov_scale (length xi).

(** [np.corrcoef(x, y)[0, 1]] for two arrays of one length. *)
Definition corrcoef_0_1 (x y : list float) : float :=
  let stddev0 := PrimFloat.sqrt (cov_entry x x) in
  let stddev1 := PrimFloat.sqrt (cov_entry y y) in
  clip (cov_entry x y / stddev0 / stddev1) (-1) 1.

End Np.

(** ** evaluate.py: corpus-level metrics *)

Module Evaluate.

(** *** Shared Python idioms *)

(** The one exception this module's model of numpy raises. *)
Inductive PyError := ValueError.

(** A [for] loop over the items [xs] whose body may raise. *)
Fixpoint for_each {A S : Type}
    (xs : list A) (body : A → S → option S) (s : S) : option S :=
  match xs with
  | [] => Some s
  | x :: xs' => s' ← body x s; for_each xs' body s'
  end.

(** [range(a, b)] *)
Definition range (a b : nat) : list nat := seq a (b - a).

(** The true quotient [num / den] of two counts, [den] positive, kept
    exact. *)
Definition quotient (num den : nat) : Q := Z.of_nat num # Pos.of_nat den.

(** *** calculate_gop_metrics *)

Record GopMetrics := {
  correlation : float;
  mae : float;
  rmse : float
}.

(** [np.corrcoef] stacks its two arguments and so raises [ValueError]
    on arrays of different lengths; nothing else in the function
    raises. *)
Definition calculate_gop_metrics
    (predicted_scores ground_truth_scores : list float)
    : PyError + GopMetrics :=
  if bool_decide (length predicted_scores = length ground_truth_scores) then
    let correlation := Np.corrcoef_0_1 predicted_scores ground_truth_scores in
    let diff := Np.subtract predicted_scores ground_truth_scores in
    let mae := Np.mean (PrimFloat.abs <$> diff) in
    let rmse := PrimFloat.sqrt (Np.mean ((λ d, d * d)%float <$> diff)) in
    inr {| correlation := correlation; mae := mae; rmse := rmse |}
  else inl ValueError.

(** *** calculate_phoneme_accuracy *)

(** The loop body: one (pred, gt) pair added to the two totals. *)
Definition phoneme_accuracy_step
    (totals : nat * nat) (pair : list string * list string) : nat * nat :=
  let '(total_correct, total_phonemes) := totals in
  let '(pred, gt) := pair in
  let min_len := length pred `min` length gt in
  let total_correct :=
    total_correct
    + sum_list ((λ '(p, g), if bool_decide (p = g) then 1 else 0)
                  <$> zip (take min_len pred) (take min_len gt)) in
  let total_phonemes := total_phonemes + length gt in
  (total_correct, total_phonemes).

Definition calculate_phoneme_accuracy
    (predicted_phonemes ground_truth_phonemes : list (list string)) : Q :=
  let '(total_correct, total_phonemes) :=
    foldl phoneme_accuracy_step (0, 0)
          (zip predicted_phonemes ground_truth_phonemes) in
  if bool_decide (0 < total_phonemes)
  then quotient total_correct total_phonemes else 0%Q.

(** *** calculate_word_error_rate *)

(** [dp[i][j]] and [dp[i][j] = v] on a list of rows; [None] is Python's
    [IndexError]. *)
Definition get2 (dp : list (list nat)) (i j : nat) : option nat :=
  row ← dp !! i; row !! j.

Definition set2 (dp : list (list nat)) (i j v : nat) : option (list (list nat)) :=
  row ← dp !! i;
  if bool_decide (j < length row) then Some (<[i := <[j := v]> row]> dp)
  else None.

(** The body of the two nested loops: cell [(i, j)] of the table. *)
Definition fill_cell (ref_words hyp_words : list string) (i j : nat)
    (dp : list (list nat)) : option (list (list nat)) :=
  r ← ref_words !! (i - 1);
  h ← hyp_words !! (j - 1);
  if bool_decide (r = h) then
    d ← get2 dp (i - 1) (j - 1);
    set2 dp i j d
  else
    a ← get2 dp (i - 1) j;
    b ← get2 dp i (j - 1);
    c ← get2 dp (i - 1) (j - 1);
    set2 dp i j (1 + a `min` (b `min` c)).

(** The table computation of the loop body: allocation, the two
    border loops, the nested loops, and the read of [dp[m][n]]. *)
Definition edit_distance_table (ref_words hyp_words : list string) : option nat :=
  let m := length ref_words in
  let n := length hyp_words in
  let dp := replicate (m + 1) (replicate (n + 1) 0) in
  dp ← for_each (range 0 (m + 1)) (λ i dp, set2 dp i 0 i) dp;
  dp ← for_each (range 0 (n + 1)) (λ j dp, set2 dp 0 j j) dp;
  dp ← for_each (range 1 (m + 1))
         (λ i dp, for_each (range 1 (n + 1)) (fill_cell ref_words hyp_words i) dp)
         dp;
  get2 dp m n.

(** One (hyp, ref) pair added to the two totals.  [total_wer] is a
    float in the source that only ever receives integers; it is kept
    as the integer it holds. *)
Definition word_error_step (pair : string * string) (totals : nat * nat)
    : option (nat * nat) :=
  let '(total_wer, total_words) := totals in
  let '(hyp, ref) := pair in
  let hyp_words := PyStr.split (PyStr.lower hyp) in
  let ref_words := PyStr.split (PyStr.lower ref) in
  d ← edit_distance_table ref_words hyp_words;
  Some (total_wer + d, total_words + length ref_words).

Definition calculate_word_error_rate
    (hypotheses references : list string) : option Q :=
  '(total_wer, total_words) ←
    for_each (zip hypotheses references) word_error_step (0, 0);
  Some (if bool_decide (0 < total_words)
        then quotient total_wer total_words else 0%Q).

(** *** generate_error_analysis *)

(** A [dict] from [str] to [int] in insertion order. *)
Fixpoint dict_get (d : list (string * nat)) (k : string) (dflt : nat) : nat :=
  match d with
  | [] => dflt
  | (k', v) :: d' => if bool_decide (k' = k) then v else dict_get d' k dflt
  end.

Fixpoint dict_set (d : list (string * nat)) (k : string) (v : nat)
    : list (string * nat) :=
  match d with
  | [] => [(k, v)]
  | (k', v') :: d' =>
      if bool_decide (k' = k) then (k', v) :: d' else (k', v') :: dict_set d' k v
  end.

(** [dict(items)] *)
Definition dict (items : list (string * nat)) : list (string * nat) :=
  foldl (λ d '(k, v), dict_set d k v) [] items.

(** [sorted(xs, key=key)]: Python's sort is stable, so the result is
    the one an insertion sort gives, each item going in front of the
    items already placed whose key is not smaller. *)
Fixpoint insert_sorted {A} (key : A → Z) (x : A) (l : list A) : list A :=
  match l with
  | [] => [x]
  | y :: l' =>
      if bool_decide (key x ≤ key y)%Z then x :: y :: l'
      else y :: insert_sorted key x l'
  end.

Definition sorted {A} (key : A → Z) (l : list A) : list A :=
  foldr (insert_sorted key) [] l.

(** The f-string [f"{g}->{p}"] *)
Definition error_key (g p : string) : string := g +:+ "->" +:+ p.

(** The innermost loop body on one (p, g) of the zipped phonemes. *)
Definition record_error
    (phoneme_errors : list (string * nat)) (pg : string * string)
    : list (string * nat) :=
  let '(p, g) := pg in
  if bool_decide (p ≠ g) then
    let error_key := error_key g p in
    dict_set phoneme_errors error_key (dict_get phoneme_errors error_key 0 + 1)
  else phoneme_errors.

(** The outer loop body on one (pred, gt) of the zipped records. *)
Definition record_utterance
    (phoneme_errors : list (string * nat))
    (pair : gmap string (list string) * gmap string (list string))
    : list (string * nat) :=
  let '(pred, gt) := pair in
  let pred_phonemes := default [] (pred !! "phonemes") in
  let gt_phonemes := default [] (gt !! "phonemes") in
  foldl record_error phoneme_errors (zip pred_phonemes gt_phonemes).

Record ErrorAnalysis := {
  vietnamese_specific : list (string * nat);
  top_phoneme_errors : list (string * nat)
}.

Definition generate_error_analysis
    (predictions ground_truths : list (gmap string (list string)))
    : ErrorAnalysis :=
  let error_patterns :=
    [("th_errors", 0); ("r_errors", 0);
     ("final_consonant_errors", 0); ("vowel_length_errors", 0)] in
  let phoneme_errors : list (string * nat) := [] in
  let phoneme_errors :=
    foldl record_utterance phoneme_errors (zip predictions ground_truths) in
  let top_errors :=
    take 10 (sorted (λ x : string * nat, - Z.of_nat x.2)%Z phoneme_errors) in
  {| vietnamese_specific := error_patterns;
     top_phoneme_errors := dict top_errors |}.

End Evaluate.

(** ** More of Python's [str] *)

Module PyStr2.
Import PyStr.

(** [s.lstrip()], [s.rstrip()] and [s.strip()] with no argument: the
    whitespace at either end is removed. *)
Fixpoint lstrip (s : string) : string :=
  match s with
  | EmptyString => EmptyString
  | String c s' => if is_space c then lstrip s' else s
  end.

Fixpoint rstrip (s : string) : string :=
  match s with
  | EmptyString => EmptyString
  | String c s' =>
      match rstrip s' with
      | EmptyString => if is_space c then EmptyString else String c EmptyString
      | r => String c r
      end
  end.

Definition strip (s : string) : string := rstrip (lstrip s).

(** [sep.join(items)] *)
Fixpoint join (sep : string) (items : list string) : string :=
  match items with
  | [] => EmptyString
  | [x] => x
  | x :: items' => x +:+ sep +:+ join sep items'
  end.

(** [s.split(" ", 1)]: [s] cut at its first space, or [s] alone when it
    has none. *)
Fixpoint split_space_once (s : string) : list string :=
  match s with
  | EmptyString => [EmptyString]
  | String c s' =>
      if bool_decide (c = " "%char) then [EmptyString; s']
      else
        match split_space_once s' with
        | [w] => [String c w]
        | w :: rest => String c w :: rest
        | [] => []
        end
  end.

End PyStr2.

(** ** More of Python's numbers *)

Module PyNum.
Open Scope Z_scope.

(** [str(k)] for an [int]. *)
Definition str_of_int (k : Z) : string := NilZero.string_of_int (Z.to_int k).

(** [a / b] for two [int]s, [b] positive: the float nearest to the
    exact quotient (ties to even); [None] is Python's [OverflowError]
    when that float would be an infinity. *)
Definition true_div (a : Z) (b : positive) : option float :=
  match a with
  | Z0 => Some 0%float
  | Z.pos p | Z.neg p =>
      let '(q, e, l) := SFdiv_core_binary prec emax (Z.pos p) 0 (Z.pos b) 0 in
      match binary_round_aux prec emax (a <? 0) q e l with
      | S754_infinity _ => None
      | r => Some (SF2Prim r)
      end
  end.

(** [x > k] for a float [x] and an [int] [k]: Python compares the two
    exact values. *)
Definition int_lt_float (k : Z) (x : float) : bool :=
  match Prim2SF x with
  | S754_nan => false
  | S754_infinity s => negb s
  | S754_zero _ => k <? 0
  | S754_finite s m e =>
      let v := if s then Z.neg m else Z.pos m in
      if 0 <=? e then k <? v * 2 ^ e else k * 2 ^ (- e) <? v
  end.

(** [format(x, ".1f")], as in the f-string field [{x:.1f}]. *)
Definition format_1f (x : float) : string :=
  match Prim2SF x with
  | S754_nan => "nan"
  | S754_infinity s => if s then "-inf" else "inf"
  | S754_zero s => if s then "-0.0" else "0.0"
  | S754_finite s m e =>
      let n := PyFloat.tenths m e in
      (if s then "-" else "") +:+ str_of_int (n / 10) +:+ "." +:+ str_of_int (n mod 10)
  end.

End PyNum.

(** ** pronunciation.py: [transcribe] and [analyze] *)

Module Service.
Import Pronunciation.

Record AnalysisResult := {
  transcription : string;
  score : PronunciationScore;
  feedback : PronunciationFeedback
}.

Section Analyze.

(** The speech recogniser behind [transcribe]: the texts of the
    segments it returns for an audio array, or [None] when loading the
    models or the recogniser raises. *)
Variable asr_segments : list float → option (list string).

(** [SequenceMatcher(None, a, b).ratio()] of Python's difflib. *)
Variable sequence_matcher_ratio : string → string → float.

(** [transcribe(audio)] *)
Definition transcribe (audio : list float) : option string :=
  segments ← asr_segments audio;
  let transcription := PyStr2.join " " segments in
  Some (PyStr2.strip transcription).

(** [analyze(audio, reference_text)] *)
Definition analyze (audio : list float) (reference_text : string)
    : option AnalysisResult :=
  transcription ← transcribe audio;
  let score :=
    _calculate_scores sequence_matcher_ratio audio reference_text transcription in
  let feedback := _generate_feedback reference_text transcription score in
  Some {| transcription := transcription; score := score; feedback := feedback |}.

End Analyze.
End Service.

(** ** audio.py: validation of an upload *)

Module Audio.

(** What [validate] reads of a decoded pydub [AudioSegment]:
    [len(audio)] (its length in milliseconds), [audio.frame_rate] and
    [audio.channels]. *)
Record AudioSegment := {
  len : nat;
  frame_rate : Z;
  segment_channels : Z
}.

Record AudioValidation := {
  is_valid : bool;
  duration : float;
  sample_rate : Z;
  channels : Z;
  issues : list string
}.

(** The two audio settings of [core/config.py]. *)
Record Settings := {
  AUDIO_SAMPLE_RATE : Z;
  AUDIO_MAX_DURATION : Z
}.

Definition default_settings : Settings :=
  {| AUDIO_SAMPLE_RATE := 16000; AUDIO_MAX_DURATION := 30 |}.

Section Validate.

Variable settings : Settings.

(** [AudioSegment.from_file(BytesIO(audio_data))]; [None] when it
    raises. *)
Variable from_file : list Byte.byte → option AudioSegment.

(** [validate(audio_data)].  The outer [None] is the [OverflowError] of
    the division.  The failure record carries the [int] 0 as its
    duration, written here as the float 0. *)
Definition validate (audio_data : list Byte.byte) : option AudioValidation :=
  let issues : list string := [] in
  match from_file audio_data with
  | None =>
      Some {| is_valid := false; duration := 0; sample_rate := 0; channels := 0;
              issues := ["Invalid audio format"] |}
  | Some audio =>
      duration ← PyNum.true_div (Z.of_nat (len audio)) 1000;
      let sample_rate := frame_rate audio in
      let channels := segment_channels audio in
      let issues :=
        if PyNum.int_lt_float (AUDIO_MAX_DURATION settings) duration
        then issues ++ ["Audio too long (" +:+ PyNum.format_1f duration +:+ "s > "
                        +:+ PyNum.str_of_int (AUDIO_MAX_DURATION settings) +:+ "s)"]
        else issues in
      let issues :=
        if (duration <? 0.5)%float then issues ++ ["Audio too short (< 0.5s)"]
        else issues in
      let issues :=
        if (sample_rate <? 8000)%Z
        then issues ++ ["Sample rate too low (" +:+ PyNum.str_of_int sample_rate
                        +:+ " < 8000 Hz)"]
        else issues in
      Some {| is_valid := bool_decide (length issues = 0);
              duration := duration;
              sample_rate := sample_rate;
              channels := channels;
              issues := issues |}
  end.

End Validate.
End Audio.

(** ** data_prep.py: the VIVOS manifest and its splits *)

Module DataPrep.

(** One record of the manifest. *)
Record Sample := {
  audio_id : string;
  text : string;
  audio_path : string
}.

(** The loop body of the prompts file on one line: a line that has,
    once stripped, a space in it gives a record; any other line is
    skipped. *)
Definition parse_line (line : string) : option Sample :=
  match PyStr2.split_space_once (PyStr2.strip line) with
  | [audio_id; text] =>
      Some {| audio_id := audio_id; text := text;
              audio_path := audio_id +:+ ".wav" |}
  | _ => None
  end.

(** The loop over the lines of the file. *)
Definition load (lines : list string) : list Sample :=
  foldl (λ data line,
           match parse_line line with
           | Some sample => data ++ [sample]
           | None => data
           end) [] lines.

(** [int(x)] for a float: the value cut towards zero; [None] is the
    [ValueError] on NaN and the [OverflowError] on an infinity. *)
Definition int_of_float (x : float) : option Z :=
  match Prim2SF x with
  | S754_zero _ => Some 0%Z
  | S754_finite s m e =>
      let v := (if 0 <=? e then Z.pos m * 2 ^ e else Z.pos m / 2 ^ (- e))%Z in
      Some (if s then - v else v)%Z
  | _ => None
  end.

(** [l[start:stop]], either bound possibly absent: a negative bound
    counts from the end, and both are clamped to the list. *)
Definition py_slice {A} (l : list A) (start stop : option Z) : list A :=
  let n := Z.of_nat (length l) in
  let clamp (i : Z) : Z := (if i <? 0 then Z.max (i + n) 0 else Z.min i n)%Z in
  let lo := from_option clamp 0%Z start in
  let hi := from_option clamp n stop in
  take (Z.to_nat (hi - lo)) (drop (Z.to_nat lo) l).

Record SplitSizes := {
  train : nat;
  val : nat;
  test : nat
}.

Section Prepare.

(** [df.sample(frac=1, random_state=42).reset_index(drop=True)]: the
    rows in pandas' shuffled order. *)
Variable shuffle : list Sample → list Sample.

(** The three frames written to [train/], [val/] and [test/], from the
    lines of the prompts file.  [None] is an exception: a ratio tuple
    that is too short, or a size that [int] refuses. *)
Definition vivos_splits (lines : list string) (split_ratio : list float)
    : option (list Sample * list Sample * list Sample) :=
  let df := load lines in
  r0 ← split_ratio !! 0;
  train_size ← int_of_float (Np.of_nat (length df) * r0);
  r1 ← split_ratio !! 1;
  val_size ← int_of_float (Np.of_nat (length df) * r1);
  let df_shuffled := shuffle df in
  let train_df := py_slice df_shuffled None (Some train_size) in
  let val_df :=
    py_slice df_shuffled (Some train_size) (Some (train_size + val_size)%Z) in
  let test_df := py_slice df_shuffled (Some (train_size + val_size)%Z) None in
  Some (train_df, val_df, test_df).

(** [prepare_vivos_dataset(raw_path, output_path, split_ratio)], on the
    lines of [prompts.txt] ([None] when the file does not exist: a
    sample manifest is written and all sizes are 0). *)
Definition prepare_vivos_dataset
    (prompts : option (list string)) (split_ratio : list float)
    : option SplitSizes :=
  match prompts with
  | None => Some {| train := 0; val := 0; test := 0 |}
  | Some lines =>
      '(train_df, val_df, test_df) ← vivos_splits lines split_ratio;
      Some {| train := length train_df;
              val := length val_df;
              test := length test_df |}
  end.

End Prepare.

Definition default_split_ratio : list float := [0.8; 0.1; 0.1]%float.

End DataPrep.

(** ** evaluate.py: the latency benchmark *)

Module Benchmark.
Import Evaluate.

Record LatencyStats := {
  p50 : float;
  p90 : float;
  p99 : float;
  mean : float;
  std : float
}.

Section Bench.
Context {Sample : Type}.

(** [model(sample)]: [true] when the call returns, [false] when it
    raises. *)
Variable model : Sample → bool.

(** [time.perf_counter()]: the reading of the clock, given the number
    of readings made before. *)
Variable perf_counter : nat → float.

(** [np.percentile], [np.mean] and [np.std], on an array that is not
    empty. *)
Variable np_percentile : list float → float → float.
Variable np_mean : list float → float.
Variable np_std : list float → float.

(** What the two loops change: the calls made of the model, the number
    of readings of the clock, and the list [latencies]. *)
Record Trace := {
  calls : list Sample;
  readings : nat;
  latencies : list float
}.

(** The body of the warm-up loop. *)
Definition warmup_run (test_samples : list Sample) (i : nat) (t : Trace)
    : option Trace :=
  sample ← test_samples !! i;
  if model sample
  then Some {| calls := calls t ++ [sample]; readings := readings t;
               latencies := latencies t |}
  else None.

(** The body of the timed loop. *)
Definition timed_run (test_samples : list Sample) (i : nat) (t : Trace)
    : option Trace :=
  let start := perf_counter (readings t) in
  sample ← test_samples !! i;
  if model sample then
    let end_ := perf_counter (readings t + 1) in
    Some {| calls := calls t ++ [sample]; readings := readings t + 2;
            latencies := latencies t ++ [((end_ - start) * 1000)%float] |}
  else None.

(** [benchmark_latency(model, test_samples, num_warmup, num_runs)],
    with the trace of its effects; [None] when a call of the model
    raises, and when no run was timed: [np.percentile] raises
    [IndexError] on an empty array. *)
Definition benchmark_latency
    (test_samples : list Sample) (num_warmup num_runs : Z)
    : option (Trace * LatencyStats) :=
  let t := {| calls := []; readings := 0; latencies := [] |} in
  t ← for_each
         (range 0 (Z.to_nat (num_warmup `min` Z.of_nat (length test_samples))))
         (warmup_run test_samples) t;
  t ← for_each
         (range 0 (Z.to_nat (num_runs `min` Z.of_nat (length test_samples))))
         (timed_run test_samples) t;
  let latencies := latencies t in
  match latencies with
  | [] => None
  | _ :: _ =>
      Some (t, {| p50 := np_percentile latencies 50;
                  p90 := np_percentile latencies 90;
                  p99 := np_percentile latencies 99;
                  mean := np_mean latencies;
                  std := np_std latencies |})
  end.

End Bench.
End Benchmark.

(** * Specifications *)

(** ** The unit-cost edit distance

    [edits xs ys n]: some script of [n] single-token insertions,
    deletions and substitutions turns [xs] into [ys] (tokens that are
    kept cost nothing).  The Levenshtein distance is the least such
    [n]. *)

Module Levenshtein.
Section Distance.

Context {A : Type} `{EqDecision A}.

Inductive edits : list A → list A → nat → Prop :=
| edits_nil : edits [] [] 0
| edits_keep a xs ys n : edits xs ys n → edits (a :: xs) (a :: ys) n
| edits_sub a b xs ys n : edits xs ys n → edits (a :: xs) (b :: ys) (S n)
| edits_del a xs ys n : edits xs ys n → edits (a :: xs) ys (S n)
| edits_ins b xs ys n : edits xs ys n → edits xs (b :: ys) (S n).

Definition is_distance (xs ys : list A) (d : nat) : Prop :=
  edits xs ys d ∧ ∀ n, edits xs ys n → d ≤ n.

(** The textbook recursion, from the front of both sequences. *)
Fixpoint levenshtein (xs ys : list A) {struct xs} : nat :=
  match xs with
  | [] => length ys
  | x :: xs' =>
      (fix along (ys : list A) : nat :=
         match ys with
         | [] => S (length xs')
         | y :: ys' =>
             S (levenshtein xs' ys)
             `min` (S (along ys')
             `min` ((if decide (x = y) then 0 else 1) + levenshtein xs' ys'))
         end) ys
  end.

Lemma levenshtein_nil_r xs : levenshtein xs [] = length xs.
Proof. by destruct xs. Qed.

Lemma levenshtein_cons x xs y ys :
  levenshtein (x :: xs) (y :: ys) =
    S (levenshtein xs (y :: ys))
    `min` (S (levenshtein (x :: xs) ys)
    `min` ((if decide (x = y) then 0 else 1) + levenshtein xs ys)).
Proof. reflexivity. Qed.

Lemma edits_to_nil xs : edits xs [] (length xs).
Proof. induction xs; simpl; by constructor. Qed.

Lemma edits_from_nil ys : edits [] ys (length ys).
Proof. induction ys; simpl; by constructor. Qed.

Lemma levenshtein_edits xs ys : edits xs ys (levenshtein xs ys).
Proof.
  revert ys. induction xs as [|x xs IHx]; intros ys.
  - apply edits_from_nil.
  - induction ys as [|y ys IHy].
    + apply (edits_to_nil (x :: xs)).
    + rewrite levenshtein_cons.
      destruct (Nat.min_spec (S (levenshtein xs (y :: ys)))
        (S (levenshtein (x :: xs) ys)
         `min` ((if decide (x = y) then 0 else 1) + levenshtein xs ys)))
        as [[_ ->]|[_ ->]].
      { apply edits_del, IHx. }
      destruct (Nat.min_spec (S (levenshtein (x :: xs) ys))
        ((if decide (x = y) then 0 else 1) + levenshtein xs ys))
        as [[_ ->]|[_ ->]].
      { apply edits_ins, IHy. }
      destruct (decide (x = y)) as [->|_]; simpl.
      * apply edits_keep, IHx.
      * apply edits_sub, IHx.
Qed.

Lemma levenshtein_least xs ys n : edits xs ys n → levenshtein xs ys ≤ n.
Proof.
  induction 1 as [|a xs ys n _ IH|a b xs ys n _ IH|a xs ys n _ IH|b xs ys n _ IH].
  - done.
  - rewrite levenshtein_cons, decide_True by done. lia.
  - rewrite levenshtein_cons. destruct (decide (a = b)); lia.
  - destruct ys as [|y ys].
    + rewrite levenshtein_nil_r in *. simpl. lia.
    + rewrite levenshtein_cons. lia.
  - destruct xs as [|x xs].
    + simpl in *. lia.
    + rewrite levenshtein_cons. lia.
Qed.

Lemma levenshtein_is_distance xs ys : is_distance xs ys (levenshtein xs ys).
Proof. split; [apply levenshtein_edits | apply levenshtein_least]. Qed.

Lemma is_distance_unique xs ys d : is_distance xs ys d → d = levenshtein xs ys.
Proof.
  intros [Hd Hleast]. apply Nat.le_antisymm.
  - apply Hleast, levenshtein_edits.
  - by apply levenshtein_least.
Qed.

(** Scripts can be read from either end. *)
Lemma edits_snoc_keep a xs ys n :
  edits xs ys n → edits (xs ++ [a]) (ys ++ [a]) n.
Proof. induction 1; simpl; try by constructor. apply edits_keep, edits_nil. Qed.

Lemma edits_snoc_sub a b xs ys n :
  edits xs ys n → edits (xs ++ [a]) (ys ++ [b]) (S n).
Proof. induction 1; simpl; try by constructor. apply edits_sub, edits_nil. Qed.

Lemma edits_snoc_del a xs ys n :
  edits xs ys n → edits (xs ++ [a]) ys (S n).
Proof. induction 1; simpl; try by constructor. apply edits_del, edits_nil. Qed.

Lemma edits_snoc_ins b xs ys n :
  edits xs ys n → edits xs (ys ++ [b]) (S n).
Proof. induction 1; simpl; try by constructor. apply edits_ins, edits_nil. Qed.

Lemma edits_reverse xs ys n : edits xs ys n → edits (reverse xs) (reverse ys) n.
Proof.
  induction 1; rewrite ?reverse_nil, ?reverse_cons.
  - constructor.
  - by apply edits_snoc_keep.
  - by apply edits_snoc_sub.
  - by apply edits_snoc_del.
  - by apply edits_snoc_ins.
Qed.

Lemma levenshtein_reverse xs ys :
  levenshtein (reverse xs) (reverse ys) = levenshtein xs ys.
Proof.
  apply Nat.le_antisymm; apply levenshtein_least.
  - apply edits_reverse, levenshtein_edits.
  - rewrite <- (reverse_involutive xs), <- (reverse_involutive ys) at 1.
    apply edits_reverse, levenshtein_edits.
Qed.

(** Dropping a token from either side moves the distance by at most one. *)
Lemma edits_drop_l a xs ys n :
  edits (a :: xs) ys n → ∃ k, k ≤ S n ∧ edits xs ys k.
Proof.
  intros H. remember (a :: xs) as zs eqn:Hzs. revert a xs Hzs.
  induction H as [|c us vs n H _|c b us vs n H _|c us vs n H _|b us vs n H IH];
    intros a xs Hzs; simplify_eq.
  - exists (S n). split; [lia | by apply edits_ins].
  - exists (S n). split; [lia | by apply edits_ins].
  - exists n. split; [lia | done].
  - destruct (IH a xs eq_refl) as (k & Hk & Hed).
    exists (S k). split; [lia | by apply edits_ins].
Qed.

Lemma edits_drop_r b xs ys n :
  edits xs (b :: ys) n → ∃ k, k ≤ S n ∧ edits xs ys k.
Proof.
  intros H. remember (b :: ys) as zs eqn:Hzs. revert b ys Hzs.
  induction H as [|c us vs n H _|c d us vs n H _|c us vs n H IH|d us vs n H _];
    intros b ys Hzs; simplify_eq.
  - exists (S n). split; [lia | by apply edits_del].
  - exists (S n). split; [lia | by apply edits_del].
  - destruct (IH b ys eq_refl) as (k & Hk & Hed).
    exists (S k). split; [lia | by apply edits_del].
  - exists n. split; [lia | done].
Qed.

Lemma levenshtein_drop_l a xs ys :
  levenshtein xs ys ≤ S (levenshtein (a :: xs) ys).
Proof.
  destruct (edits_drop_l a xs ys _ (levenshtein_edits (a :: xs) ys))
    as (k & Hk & Hed).
  apply levenshtein_least in Hed. lia.
Qed.

Lemma levenshtein_drop_r b xs ys :
  levenshtein xs ys ≤ S (levenshtein xs (b :: ys)).
Proof.
  destruct (edits_drop_r b xs ys _ (levenshtein_edits xs (b :: ys)))
    as (k & Hk & Hed).
  apply levenshtein_least in Hed. lia.
Qed.

(** The recurrence on the last tokens, which the table of
    [calculate_word_error_rate] follows. *)
Lemma levenshtein_nil_l ys : levenshtein [] ys = length ys.
Proof. reflexivity. Qed.

Lemma levenshtein_snoc xs a ys b :
  levenshtein (xs ++ [a]) (ys ++ [b]) =
    if decide (a = b) then levenshtein xs ys
    else 1 + levenshtein xs (ys ++ [b])
             `min` (levenshtein (xs ++ [a]) ys `min` levenshtein xs ys).
Proof.
  rewrite <- (levenshtein_reverse (xs ++ [a])), !reverse_snoc, levenshtein_cons.
  rewrite <- (reverse_snoc ys b), <- (reverse_snoc xs a), !levenshtein_reverse.
  pose proof (levenshtein_drop_l a (reverse xs) (reverse ys)) as Hl.
  pose proof (levenshtein_drop_r b (reverse xs) (reverse ys)) as Hr.
  rewrite <- (reverse_snoc ys b), <- (reverse_snoc xs a), !levenshtein_reverse in *.
  destruct (decide (a = b)); lia.
Qed.

End Distance.
End Levenshtein.

(** ** The table of [calculate_word_error_rate] computes the distance *)

Module TableProofs.
Import Evaluate Levenshtein.

(** The invariant rule of a counting loop. *)
Lemma for_each_seq_invariant {St : Type} (I : nat → St → Prop)
    (body : nat → St → option St) (a k : nat) (s : St) :
  I a s →
  (∀ i t, a ≤ i < a + k → I i t → ∃ t', body i t = Some t' ∧ I (S i) t') →
  ∃ s', for_each (seq a k) body s = Some s' ∧ I (a + k) s'.
Proof.
  revert a s. induction k as [|k IH]; intros a s Ha Hstep; simpl.
  - exists s. by rewrite Nat.add_0_r.
  - destruct (Hstep a s) as (s' & -> & Hs'); [lia | done |]. simpl.
    destruct (IH (S a) s') as (s'' & -> & Hs''); [done | |].
    { intros i t Hi. apply Hstep. lia. }
    exists s''. split; [done|]. by replace (a + S k) with (S a + k) by lia.
Qed.

Definition well_shaped (rows cols : nat) (dp : list (list nat)) : Prop :=
  length dp = rows ∧ ∀ i row, dp !! i = Some row → length row = cols.

Lemma well_shaped_replicate rows cols :
  well_shaped rows cols (replicate rows (replicate cols 0)).
Proof.
  split; [apply length_replicate|].
  intros i row [-> _]%lookup_replicate. apply length_replicate.
Qed.

Lemma set2_defined rows cols dp i j v :
  well_shaped rows cols dp → i < rows → j < cols →
  ∃ dp', set2 dp i j v = Some dp' ∧ well_shaped rows cols dp'.
Proof.
  intros [Hrows Hcols] Hi Hj. unfold set2.
  destruct (lookup_lt_is_Some_2 dp i) as [row Hrow]; [lia|].
  rewrite Hrow. simpl. pose proof (Hcols i row Hrow) as Hlen.
  rewrite bool_decide_eq_true_2 by lia.
  eexists. split; [done|]. split; [by rewrite length_insert|].
  intros i' row'. destruct (decide (i' = i)) as [->|Hne].
  - rewrite list_lookup_insert_eq by lia. intros [= <-].
    by rewrite length_insert.
  - rewrite list_lookup_insert_ne by done. apply Hcols.
Qed.

Lemma get2_set2 dp i j v dp' i' j' :
  set2 dp i j v = Some dp' →
  get2 dp' i' j' =
    if decide (i' = i ∧ j' = j) then Some v else get2 dp i' j'.
Proof.
  unfold set2, get2. destruct (dp !! i) as [row|] eqn:Hrow; [simpl|done].
  case_bool_decide as Hj; [|done]. intros [= <-].
  pose proof (lookup_lt_Some _ _ _ Hrow) as Hi.
  destruct (decide (i' = i)) as [->|Hne].
  - rewrite list_lookup_insert_eq by done. simpl.
    destruct (decide (j' = j)) as [->|Hnej].
    + rewrite list_lookup_insert_eq by done. by rewrite decide_True.
    + rewrite list_lookup_insert_ne by done.
      rewrite decide_False by (by intros [_ ?]). by rewrite Hrow.
  - rewrite list_lookup_insert_ne by done.
    by rewrite decide_False by (by intros [? _]).
Qed.

Section Table.
Variables ref_words hyp_words : list string.

Let m := length ref_words.
Let n := length hyp_words.

(** What cell [(i, j)] must hold. *)
Definition cell (i j : nat) : nat :=
  levenshtein (take i ref_words) (take j hyp_words).

(** The cells of [P] hold their distances. *)
Definition filled (P : nat → nat → Prop) (dp : list (list nat)) : Prop :=
  well_shaped (m + 1) (n + 1) dp ∧
  ∀ i j, P i j → get2 dp i j = Some (cell i j).

Lemma filled_set (P Q : nat → nat → Prop) dp i j v :
  filled P dp → i ≤ m → j ≤ n → v = cell i j →
  (∀ i' j', Q i' j' → P i' j' ∨ (i' = i ∧ j' = j)) →
  ∃ dp', set2 dp i j v = Some dp' ∧ filled Q dp'.
Proof.
  intros [Hshape Hcells] Hi Hj -> HQ.
  destruct (set2_defined (m + 1) (n + 1) dp i j (cell i j))
    as (dp' & Hset & Hshape'); [done | lia | lia |].
  exists dp'. split; [done|]. split; [done|].
  intros i' j' HQ'. rewrite (get2_set2 _ _ _ _ _ _ _ Hset).
  destruct (decide (i' = i ∧ j' = j)) as [[-> ->]|Hne]; [done|].
  apply Hcells. destruct (HQ _ _ HQ') as [?|?]; [done | by destruct Hne].
Qed.

Lemma cell_first_column i : i ≤ m → cell i 0 = i.
Proof.
  intros Hi. unfold cell. rewrite take_0, levenshtein_nil_r, length_take.
  fold m. lia.
Qed.

Lemma cell_first_row j : j ≤ n → cell 0 j = j.
Proof.
  intros Hj. unfold cell. rewrite take_0, levenshtein_nil_l, length_take.
  fold n. lia.
Qed.

Lemma cell_step i j r h :
  ref_words !! i = Some r → hyp_words !! j = Some h →
  cell (S i) (S j) =
    if decide (r = h) then cell i j
    else 1 + cell i (S j) `min` (cell (S i) j `min` cell i j).
Proof.
  intros Hr Hh. unfold cell.
  rewrite (take_S_r _ _ _ Hr), (take_S_r _ _ _ Hh).
  apply levenshtein_snoc.
Qed.

Lemma fill_cell_correct (P Q : nat → nat → Prop) dp i j :
  filled P dp → 1 ≤ i ≤ m → 1 ≤ j ≤ n →
  P (i - 1) (j - 1) → P (i - 1) j → P i (j - 1) →
  (∀ i' j', Q i' j' → P i' j' ∨ (i' = i ∧ j' = j)) →
  ∃ dp', fill_cell ref_words hyp_words i j dp = Some dp' ∧ filled Q dp'.
Proof.
  intros Hfilled Hi Hj Hd Hu Hl HQ. unfold fill_cell.
  destruct (lookup_lt_is_Some_2 ref_words (i - 1)) as [r Hr]; [fold m; lia|].
  destruct (lookup_lt_is_Some_2 hyp_words (j - 1)) as [h Hh]; [fold n; lia|].
  rewrite Hr, Hh. simpl.
  pose proof (cell_step _ _ _ _ Hr Hh) as Hcell.
  replace (S (i - 1)) with i in Hcell by lia.
  replace (S (j - 1)) with j in Hcell by lia.
  destruct Hfilled as [Hshape Hcells].
  rewrite (Hcells _ _ Hd), (Hcells _ _ Hu), (Hcells _ _ Hl).
  case_bool_decide as Heq; simpl.
  - apply (filled_set P Q); [done | lia | lia | | done].
    by rewrite Hcell, decide_True.
  - apply (filled_set P Q); [done | lia | lia | | done].
    by rewrite Hcell, decide_False.
Qed.

(** The cells that are final once rows [1 .. i0 - 1] are complete
    and row [i0] is complete up to column [j0 - 1]. *)
Definition reached (i0 j0 : nat) (i j : nat) : Prop :=
  i ≤ m ∧ j ≤ n ∧ (i = 0 ∨ j = 0 ∨ i < i0 ∨ (i = i0 ∧ j < j0)).

Lemma edit_distance_table_correct :
  edit_distance_table ref_words hyp_words
  = Some (levenshtein ref_words hyp_words).
Proof.
  unfold edit_distance_table, range. fold m n.
  (* first column *)
  destruct (for_each_seq_invariant
              (λ k dp, filled (λ i j, j = 0 ∧ i < k) dp)
              (λ i dp, set2 dp i 0 i) 0 (m + 1 - 0)
              (replicate (m + 1) (replicate (n + 1) 0)))
    as (dp1 & -> & Hdp1).
  { split; [apply well_shaped_replicate | lia]. }
  { intros i dp Hi Hdp.
    apply (filled_set (λ i' j', j' = 0 ∧ i' < i)); [done | lia | lia | | ].
    - symmetry. apply cell_first_column. lia.
    - intros i' j' [-> Hi']. destruct (decide (i' = i)); [by right|left]. lia. }
  simpl.
  (* first row *)
  destruct (for_each_seq_invariant
              (λ k dp, filled (λ i j, (j = 0 ∧ i ≤ m) ∨ (i = 0 ∧ j < k)) dp)
              (λ j dp, set2 dp 0 j j) 0 (n + 1 - 0) dp1)
    as (dp2 & -> & Hdp2).
  { destruct Hdp1 as [Hshape Hcells]. split; [done|].
    intros i j [[-> Hi]|[_ Hj]]; [|lia]. apply Hcells. lia. }
  { intros j dp Hj Hdp.
    apply (filled_set (λ i j', (j' = 0 ∧ i ≤ m) ∨ (i = 0 ∧ j' < j)));
      [done | lia | lia | | ].
    - symmetry. apply cell_first_row. lia.
    - intros i' j' [?|[-> Hj']]; [by left; left|].
      destruct (decide (j' = j)); [by right|left; right]. lia. }
  simpl.
  (* the rows *)
  destruct (for_each_seq_invariant
              (λ i0 dp, filled (reached i0 0) dp)
              (λ i dp, for_each (seq 1 (n + 1 - 1))
                          (fill_cell ref_words hyp_words i) dp)
              1 (m + 1 - 1) dp2)
    as (dp3 & -> & Hdp3).
  { destruct Hdp2 as [Hshape Hcells]. split; [done|].
    intros i j (Hi & Hj & Hreach). apply Hcells.
    destruct (decide (j = 0)); [left; lia | right; lia]. }
  { intros i dp Hi Hdp.
    destruct (for_each_seq_invariant
                (λ j0 dp, filled (reached i j0) dp)
                (fill_cell ref_words hyp_words i) 1 (n + 1 - 1) dp)
      as (dp' & -> & Hdp').
    - destruct Hdp as [Hshape Hcells]. split; [done|].
      intros i' j' (Hi' & Hj' & Hreach). apply Hcells.
      unfold reached. lia.
    - intros j t Hj Ht.
      apply (fill_cell_correct (reached i j)); unfold reached; try done; lia.
    - exists dp'. split; [done|].
      destruct Hdp' as [Hshape Hcells]. split; [done|].
      intros i' j' (Hi' & Hj' & Hreach). apply Hcells.
      unfold reached. lia. }
  simpl. destruct Hdp3 as [_ Hcells].
  rewrite (Hcells m n) by (unfold reached; lia).
  unfold cell, m, n. by rewrite !firstn_all.
Qed.

End Table.
End TableProofs.

(** ** Corpus-level word error rate and phoneme accuracy *)

Module CorpusMetrics.
Import Evaluate Levenshtein.

(** The word sequence compared for a text: lowercased, then split at
    whitespace. *)
Definition words (s : string) : list string := PyStr.split (PyStr.lower s).

(** The number of positions, below both lengths, at which the two
    sequences agree. *)
Definition positional_matches (pred gt : list string) : nat :=
  length (filter (λ k, pred !! k = gt !! k)
                 (seq 0 (length pred `min` length gt))).

(** A pooled ratio: one quotient of the two corpus totals, [0] when
    the denominator is [0]. *)
Definition pooled_ratio (num den : nat) : Q :=
  if bool_decide (0 < den) then quotient num den else 0%Q.

Lemma filter_ext_in {A} (P Q : A → Prop)
    `{!∀ x, Decision (P x), !∀ x, Decision (Q x)} (l : list A) :
  (∀ x, x ∈ l → P x ↔ Q x) → filter P l = filter Q l.
Proof.
  induction l as [|a l IH]; intros Hext; [done|].
  rewrite !filter_cons.
  rewrite IH by (intros x Hx; apply Hext; by right).
  pose proof (Hext a (list_elem_of_here _ _)).
  repeat case_decide; tauto.
Qed.

Lemma zip_matches_from (a b : list string) (o : nat) :
  sum_list ((λ '(p, g), if bool_decide (p = g) then 1 else 0) <$> zip a b)
  = length (filter (λ k, a !! (k - o) = b !! (k - o))
                   (seq o (length a `min` length b))).
Proof.
  revert b o. induction a as [|x a IH]; intros [|y b] o; try done.
  cbn [zip zip_with fmap list_fmap length Nat.min seq].
  change (sum_list_with id (?n :: ?l)) with (n + sum_list l).
  rewrite filter_cons, Nat.sub_diag. cbn [lookup list_lookup].
  rewrite (filter_ext_in _ (λ k, a !! (k - S o) = b !! (k - S o))).
  - rewrite (IH b (S o)).
    case_bool_decide; case_decide; simplify_eq; done.
  - intros k [Hk _]%elem_of_seq.
    by replace (k - o) with (S (k - S o)) by lia.
Qed.

Lemma zip_take_matches (pred gt : list string) :
  let min_len := length pred `min` length gt in
  sum_list ((λ '(p, g), if bool_decide (p = g) then 1 else 0)
              <$> zip (take min_len pred) (take min_len gt))
  = positional_matches pred gt.
Proof.
  intros min_len. rewrite (zip_matches_from _ _ 0), !length_take.
  unfold positional_matches.
  replace ((min_len `min` length pred) `min` (min_len `min` length gt))
    with min_len by lia.
  apply (f_equal length), filter_ext_in.
  intros k [_ Hk]%elem_of_seq.
  rewrite Nat.sub_0_r, !lookup_take_lt by lia. done.
Qed.

Lemma phoneme_accuracy_totals pairs total_correct total_phonemes :
  foldl phoneme_accuracy_step (total_correct, total_phonemes) pairs
  = (total_correct + sum_list ((λ pair, positional_matches pair.1 pair.2) <$> pairs),
     total_phonemes + sum_list ((λ pair, length pair.2) <$> pairs)).
Proof.
  revert total_correct total_phonemes.
  induction pairs as [|[pred gt] pairs IH]; intros total_correct total_phonemes.
  - simpl. by rewrite !Nat.add_0_r.
  - cbn [foldl phoneme_accuracy_step]. rewrite zip_take_matches, IH.
    cbn [fmap list_fmap fst snd].
    change (sum_list_with id (?n :: ?l)) with (n + sum_list l).
    f_equal; lia.
Qed.

Lemma phoneme_accuracy_closed_form predicted ground_truth :
  calculate_phoneme_accuracy predicted ground_truth
  = pooled_ratio
      (sum_list ((λ pair, positional_matches pair.1 pair.2)
                   <$> zip predicted ground_truth))
      (sum_list ((λ pair, length pair.2) <$> zip predicted ground_truth)).
Proof.
  unfold calculate_phoneme_accuracy. by rewrite phoneme_accuracy_totals.
Qed.

Lemma word_error_totals pairs total_wer total_words :
  for_each pairs word_error_step (total_wer, total_words)
  = Some (total_wer
          + sum_list ((λ pair, levenshtein (words pair.2) (words pair.1)) <$> pairs),
          total_words + sum_list ((λ pair, length (words pair.2)) <$> pairs)).
Proof.
  revert total_wer total_words.
  induction pairs as [|[hyp ref] pairs IH]; intros total_wer total_words.
  - simpl. by rewrite !Nat.add_0_r.
  - cbn [for_each word_error_step].
    rewrite TableProofs.edit_distance_table_correct. cbn [mbind option_bind].
    rewrite IH. cbn [fmap list_fmap fst snd].
    change (sum_list_with id (?n :: ?l)) with (n + sum_list l).
    unfold words. do 2 f_equal; lia.
Qed.

Lemma word_error_rate_closed_form hypotheses references :
  calculate_word_error_rate hypotheses references
  = Some (pooled_ratio
            (sum_list ((λ pair, levenshtein (words pair.2) (words pair.1))
                         <$> zip hypotheses references))
            (sum_list ((λ pair, length (words pair.2))
                         <$> zip hypotheses references))).
Proof.
  unfold calculate_word_error_rate. by rewrite word_error_totals.
Qed.

End CorpusMetrics.

(** ** The confusion counts of [generate_error_analysis] *)

Module ErrorMining.
Import Evaluate.

(** [d.get("phonemes", [])] *)
Definition phonemes_of (d : gmap string (list string)) : list string :=
  default [] (d !! "phonemes").

(** The keys of the mismatches of one utterance, in position order:
    the positions present in both sequences whose symbols differ. *)
Definition utterance_keys (pred_phonemes gt_phonemes : list string) : list string :=
  (λ pg, error_key pg.2 pg.1)
    <$> filter (λ pg, pg.1 ≠ pg.2) (zip pred_phonemes gt_phonemes).

(** The keys of all mismatches of the corpus, in the order met. *)
Definition mismatch_keys
    (predictions ground_truths : list (gmap string (list string))) : list string :=
  mjoin ((λ pair, utterance_keys (phonemes_of pair.1) (phonemes_of pair.2))
           <$> zip predictions ground_truths).

Definition occurrences `{EqDecision A} (k : A) (keys : list A) : nat :=
  length (filter (k =.) keys).

(** [k1] is met for the first time before [k2] is. *)
Definition first_seen_before {A} (keys : list A) (k1 k2 : A) : Prop :=
  ∃ i, keys !! i = Some k1 ∧ ∀ j, keys !! j = Some k2 → i < j.

(** The order of the ranking: larger count first, and among equal
    counts the key met first. *)
Definition outranks {A} (keys : list A) (e1 e2 : A * nat) : Prop :=
  e2.2 < e1.2 ∨ (e1.2 = e2.2 ∧ first_seen_before keys e1.1 e2.1).

(** One more occurrence of [k]: [d[k] = d.get(k, 0) + 1]. *)
Definition bump (d : list (string * nat)) (k : string) : list (string * nat) :=
  dict_set d k (dict_get d k 0 + 1).

(** *** The insertion-ordered dict *)

Lemma dict_set_keys d k v :
  (dict_set d k v).*1 = if decide (k ∈ d.*1) then d.*1 else d.*1 ++ [k].
Proof.
  induction d as [|[k' v'] d IH]; [done|]. cbn [dict_set].
  case_bool_decide as Hk; simplify_eq.
  - rewrite decide_True; [done | by left].
  - cbn [fmap list_fmap fst]. rewrite IH.
    destruct (decide (k ∈ d.*1)) as [Hin|Hin].
    + rewrite decide_True; [done | by right].
    + rewrite decide_False; [done|]. intros [?|?]%elem_of_cons; by simplify_eq.
Qed.

Lemma dict_set_absent d k v : k ∉ d.*1 → dict_set d k v = d ++ [(k, v)].
Proof.
  induction d as [|[k' v'] d IH]; [done|]. cbn [dict_set fmap list_fmap fst].
  intros Hk. rewrite bool_decide_eq_false_2.
  - rewrite IH; [done|]. intros ?. apply Hk. by right.
  - intros ->. apply Hk. by left.
Qed.

Lemma dict_get_set d k v k' dflt :
  dict_get (dict_set d k v) k' dflt
  = if decide (k' = k) then v else dict_get d k' dflt.
Proof.
  induction d as [|[k0 v0] d IH]; cbn [dict_set dict_get].
  - case_bool_decide; case_decide; by simplify_eq.
  - case_bool_decide as H0; cbn [dict_get]; simplify_eq.
    + case_bool_decide; case_decide; by simplify_eq.
    + rewrite IH. case_bool_decide; case_decide; by simplify_eq.
Qed.

Lemma dict_entries d :
  NoDup d.*1 → d = (λ k, (k, dict_get d k 0)) <$> d.*1.
Proof.
  induction d as [|[k v] d IH]; [done|]. cbn [fmap list_fmap fst].
  intros [Hk Hnd]%NoDup_cons. cbn [dict_get].
  rewrite bool_decide_eq_true_2 by done. f_equal.
  rewrite (IH Hnd) at 1. apply list_fmap_ext.
  intros i k' Hk'. rewrite bool_decide_eq_false_2; [done|].
  intros ->. apply Hk. by eapply list_elem_of_lookup_2.
Qed.

Lemma dict_of_items_from d items :
  NoDup (d ++ items).*1 →
  foldl (λ d '(k, v), dict_set d k v) d items = d ++ items.
Proof.
  revert d. induction items as [|[k v] items IH]; intros d Hnd.
  - by rewrite app_nil_r.
  - cbn [foldl]. rewrite dict_set_absent.
    + rewrite IH; rewrite <- app_assoc; done.
    + rewrite fmap_app, NoDup_app in Hnd. destruct Hnd as (_ & Hnd & _).
      intros Hk. apply (Hnd k Hk). by left.
Qed.

Lemma dict_of_items items : NoDup items.*1 → dict items = items.
Proof. intros. by apply (dict_of_items_from []). Qed.

(** *** The stable sort *)

Section StableSort.
Context {A : Type} (key : A → Z) (R : relation A).

Definition by_key_then (x y : A) : Prop :=
  (key x < key y)%Z ∨ (key x = key y ∧ R x y).

Lemma insert_sorted_perm x l : insert_sorted key x l ≡ₚ x :: l.
Proof.
  induction l as [|y l IH]; [done|]. cbn [insert_sorted].
  case_bool_decide; [done|]. rewrite IH. apply perm_swap.
Qed.

Lemma sorted_perm l : sorted key l ≡ₚ l.
Proof.
  induction l as [|x l IH]; [done|]. unfold sorted in *. cbn [foldr].
  by rewrite insert_sorted_perm, IH.
Qed.

Lemma insert_sorted_stable x l :
  StronglySorted by_key_then l → Forall (R x) l →
  StronglySorted by_key_then (insert_sorted key x l).
Proof.
  induction l as [|y l IH]; intros Hsorted Hx; cbn [insert_sorted].
  - repeat constructor.
  - apply StronglySorted_cons in Hsorted as [Hy Hsorted].
    apply Forall_cons in Hx as [Hxy Hx].
    case_bool_decide as Hkey.
    + apply StronglySorted_cons. split.
      * apply Forall_cons. split.
        { destruct (decide (key x = key y)); [by right | left; lia]. }
        rewrite Forall_forall in *. intros z Hz.
        specialize (Hy z Hz). specialize (Hx z Hz).
        destruct (decide (key x = key z)); [by right | left].
        destruct Hy as [?|[? _]]; lia.
      * by apply StronglySorted_cons.
    + apply StronglySorted_cons. split; [|by apply IH].
      rewrite insert_sorted_perm. apply Forall_cons. split; [|done].
      left. lia.
Qed.

Lemma sorted_stable l :
  StronglySorted R l → StronglySorted by_key_then (sorted key l).
Proof.
  induction l as [|x l IH]; intros Hsorted; [constructor|].
  apply StronglySorted_cons in Hsorted as [Hx Hsorted].
  unfold sorted in *. cbn [foldr]. apply insert_sorted_stable; [by apply IH|].
  fold (sorted key l). by rewrite sorted_perm.
Qed.
End StableSort.

Lemma StronglySorted_weaken {A} (R1 R2 : relation A) l :
  (∀ x y, R1 x y → R2 x y) → StronglySorted R1 l → StronglySorted R2 l.
Proof.
  intros HR. induction 1 as [|x l _ IH Hx]; constructor; [done|].
  eapply Forall_impl; [done | auto].
Qed.

(** *** The counts *)

Lemma occurrences_snoc (k : string) keys k' :
  occurrences k (keys ++ [k'])
  = occurrences k keys + (if decide (k = k') then 1 else 0).
Proof.
  unfold occurrences. rewrite filter_app, length_app, filter_cons. simpl.
  by destruct (decide (k = k')).
Qed.

Lemma first_seen_before_snoc (keys : list string) k k1 k2 :
  first_seen_before keys k1 k2 → first_seen_before (keys ++ [k]) k1 k2.
Proof.
  intros (i & Hi & Hbefore). exists i.
  pose proof (lookup_lt_Some _ _ _ Hi) as Hlt.
  split; [by rewrite lookup_app_l|].
  intros j Hj. destruct (decide (j < length keys)).
  - rewrite lookup_app_l in Hj by done. by apply Hbefore.
  - lia.
Qed.

Lemma first_seen_before_new (keys : list string) k k1 :
  k1 ∈ keys → k ∉ keys → first_seen_before (keys ++ [k]) k1 k.
Proof.
  intros (i & Hi)%list_elem_of_lookup_1 Hk. exists i.
  pose proof (lookup_lt_Some _ _ _ Hi) as Hlt.
  split; [by rewrite lookup_app_l|].
  intros j Hj. destruct (decide (j < length keys)); [|lia].
  rewrite lookup_app_l in Hj by done.
  destruct Hk. by eapply list_elem_of_lookup_2.
Qed.

(** The dict after the keys [keys] have been counted one by one. *)
Lemma tally_invariant (keys : list string) :
  let d := foldl bump [] keys in
  NoDup d.*1 ∧
  (∀ k, k ∈ d.*1 ↔ k ∈ keys) ∧
  (∀ k, dict_get d k 0 = occurrences k keys) ∧
  StronglySorted (first_seen_before keys) d.*1.
Proof.
  induction keys as [|k keys IH] using rev_ind.
  - simpl. split_and!; [constructor | done | done | constructor].
  - cbn zeta in *. rewrite foldl_snoc.
    destruct IH as (Hnd & Hdom & Hget & Hsorted).
    set (d := foldl bump [] keys) in *.
    assert (Hkeys : (bump d k).*1 = if decide (k ∈ d.*1) then d.*1 else d.*1 ++ [k])
      by apply dict_set_keys.
    split_and!.
    + rewrite Hkeys. case_decide as Hin; [done|].
      apply NoDup_app. split_and!; [done | | apply NoDup_singleton].
      intros x Hx ->%list_elem_of_singleton. done.
    + intros k'. rewrite Hkeys, elem_of_app, list_elem_of_singleton.
      case_decide as Hin.
      * rewrite Hdom. split; [by left|]. intros [?| ->]; [done|]. by apply Hdom.
      * rewrite elem_of_app, list_elem_of_singleton, Hdom. done.
    + intros k'. unfold bump. rewrite dict_get_set, occurrences_snoc, !Hget.
      repeat case_decide; simplify_eq; lia.
    + rewrite Hkeys. case_decide as Hin.
      * eapply StronglySorted_weaken; [|done].
        intros. by apply first_seen_before_snoc.
      * apply StronglySorted_app_2.
        -- intros k1 k2 Hk1 ->%list_elem_of_singleton.
           apply first_seen_before_new; [by apply Hdom | by rewrite <- Hdom].
        -- eapply StronglySorted_weaken; [|done].
           intros. by apply first_seen_before_snoc.
        -- repeat constructor.
Qed.

(** *** The loops of [generate_error_analysis] count the mismatch keys *)

Lemma record_error_keys d pairs :
  foldl record_error d pairs
  = foldl bump d ((λ pg, error_key pg.2 pg.1) <$> filter (λ pg, pg.1 ≠ pg.2) pairs).
Proof.
  revert d. induction pairs as [|[p g] pairs IH]; intros d; [done|].
  cbn [foldl record_error]. rewrite filter_cons. cbn [fst snd].
  case_bool_decide; case_decide; try done; by rewrite IH.
Qed.

Lemma record_utterance_keys d pairs :
  foldl record_utterance d pairs
  = foldl bump d
      (mjoin ((λ pair, utterance_keys (phonemes_of pair.1) (phonemes_of pair.2))
                <$> pairs)).
Proof.
  revert d. induction pairs as [|[pred gt] pairs IH]; intros d; [done|].
  cbn [foldl record_utterance fmap list_fmap mjoin list_join fst snd].
  by rewrite foldl_app, IH, record_error_keys.
Qed.

Lemma ranking_of_tally keys :
  let ranking :=
    sorted (λ x : string * nat, - Z.of_nat x.2)%Z (foldl bump [] keys) in
  NoDup ranking.*1 ∧
  (∀ k c, (k, c) ∈ ranking ↔ k ∈ keys ∧ c = occurrences k keys) ∧
  StronglySorted (outranks keys) ranking.
Proof.
  intros ranking.
  destruct (tally_invariant keys) as (Hnd & Hdom & Hget & Hsorted).
  set (d := foldl bump [] keys) in *.
  assert (Hperm : ranking ≡ₚ d) by apply sorted_perm.
  split_and!.
  - by rewrite Hperm.
  - intros k c. rewrite Hperm, (dict_entries d Hnd), list_elem_of_fmap.
    split.
    + intros (k' & [= -> ->] & Hk'). split; [by apply Hdom | by apply Hget].
    + intros [Hk ->]. exists k. split; [by rewrite Hget | by apply Hdom].
  - eapply StronglySorted_weaken;
      [|apply (sorted_stable _ (λ e1 e2, first_seen_before keys e1.1 e2.1))].
    + intros [k1 c1] [k2 c2] [Hlt|[Heq Hseen]]; cbn [fst snd] in *.
      * left. simpl. lia.
      * right. simpl. split; [lia | done].
    + rewrite (dict_entries d Hnd).
      eapply StronglySorted_fmap; [|done]. by intros k1 k2.
Qed.

(** The result in terms of keys: the first 10 entries of the ranking
    of all keys met, each with its number of occurrences, ordered by
    decreasing count and, among equal counts, by first occurrence. *)
Lemma top_errors_rank_keys predictions ground_truths :
  let keys := mismatch_keys predictions ground_truths in
  ∃ ranking : list (string * nat),
    NoDup ranking.*1 ∧
    (∀ k c, (k, c) ∈ ranking ↔ k ∈ keys ∧ c = occurrences k keys) ∧
    StronglySorted (outranks keys) ranking ∧
    top_phoneme_errors (generate_error_analysis predictions ground_truths)
    = take 10 ranking.
Proof.
  intros keys. unfold generate_error_analysis. cbn [top_phoneme_errors].
  rewrite record_utterance_keys. fold (mismatch_keys predictions ground_truths).
  fold keys.
  destruct (ranking_of_tally keys) as (Hnd & Hin & Hsorted).
  eexists. split_and!; [done..|].
  apply dict_of_items. rewrite fmap_take.
  eapply sublist_NoDup; [done | apply sublist_take].
Qed.

(** *** Keys and pairs of symbols *)

(** The mismatches of one utterance as (ground truth, predicted) pairs,
    in position order. *)
Definition utterance_pairs (pred_phonemes gt_phonemes : list string)
    : list (string * string) :=
  (λ pg, (pg.2, pg.1))
    <$> filter (λ pg, pg.1 ≠ pg.2) (zip pred_phonemes gt_phonemes).

(** The pairs of all mismatches of the corpus, in the order met. *)
Definition mismatch_pairs
    (predictions ground_truths : list (gmap string (list string)))
    : list (string * string) :=
  mjoin ((λ pair, utterance_pairs (phonemes_of pair.1) (phonemes_of pair.2))
           <$> zip predictions ground_truths).

(** The key under which a pair is counted. *)
Definition key_of_pair (gp : string * string) : string := error_key gp.1 gp.2.

(** The pair a key is read as: the key cut at its first "->". *)
Fixpoint pair_of_key (k : string) : string * string :=
  match k with
  | EmptyString => (EmptyString, EmptyString)
  | String c k' =>
      match PyStr.startswith "->" k, k' with
      | true, String _ p => (EmptyString, p)
      | _, _ => let '(g, p) := pair_of_key k' in (String c g, p)
      end
  end.

(** The symbols of an alphabet such as the CMU set hold no "->". *)
Definition arrow_free (symbol : string) : Prop :=
  PyStr.contains "->" symbol = false.

Lemma pair_of_error_key g p :
  arrow_free g → pair_of_key (error_key g p) = (g, p).
Proof.
  unfold arrow_free, error_key. induction g as [|c g IH]; [done|].
  cbn [PyStr.contains]. intros [Hhead Htail]%orb_false_elim.
  change (String c g +:+ "->" +:+ p) with (String c (g +:+ "->" +:+ p)).
  cbn [pair_of_key].
  assert (PyStr.startswith "->" (String c (g +:+ "->" +:+ p)) = false) as ->.
  { cbn [PyStr.startswith] in *. destruct (bool_decide ("-"%char = c)); [|done].
    destruct g as [|d g]; [done|]. simpl in *.
    by destruct (bool_decide (">"%char = d)). }
  by rewrite (IH Htail).
Qed.

Lemma utterance_keys_of_pairs pred_phonemes gt_phonemes :
  utterance_keys pred_phonemes gt_phonemes
  = key_of_pair <$> utterance_pairs pred_phonemes gt_phonemes.
Proof. unfold utterance_keys, utterance_pairs. by rewrite <- list_fmap_compose. Qed.

Lemma mismatch_keys_of_pairs predictions ground_truths :
  mismatch_keys predictions ground_truths
  = key_of_pair <$> mismatch_pairs predictions ground_truths.
Proof.
  unfold mismatch_keys, mismatch_pairs.
  induction (zip predictions ground_truths) as [|pair pairs IH]; [done|].
  cbn [fmap list_fmap mjoin list_join].
  rewrite fmap_app, utterance_keys_of_pairs. f_equal. exact IH.
Qed.

Lemma mismatch_pairs_arrow_free predictions ground_truths :
  Forall (λ gt, Forall arrow_free (phonemes_of gt)) ground_truths →
  Forall (λ gp, arrow_free gp.1) (mismatch_pairs predictions ground_truths).
Proof.
  intros Hgt. apply Forall_forall. intros gp Hgp.
  apply list_elem_of_join in Hgp as (l & Hgp & Hl).
  apply list_elem_of_fmap in Hl as ([pred gt] & -> & Hpair).
  apply elem_of_zip_r in Hpair. cbn [fst snd] in *.
  rewrite Forall_forall in Hgt. specialize (Hgt gt Hpair).
  apply list_elem_of_fmap in Hgp as ([p g] & -> & Hpg).
  apply list_elem_of_filter in Hpg as [_ Hpg].
  apply elem_of_zip_r in Hpg. cbn [fst snd] in *.
  rewrite Forall_forall in Hgt. by apply Hgt.
Qed.

(** A count of encoded items is a count of the items, as long as the
    encoding can be read back. *)
Section Encoding.
Context {A : Type} `{EqDecision A} (enc : A → string) (dec : string → A).

Definition decodable (a : A) : Prop := dec (enc a) = a.

Lemma encoded_key items k :
  Forall decodable items → k ∈ enc <$> items → enc (dec k) = k ∧ dec k ∈ items.
Proof.
  intros Hitems (a & -> & Ha)%list_elem_of_fmap.
  rewrite Forall_forall in Hitems. by rewrite (Hitems a Ha : dec (enc a) = a).
Qed.

Lemma occurrences_encoded a items :
  decodable a → Forall decodable items →
  occurrences (enc a) (enc <$> items) = occurrences a items.
Proof.
  intros Ha Hitems. unfold occurrences.
  induction Hitems as [|x l Hx _ IH]; [done|].
  cbn [fmap list_fmap]. rewrite !filter_cons.
  destruct (decide (enc a = enc x)) as [Heq|Hne], (decide (a = x)) as [Heq'|Hne'];
    simpl; rewrite ?IH; try done.
  - destruct Hne'. by rewrite <- Ha, <- Hx, Heq.
  - destruct Hne. by rewrite Heq'.
Qed.

Lemma first_seen_before_encoded items k1 k2 :
  Forall decodable items → k2 ∈ enc <$> items →
  first_seen_before (enc <$> items) k1 k2 →
  first_seen_before items (dec k1) (dec k2).
Proof.
  intros Hitems Hk2 (i & Hi & Hbefore).
  apply list_lookup_fmap_Some in Hi as (a & -> & Ha).
  exists i. split.
  - rewrite Forall_lookup in Hitems. by rewrite (Hitems _ _ Ha : dec (enc a) = a).
  - intros j Hj. apply Hbefore. rewrite list_lookup_fmap, Hj. simpl.
    f_equal. by apply (encoded_key items).
Qed.

Lemma StronglySorted_fmap_in {B C} (R1 : relation B) (R2 : relation C)
    (f : B → C) l :
  (∀ x y, x ∈ l → y ∈ l → R1 x y → R2 (f x) (f y)) →
  StronglySorted R1 l → StronglySorted R2 (f <$> l).
Proof.
  intros HR Hsorted. induction Hsorted as [|x l _ IH Hx]; [constructor|].
  cbn [fmap list_fmap]. constructor.
  - apply IH. intros y z Hy Hz. apply HR; by right.
  - apply Forall_fmap, Forall_forall. intros y Hy. simpl.
    rewrite Forall_forall in Hx. apply HR; [by left | by right | by apply Hx].
Qed.

(** The ranking of the encoded items, read back. *)
Lemma ranking_decoded items (rk : list (string * nat)) :
  Forall decodable items →
  NoDup rk.*1 →
  (∀ k c, (k, c) ∈ rk ↔ k ∈ enc <$> items ∧ c = occurrences k (enc <$> items)) →
  StronglySorted (outranks (enc <$> items)) rk →
  let ranking := (λ e : string * nat, (dec e.1, e.2)) <$> rk in
  NoDup ranking.*1 ∧
  (∀ a c, (a, c) ∈ ranking ↔ a ∈ items ∧ c = occurrences a items) ∧
  StronglySorted (outranks items) ranking ∧
  rk = (λ e : A * nat, (enc e.1, e.2)) <$> ranking.
Proof.
  intros Hitems Hnd Hin Hsorted ranking. unfold ranking.
  assert (Hkey : ∀ e, e ∈ rk → enc (dec e.1) = e.1 ∧ dec e.1 ∈ items).
  { intros [k c] [Hk _]%Hin. by apply encoded_key. }
  split_and!.
  - rewrite <- list_fmap_compose.
    change (fst ∘ _) with (dec ∘ (fst : string * nat → string)).
    rewrite list_fmap_compose. apply NoDup_fmap_2_strong; [|done].
    intros k k' [[k0 c] [-> He]]%list_elem_of_fmap
                [[k0' c'] [-> He']]%list_elem_of_fmap Heq.
    destruct (Hkey _ He) as [<- _], (Hkey _ He') as [<- _]. simpl in *.
    by rewrite Heq.
  - intros a c. rewrite list_elem_of_fmap. split.
    + intros ([k c'] & [= -> ->] & He). simpl.
      destruct (Hkey _ He) as [Hk Ha]. simpl in *.
      apply Hin in He as [_ ->]. split; [done|].
      rewrite <- Hk at 1. apply occurrences_encoded; [|done].
      rewrite Forall_forall in Hitems. by apply Hitems.
    + intros [Ha ->]. rewrite Forall_forall in Hitems.
      exists (enc a, occurrences (enc a) (enc <$> items)). simpl. split.
      * rewrite (Hitems a Ha : dec (enc a) = a). f_equal.
        symmetry. apply occurrences_encoded; [by apply Hitems | by apply Forall_forall].
      * apply Hin. split; [|done]. apply list_elem_of_fmap. by exists a.
  - eapply StronglySorted_fmap_in; [|done].
    intros [k1 c1] [k2 c2] He1 He2 [Hlt|[Heq Hseen]]; cbn [fst snd] in *.
    + by left.
    + right. split; [done|]. simpl.
      apply first_seen_before_encoded; [done | by apply (Hin k2 c2) | done].
  - rewrite <- list_fmap_compose. rewrite <- (list_fmap_id rk) at 1.
    apply list_fmap_ext. intros i [k c] He%list_elem_of_lookup_2.
    destruct (Hkey _ He) as [Hk _]. simpl in *. by rewrite Hk.
Qed.

End Encoding.

(** C7. On a corpus whose ground-truth symbols hold no "->" (the CMU
    phonemes of the repository, for one), the miner counts the pairs
    (ground-truth symbol, predicted symbol) of the positions present in
    both sequences of an utterance where the two symbols differ:
    different pairs never share a key, and the result is the first 10
    entries of the ranking of all pairs met, each under its key "g->p"
    with its number of occurrences, ordered by decreasing count and,
    among equal counts, by first occurrence. *)
Theorem top_errors_rank_symbol_pairs predictions ground_truths :
  Forall (λ gt, Forall arrow_free (phonemes_of gt)) ground_truths →
  let pairs := mismatch_pairs predictions ground_truths in
  ∃ ranking : list ((string * string) * nat),
    NoDup ranking.*1 ∧
    (∀ gp c, (gp, c) ∈ ranking ↔ gp ∈ pairs ∧ c = occurrences gp pairs) ∧
    StronglySorted (outranks pairs) ranking ∧
    (∀ gp gp', gp ∈ pairs → gp' ∈ pairs →
               key_of_pair gp = key_of_pair gp' → gp = gp') ∧
    top_phoneme_errors (generate_error_analysis predictions ground_truths)
    = (λ e, (key_of_pair e.1, e.2)) <$> take 10 ranking.
Proof.
  intros Hgt pairs.
  assert (Forall (decodable key_of_pair pair_of_key) pairs) as Hdec.
  { eapply Forall_impl; [by apply mismatch_pairs_arrow_free|].
    intros [g p] Hg. by apply pair_of_error_key. }
  destruct (top_errors_rank_keys predictions ground_truths)
    as (rk & Hnd & Hin & Hsorted & Htop).
  rewrite mismatch_keys_of_pairs in Hin, Hsorted. fold pairs in Hin, Hsorted.
  destruct (ranking_decoded key_of_pair pair_of_key pairs rk Hdec Hnd Hin Hsorted)
    as (Hnd' & Hin' & Hsorted' & Hrk).
  eexists. split_and!; [exact Hnd' | exact Hin' | exact Hsorted' | |].
  - intros gp gp' Hgp Hgp' Hkey. rewrite Forall_forall in Hdec.
    by rewrite <- (Hdec gp Hgp), <- (Hdec gp' Hgp'), Hkey.
  - by rewrite Htop, Hrk at 1; rewrite fmap_take.
Qed.

Lemma top_errors_rank_symbol_pairs_witness :
  let pairs :=
    mismatch_pairs
      [ {[ "phonemes" := ["T"; "IH"; "N"; "K"] ]}; {[ "phonemes" := ["T"; "L"; "IY"] ]} ]
      [ {[ "phonemes" := ["TH"; "IH"; "NG"; "K"] ]};
        {[ "phonemes" := ["TH"; "R"; "IY"] ]} ] in
  ∃ ranking : list ((string * string) * nat),
    NoDup ranking.*1 ∧
    (∀ gp c, (gp, c) ∈ ranking ↔ gp ∈ pairs ∧ c = occurrences gp pairs) ∧
    StronglySorted (outranks pairs) ranking ∧
    (∀ gp gp', gp ∈ pairs → gp' ∈ pairs →
               key_of_pair gp = key_of_pair gp' → gp = gp') ∧
    top_phoneme_errors
      (generate_error_analysis
         [ {[ "phonemes" := ["T"; "IH"; "N"; "K"] ]};
           {[ "phonemes" := ["T"; "L"; "IY"] ]} ]
         [ {[ "phonemes" := ["TH"; "IH"; "NG"; "K"] ]};
           {[ "phonemes" := ["TH"; "R"; "IY"] ]} ])
    = (λ e, (key_of_pair e.1, e.2)) <$> take 10 ranking.
Proof.
  apply (top_errors_rank_symbol_pairs
           [ {[ "phonemes" := ["T"; "IH"; "N"; "K"] ]};
             {[ "phonemes" := ["T"; "L"; "IY"] ]} ]
           [ {[ "phonemes" := ["TH"; "IH"; "NG"; "K"] ]};
             {[ "phonemes" := ["TH"; "R"; "IY"] ]} ]).
  repeat (constructor; vm_compute).
Defined.

(** The condition on the symbols cannot be dropped: with "->" inside a
    symbol a key no longer tells its pair.  The pairs ("a->b", "c") and
    ("a", "b->c") occur once each and share the one counter "a->b->c",
    which reads 2. *)
Remark arrow_in_symbol_merges_two_pairs :
  top_phoneme_errors
    (generate_error_analysis
       [ {[ "phonemes" := ["c"; "b->c"] ]} ]
       [ {[ "phonemes" := ["a->b"; "a"] ]} ])
  = [("a->b->c", 2)]
  ∧ mismatch_pairs
      [ {[ "phonemes" := ["c"; "b->c"] ]} ]
      [ {[ "phonemes" := ["a->b"; "a"] ]} ]
    = [("a->b", "c"); ("a", "b->c")]
  ∧ key_of_pair ("a->b", "c") = key_of_pair ("a", "b->c").
Proof. by vm_compute. Qed.

End ErrorMining.

(** ** Degenerate inputs of [calculate_gop_metrics] *)

Module GopFacts.
Import Evaluate.
Open Scope float_scope.

(** A float that is NaN or an infinity. *)
Definition nan_or_inf (x : float) : Prop :=
  match Prim2SF x with
  | S754_nan | S754_infinity _ => True
  | _ => False
  end.

Lemma float_is_nan x : Prim2SF x = S754_nan → x = nan.
Proof. intros H. by apply Prim2SF_inj. Qed.

Lemma mul_infinity x : nan_or_inf (x * infinity).
Proof.
  unfold nan_or_inf. rewrite mul_spec.
  change (Prim2SF infinity) with (S754_infinity false).
  by destruct (Prim2SF x).
Qed.

Lemma sqrt_nan_or_inf x : nan_or_inf x → nan_or_inf (PrimFloat.sqrt x).
Proof.
  unfold nan_or_inf. rewrite sqrt_spec.
  by destruct (Prim2SF x) as [?|[]| |].
Qed.

Lemma div_nan_or_inf x y : nan_or_inf x → nan_or_inf y → x / y = nan.
Proof.
  unfold nan_or_inf. intros Hx Hy. apply float_is_nan. rewrite div_spec.
  by destruct (Prim2SF x), (Prim2SF y).
Qed.

Lemma div_nan y : nan / y = nan.
Proof.
  apply float_is_nan. rewrite div_spec.
  change (Prim2SF nan) with S754_nan. by destruct (Prim2SF y).
Qed.

Lemma clip_nan lo hi : Np.clip nan lo hi = nan.
Proof. reflexivity. Qed.

(** With a single point the normalisation is [1 / 0.0]: every entry
    of the covariance matrix is NaN or infinite, and so the quotient by
    the two deviations is NaN. *)
Lemma corrcoef_single_point a b : Np.corrcoef_0_1 [a] [b] = nan.
Proof.
  unfold Np.corrcoef_0_1, Np.cov_entry. cbn [length].
  change (Np.cov_scale 1) with infinity.
  set (cxy := Np.dot _ _). set (cxx := Np.dot _ _). set (cyy := Np.dot _ _).
  rewrite (div_nan_or_inf (cxy * infinity) (PrimFloat.sqrt (cxx * infinity)));
    [| apply mul_infinity | apply sqrt_nan_or_inf, mul_infinity].
  rewrite div_nan. apply clip_nan.
Qed.

Lemma corrcoef_no_point : Np.corrcoef_0_1 [] [] = nan.
Proof. reflexivity. Qed.

End GopFacts.

(** ** Substrings *)

Module PyStrFacts.
Import PyStr.

Lemma startswith_spec p s : startswith p s = true ↔ ∃ rest, s = p +:+ rest.
Proof.
  revert s. induction p as [|a p IH]; intros s; simpl.
  - split; [by exists s | done].
  - destruct s as [|b s].
    + split; [done | by intros [? ?]].
    + rewrite andb_true_iff, bool_decide_eq_true, IH. split.
      * intros [-> [rest ->]]. by exists rest.
      * intros [rest [= -> ->]]. split; [done | by exists rest].
Qed.

Lemma contains_spec p s :
  contains p s = true ↔ ∃ before after, s = before +:+ p +:+ after.
Proof.
  split.
  - induction s as [|c s IH]; simpl; rewrite orb_true_iff.
    + intros [[rest ->]%startswith_spec|?]; [by exists EmptyString, rest | done].
    + intros [[rest ->]%startswith_spec|Htail]; [by exists EmptyString, rest|].
      destruct (IH Htail) as (before & after & ->).
      by exists (String c before), after.
  - intros (before & after & ->).
    induction before as [|c before IH]; simpl.
    + destruct (p +:+ after) eqn:Heq; simpl; rewrite orb_true_iff; left;
        apply startswith_spec; by exists after.
    + by rewrite IH, orb_true_r.
Qed.

End PyStrFacts.

(** ** Binary64 arithmetic on non-negative floats *)

Module Binary64.
Open Scope Z_scope.

(** The value of a non-negative finite float, in units of [2^-1074]
    (the least positive float): an integer for every valid float. *)
Definition scaled (x : spec_float) : Z :=
  match x with
  | S754_finite false m e => Z.pos m * 2 ^ (e + 1074)
  | _ => 0
  end.

Definition nonneg_finite (x : spec_float) : Prop :=
  match x with
  | S754_zero _ | S754_finite false _ _ => True
  | _ => False
  end.

Lemma fexp_eq e : fexp prec emax e = Z.max (e - 53) (-1074).
Proof. reflexivity. Qed.

Lemma digits2_bounds (m : positive) :
  2 ^ (Z.pos (digits2_pos m) - 1) ≤ Z.pos m < 2 ^ Z.pos (digits2_pos m).
Proof.
  induction m as [m IH|m IH|]; cbn [digits2_pos].
  - rewrite Pos2Z.inj_succ, Z.pow_succ_r by lia.
    replace (Z.succ (Z.pos (digits2_pos m)) - 1) with (Z.succ (Z.pos (digits2_pos m) - 1)) by lia.
    rewrite Z.pow_succ_r by lia. lia.
  - rewrite Pos2Z.inj_succ, Z.pow_succ_r by lia.
    replace (Z.succ (Z.pos (digits2_pos m)) - 1) with (Z.succ (Z.pos (digits2_pos m) - 1)) by lia.
    rewrite Z.pow_succ_r by lia. lia.
  - simpl. lia.
Qed.

(** A larger value has at least as many digits above its exponent. *)
Lemma magnitude_le (m1 m2 : positive) (e1 e2 k : Z) :
  0 ≤ e1 + k → 0 ≤ e2 + k →
  Z.pos m1 * 2 ^ (e1 + k) ≤ Z.pos m2 * 2 ^ (e2 + k) →
  Z.pos (digits2_pos m1) + e1 ≤ Z.pos (digits2_pos m2) + e2.
Proof.
  intros H1 H2 Hle.
  pose proof (digits2_bounds m1) as [Hlo1 _].
  pose proof (digits2_bounds m2) as [_ Hhi2].
  assert (2 ^ (Z.pos (digits2_pos m1) - 1 + (e1 + k))
          < 2 ^ (Z.pos (digits2_pos m2) + (e2 + k))) as Hpow.
  { rewrite (Z.pow_add_r 2 (Z.pos (digits2_pos m1) - 1) (e1 + k)),
            (Z.pow_add_r 2 (Z.pos (digits2_pos m2)) (e2 + k)) by lia.
    pose proof (Z.pow_pos_nonneg 2 (e1 + k) ltac:(lia) H1).
    pose proof (Z.pow_pos_nonneg 2 (e2 + k) ltac:(lia) H2).
    eapply Z.le_lt_trans; [apply Z.mul_le_mono_nonneg_r; [lia | exact Hlo1]|].
    eapply Z.le_lt_trans; [exact Hle|].
    apply Z.mul_lt_mono_pos_r; lia. }
  apply Z.pow_lt_mono_r_iff in Hpow; lia.
Qed.

Lemma canonical_exponent m e :
  canonical_mantissa prec emax m e = true →
  e = Z.max (Z.pos (digits2_pos m) + e - 53) (-1074).
Proof. unfold canonical_mantissa. rewrite fexp_eq. intros H%Z.eqb_eq. lia. Qed.

Lemma canonical_lt m1 e1 m2 e2 :
  canonical_mantissa prec emax m1 e1 = true →
  canonical_mantissa prec emax m2 e2 = true →
  e1 < e2 →
  Z.pos m1 * 2 ^ (e1 + 1074) < Z.pos m2 * 2 ^ (e2 + 1074).
Proof.
  intros H1%canonical_exponent H2%canonical_exponent Hlt.
  pose proof (digits2_bounds m1) as [_ Hhi1].
  pose proof (digits2_bounds m2) as [Hlo2 _].
  assert (Z.pos (digits2_pos m2) = 53) as Hd2 by lia.
  assert (Z.pos (digits2_pos m1) ≤ 53) as Hd1 by lia.
  rewrite Hd2 in Hlo2. 
  assert (Z.pos m1 < 2 ^ 53) as Hm1.
  { eapply Z.lt_le_trans; [exact Hhi1|]. apply Z.pow_le_mono_r; lia. }
  replace (e2 + 1074) with ((e2 - e1 - 1) + 1 + (e1 + 1074)) by lia.
  rewrite (Z.pow_add_r 2 (e2 - e1 - 1 + 1) (e1 + 1074)),
          (Z.pow_add_r 2 (e2 - e1 - 1) 1) by lia.
  pose proof (Z.pow_pos_nonneg 2 (e1 + 1074) ltac:(lia) ltac:(lia)).
  pose proof (Z.pow_pos_nonneg 2 (e2 - e1 - 1) ltac:(lia) ltac:(lia)).
  change (2 ^ 53) with 9007199254740992 in *.
  change (2 ^ (53 - 1)) with 4503599627370496 in *.
  change (2 ^ 1) with 2.
  set (A := 2 ^ (e1 + 1074)) in *. set (P := 2 ^ (e2 - e1 - 1)) in *.
  assert (Z.pos m1 * A < Z.pos m2 * 2 * A) by nia.
  assert (Z.pos m2 * 2 * A ≤ Z.pos m2 * (P * 2 * A)) by nia.
  lia.
Qed.

Lemma SFleb_scaled x y :
  valid_binary x = true → valid_binary y = true →
  nonneg_finite x → nonneg_finite y →
  SFleb x y = bool_decide (scaled x ≤ scaled y).
Proof.
  destruct x as [sx|sx| |[] mx ex], y as [sy|sy| |[] my ey]; try done;
    cbn [SpecFloat.valid_binary nonneg_finite scaled]; unfold bounded;
    rewrite ?andb_true_iff; intros Hx Hy _ _.
  - unfold SFleb, SFcompare. symmetry. apply bool_decide_eq_true.
    destruct Hy as [Hy _]. apply canonical_exponent in Hy.
    pose proof (Z.pow_pos_nonneg 2 (ey + 1074) ltac:(lia) ltac:(lia)). lia.
  - unfold SFleb, SFcompare. symmetry. apply bool_decide_eq_false.
    destruct Hx as [Hx _]. apply canonical_exponent in Hx.
    pose proof (Z.pow_pos_nonneg 2 (ex + 1074) ltac:(lia) ltac:(lia)). lia.
  - destruct Hx as [Hx _], Hy as [Hy _]. unfold SFleb, SFcompare.
    destruct (Z.compare_spec ex ey) as [->|Hlt|Hgt].
    + rewrite Pos.compare_cont_spec. cbn [Pos.switch_Eq].
      apply canonical_exponent in Hy.
      pose proof (Z.pow_pos_nonneg 2 (ey + 1074) ltac:(lia) ltac:(lia)).
      destruct (Pos.compare_spec mx my) as [->|?|?]; symmetry;
        [apply bool_decide_eq_true | apply bool_decide_eq_true
        | apply bool_decide_eq_false]; nia.
    + symmetry. apply bool_decide_eq_true.
      pose proof (canonical_lt _ _ _ _ Hx Hy Hlt). lia.
    + symmetry. apply bool_decide_eq_false.
      pose proof (canonical_lt _ _ _ _ Hy Hx Hgt). lia.
Qed.


(** *** Right shifts with round and sticky bits *)

Lemma iter_pos_nat {A} (f : A → A) (p : positive) (x : A) :
  SpecFloat.iter_pos f p x = @Nat.iter (Pos.to_nat p) A f x.
Proof.
  revert x. induction p as [p IH|p IH|]; intros x; cbn [SpecFloat.iter_pos].
  - rewrite !IH, Pos2Nat.inj_xI.
    replace (S (2 * Pos.to_nat p)) with (Pos.to_nat p + (Pos.to_nat p + 1))%nat by lia.
    rewrite !Nat.iter_add. reflexivity.
  - rewrite !IH, Pos2Nat.inj_xO.
    replace (2 * Pos.to_nat p)%nat with (Pos.to_nat p + Pos.to_nat p)%nat by lia.
    rewrite Nat.iter_add. reflexivity.
  - reflexivity.
Qed.

(** [r] is what [n] right shifts leave of the exact mantissa [M]: the
    quotient, and no round or sticky bit when nothing was shifted out. *)
Definition shifted (M : Z) (n : Z) (r : shr_record) : Prop :=
  shr_m r = M / 2 ^ n ∧ (M mod 2 ^ n = 0 → shr_r r = false ∧ shr_s r = false).

Lemma shr_1_nonneg m r s :
  0 ≤ m →
  shr_1 {| shr_m := m; shr_r := r; shr_s := s |}
  = {| shr_m := Z.div2 m; shr_r := Z.odd m; shr_s := r || s |}.
Proof. destruct m as [|[p|p|]|p]; by try lia. Qed.

Lemma shifted_step M n r : 0 ≤ M → 0 ≤ n → shifted M n r → shifted M (n + 1) (shr_1 r).
Proof.
  intros HM Hn [Hm Hexact]. destruct r as [m r s]. cbn [shr_m shr_r shr_s] in *.
  pose proof (Z.pow_pos_nonneg 2 n ltac:(lia) Hn) as Hpow.
  assert (0 ≤ m) by (subst m; apply Z.div_pos; lia).
  rewrite shr_1_nonneg by done. unfold shifted. cbn [shr_m shr_r shr_s].
  rewrite Z.pow_add_r by lia. change (2 ^ 1) with 2. split.
  - rewrite Z.div2_div, Hm. apply Z.div_div; lia.
  - rewrite Z.rem_mul_r by lia. intros Hrem.
    pose proof (Z.mod_pos_bound M (2 ^ n) Hpow).
    pose proof (Z.mod_pos_bound (M / 2 ^ n) 2 ltac:(lia)).
    assert (M mod 2 ^ n = 0) as Hlow by nia.
    assert ((M / 2 ^ n) mod 2 = 0) as Hbit by nia.
    destruct (Hexact Hlow) as [-> ->]. split; [|done].
    rewrite <- Hm, Zmod_odd in Hbit. by destruct (Z.odd m).
Qed.

Lemma shifted_iter M (n : nat) :
  0 ≤ M →
  shifted M (Z.of_nat n)
    (@Nat.iter n _ shr_1 {| shr_m := M; shr_r := false; shr_s := false |}).
Proof.
  intros HM. induction n as [|n IH].
  - split; [|done]. simpl. by rewrite Z.div_1_r.
  - rewrite Nat2Z.inj_succ, <- Z.add_1_r. cbn [Nat.iter].
    apply shifted_step; [done | lia | done].
Qed.

Lemma shr_exact M E k :
  0 ≤ M →
  ∃ r, shr {| shr_m := M; shr_r := false; shr_s := false |} E k
       = (r, E + Z.max k 0)
       ∧ shifted M (Z.max k 0) r.
Proof.
  intros HM. destruct k as [|p|p]; cbn [shr].
  - eexists. split; [by rewrite Z.add_0_r|]. split; [|done]. simpl. by rewrite Z.div_1_r.
  - eexists. split; [by rewrite Z.max_l by lia|].
    rewrite iter_pos_nat, Z.max_l, <- (positive_nat_Z p) by lia.
    by apply shifted_iter.
  - eexists. split; [by rewrite Z.add_0_r|]. split; [|done]. simpl. by rewrite Z.div_1_r.
Qed.

Lemma round_nearest_even_bounds r :
  let N := round_nearest_even (shr_m r) (loc_of_shr_record r) in
  shr_m r ≤ N ≤ shr_m r + 1 ∧ (shr_r r = false ∧ shr_s r = false → N = shr_m r).
Proof.
  destruct r as [m [] []]; cbn; destruct (Z.even m); split; try lia; by intros [? ?].
Qed.

(** *** Rounding never crosses a float

    The exact value [M * 2^E], wherever it comes from, rounds to a
    non-negative float that is at most any float [mB * 2^eB] above
    it. *)
Lemma binary_round_aux_upper (M : positive) (E : Z) (mB : positive) (eB : Z) :
  -2148 ≤ E →
  E ≤ fexp prec emax (Z.pos (digits2_pos M) + E) →
  bounded prec emax mB eB = true →
  Z.pos M * 2 ^ (E + 2148) ≤ Z.pos mB * 2 ^ (eB + 2148) →
  let r := binary_round_aux prec emax false (Z.pos M) E loc_Exact in
  nonneg_finite r ∧ scaled r ≤ Z.pos mB * 2 ^ (eB + 1074).
Proof.
  intros HE Hshift [HcanB HeB]%andb_true_iff Hle.
  apply canonical_exponent in HcanB as HeqB. apply Z.leb_le in HeB.
  change (emax - prec) with 971 in HeB.
  unfold binary_round_aux, shr_fexp. cbn [Zdigits2 shr_record_of_loc].
  rewrite fexp_eq in *.
  set (fe := Z.max (Z.pos (digits2_pos M) + E - 53) (-1074)) in *.
  (* the float above is a multiple of the unit of the rounding *)
  assert (fe ≤ eB) as HfeB.
  { pose proof (magnitude_le M mB E eB 2148 ltac:(lia) ltac:(lia) Hle). lia. }
  set (p := fe - E) in *.
  set (Y := Z.pos mB * 2 ^ (eB - fe)).
  pose proof (Z.pow_pos_nonneg 2 p ltac:(lia) ltac:(lia)) as Hp.
  pose proof (Z.pow_pos_nonneg 2 (eB - fe) ltac:(lia) ltac:(lia)) as HY.
  assert (Z.pos M ≤ Y * 2 ^ p) as HMY.
  { pose proof (Z.pow_pos_nonneg 2 (E + 2148) ltac:(lia) ltac:(lia)) as HK.
    replace (eB + 2148) with (eB - fe + p + (E + 2148)) in Hle by lia.
    rewrite (Z.pow_add_r 2 (eB - fe + p) (E + 2148)),
            (Z.pow_add_r 2 (eB - fe) p) in Hle by lia.
    unfold Y. apply (Z.mul_le_mono_pos_r _ _ (2 ^ (E + 2148)) HK). lia. }
  (* the first shift and the rounding *)
  destruct (shr_exact (Z.pos M) E p ltac:(lia)) as (r1 & -> & Hm1 & Hexact1).
  rewrite Z.max_l in * by lia.
  pose proof (round_nearest_even_bounds r1) as [HN Hsame]. cbn zeta in HN, Hsame.
  set (N := round_nearest_even (shr_m r1) (loc_of_shr_record r1)) in *.
  assert (0 ≤ shr_m r1) as Hm1pos by (rewrite Hm1; apply Z.div_pos; lia).
  assert (N ≤ Y) as HNY.
  { destruct (decide (Z.pos M mod 2 ^ p = 0)) as [H0|Hne].
    - rewrite (Hsame (Hexact1 H0)), Hm1.
      apply Z.div_le_upper_bound; lia.
    - assert (Z.pos M / 2 ^ p < Y); [|lia].
      apply Z.div_lt_upper_bound; [lia|].
      destruct (decide (Z.pos M = Y * 2 ^ p)) as [Heq|?]; [|lia].
      destruct Hne. rewrite Heq. apply Z_mod_mult. }
  replace (E + p) with fe by lia.
  assert (-1074 ≤ fe) as Hfe by lia.
  pose proof (Z.pow_pos_nonneg 2 (fe + 1074) ltac:(lia) ltac:(lia)) as Hunit.
  assert (N * 2 ^ (fe + 1074) ≤ Z.pos mB * 2 ^ (eB + 1074)) as HNB.
  { replace (eB + 1074) with (eB - fe + (fe + 1074)) by lia.
    rewrite (Z.pow_add_r 2 (eB - fe) (fe + 1074)) by lia. fold Y. nia. }
  (* the second shift only truncates *)
  rewrite !fexp_eq.
  set (k := Z.max (Zdigits2 N + fe - 53) (-1074) - fe).
  destruct (shr_exact N fe k ltac:(lia)) as (r2 & -> & Hm2 & _).
  assert (fe + Z.max k 0 ≤ eB) as He2.
  { destruct N as [|n|n]; [cbn [Zdigits2] in k; lia| |lia].
    cbn [Zdigits2] in k.
    pose proof (magnitude_le n mB fe eB 1074 ltac:(lia) ltac:(lia) HNB). lia. }
  pose proof (Z.pow_pos_nonneg 2 (Z.max k 0) ltac:(lia) ltac:(lia)) as Hk.
  assert (0 ≤ shr_m r2) as Hm2pos by (rewrite Hm2; apply Z.div_pos; lia).
  pose proof (Z.pow_pos_nonneg 2 (eB + 1074) ltac:(lia) ltac:(lia)) as HB.
  destruct (shr_m r2) as [|m2|m2] eqn:Hr2; [split; [done | cbn; lia] | | lia].
  rewrite (proj2 (Z.leb_le _ _)) by (change (emax - prec) with 971; lia).
  split; [done|]. cbn [scaled].
  replace (fe + Z.max k 0 + 1074) with (Z.max k 0 + (fe + 1074)) by lia.
  rewrite (Z.pow_add_r 2 (Z.max k 0) (fe + 1074)) by lia.
  pose proof (Z.mul_div_le N (2 ^ Z.max k 0) Hk) as Htrunc.
  rewrite <- Hm2 in Htrunc. nia.
Qed.


(** *** Products *)

Lemma digits2_mul_ge (m1 m2 : positive) :
  Z.pos (digits2_pos m1) + Z.pos (digits2_pos m2) - 1
  ≤ Z.pos (digits2_pos (m1 * m2)).
Proof.
  pose proof (digits2_bounds m1) as [Hlo1 _].
  pose proof (digits2_bounds m2) as [Hlo2 _].
  pose proof (digits2_bounds (m1 * m2)) as [_ Hhi].
  assert (2 ^ (Z.pos (digits2_pos m1) - 1 + (Z.pos (digits2_pos m2) - 1))
          < 2 ^ Z.pos (digits2_pos (m1 * m2))) as Hpow.
  { rewrite Z.pow_add_r by lia. rewrite Pos2Z.inj_mul in Hhi.
    pose proof (Z.pow_pos_nonneg 2 (Z.pos (digits2_pos m1) - 1) ltac:(lia) ltac:(lia)).
    pose proof (Z.pow_pos_nonneg 2 (Z.pos (digits2_pos m2) - 1) ltac:(lia) ltac:(lia)).
    nia. }
  apply Z.pow_lt_mono_r_iff in Hpow; lia.
Qed.

Lemma scaled_nonneg x : valid_binary x = true → 0 ≤ scaled x.
Proof.
  destruct x as [| | |[] m e]; cbn [scaled]; try done.
  intros [H%canonical_exponent _]%andb_true_iff.
  pose proof (Z.pow_pos_nonneg 2 (e + 1074) ltac:(lia) ltac:(lia)). lia.
Qed.

Lemma scaled_finite_pos m e :
  valid_binary (S754_finite false m e) = true → 0 < scaled (S754_finite false m e).
Proof.
  cbn [scaled]. intros [H%canonical_exponent _]%andb_true_iff.
  pose proof (Z.pow_pos_nonneg 2 (e + 1074) ltac:(lia) ltac:(lia)). lia.
Qed.

(** The product of two non-negative floats stays below any float that
    is above the exact product. *)
Lemma SF64mul_upper x y b :
  valid_binary x = true → valid_binary y = true → valid_binary b = true →
  nonneg_finite x → nonneg_finite y → nonneg_finite b →
  scaled x * scaled y ≤ scaled b * 2 ^ 1074 →
  nonneg_finite (SF64mul x y) ∧ scaled (SF64mul x y) ≤ scaled b.
Proof.
  intros Hx Hy Hb Nx Ny Nb Hle.
  pose proof (scaled_nonneg b Hb) as Hb0.
  destruct x as [sx|sx| |[] mx ex], y as [sy|sy| |[] my ey]; try done;
    try (cbn; split; [done | lia]).
  pose proof (scaled_finite_pos _ _ Hx) as Hxpos.
  pose proof (scaled_finite_pos _ _ Hy) as Hypos.
  destruct b as [sb|sb| |[] mb eb]; try done; [cbn [scaled] in *; nia|].
  cbn [SpecFloat.valid_binary] in Hx, Hy, Hb.
  apply andb_true_iff in Hx as Hx', Hy as Hy', Hb as Hb'.
  destruct Hx' as [Hcx%canonical_exponent _], Hy' as [Hcy%canonical_exponent _],
           Hb' as [Hcb%canonical_exponent _].
  pose proof (digits2_mul_ge mx my) as Hdig.
  pose proof (digits2_bounds mx) as [? _]. pose proof (digits2_bounds my) as [? _].
  cbn [SFmul xorb].
  apply binary_round_aux_upper; [lia | rewrite fexp_eq; lia | done |].
  cbn [scaled] in Hle. rewrite Pos2Z.inj_mul.
  replace (ex + ey + 2148) with ((ex + 1074) + (ey + 1074)) by lia.
  replace (eb + 2148) with ((eb + 1074) + 1074) by lia.
  rewrite (Z.pow_add_r 2 (ex + 1074) (ey + 1074)),
          (Z.pow_add_r 2 (eb + 1074) 1074) by lia.
  lia.
Qed.

End Binary64.

(** ** Rounding to one decimal keeps the order *)

Module PyFloatFacts.
Import Binary64 PyFloat.
Open Scope Z_scope.

Lemma round_half_even_mono P1 P2 D :
  0 < D → P1 ≤ P2 → round_half_even P1 D ≤ round_half_even P2 D.
Proof.
  intros HD Hle. unfold round_half_even.
  pose proof (Z.div_le_mono P1 P2 D HD Hle) as Hk.
  pose proof (Z.mod_pos_bound P1 D HD) as Hr1.
  pose proof (Z.mod_pos_bound P2 D HD) as Hr2.
  pose proof (Z.div_mod P1 D ltac:(lia)) as HP1.
  pose proof (Z.div_mod P2 D ltac:(lia)) as HP2.
  destruct (decide (P1 / D = P2 / D)) as [Heq|Hne].
  - rewrite Heq in *.
    destruct (Z.ltb_spec (2 * (P1 mod D)) D), (Z.ltb_spec D (2 * (P1 mod D))),
             (Z.ltb_spec (2 * (P2 mod D)) D), (Z.ltb_spec D (2 * (P2 mod D)));
      destruct (Z.even (P2 / D)); lia.
  - destruct (Z.ltb_spec (2 * (P1 mod D)) D), (Z.ltb_spec D (2 * (P1 mod D))),
             (Z.ltb_spec (2 * (P2 mod D)) D), (Z.ltb_spec D (2 * (P2 mod D)));
      destruct (Z.even (P1 / D)), (Z.even (P2 / D)); lia.
Qed.

Lemma round_half_even_exact k D : 0 < D → round_half_even (k * D) D = k.
Proof.
  intros HD. unfold round_half_even. rewrite Z.div_mul, Z.mod_mul by lia.
  destruct (Z.ltb_spec (2 * 0) D); lia.
Qed.

(** *** The floats [0.0, 0.1, ..., 100.0] *)

Definition tenth_float (n : nat) : float := SF2Prim (of_tenths false (Z.of_nat n)).

Definition tenth_floats : list float := tenth_float <$> seq 0 1001.

Fixpoint ascending (l : list float) : bool :=
  match l with
  | [] => true
  | x :: l' => (x <=? x)%float && forallb (PrimFloat.leb x) l' && ascending l'
  end.

Lemma ascending_lookup l i j x y :
  ascending l = true → (i ≤ j)%nat → l !! i = Some x → l !! j = Some y →
  (x <=? y)%float = true.
Proof.
  revert i j. induction l as [|a l IH]; intros i j Hasc Hij Hi Hj; [done|].
  cbn [ascending] in Hasc. apply andb_true_iff in Hasc as [Hasc Hrest].
  apply andb_true_iff in Hasc as [Hrefl Hall].
  destruct i as [|i], j as [|j]; simplify_eq/=; [done| |lia|].
  - rewrite forallb_forall in Hall. apply Hall.
    apply list_elem_of_In. by eapply list_elem_of_lookup_2.
  - apply (IH i j); [done | lia | done | done].
Qed.

Lemma tenth_floats_ascending : ascending tenth_floats = true.
Proof. vm_compute. reflexivity. Qed.

Lemma tenth_floats_in_range :
  forallb (λ x, (0 <=? x)%float && (x <=? 100)%float) tenth_floats = true.
Proof. vm_compute. reflexivity. Qed.

Lemma tenth_floats_lookup n :
  (n ≤ 1000)%nat → tenth_floats !! n = Some (tenth_float n).
Proof.
  intros Hn. unfold tenth_floats. rewrite list_lookup_fmap, lookup_seq_lt by lia.
  done.
Qed.

Lemma tenth_float_mono i j :
  (i ≤ j ≤ 1000)%nat → (tenth_float i <=? tenth_float j)%float = true.
Proof.
  intros Hij.
  apply (ascending_lookup tenth_floats i j);
    [apply tenth_floats_ascending | lia | apply tenth_floats_lookup; lia..].
Qed.

Lemma tenth_float_in_range n :
  (n ≤ 1000)%nat →
  (0 <=? tenth_float n)%float = true ∧ (tenth_float n <=? 100)%float = true.
Proof.
  intros Hn. pose proof tenth_floats_in_range as Hall.
  rewrite forallb_forall in Hall. apply andb_true_iff, Hall.
  apply list_elem_of_In. eapply list_elem_of_lookup_2.
  by apply tenth_floats_lookup.
Qed.

(** *** Floats between 0 and a bound *)

(** [x] is a non-negative finite float of value at most [hi * 2^-1074]. *)
Definition within (x : float) (hi : Z) : Prop :=
  nonneg_finite (Prim2SF x) ∧ scaled (Prim2SF x) ≤ hi.

Lemma scaled_one : scaled (Prim2SF 1) = 2 ^ 1074.
Proof. vm_compute. reflexivity. Qed.

Lemma scaled_hundred : scaled (Prim2SF 100) = 100 * 2 ^ 1074.
Proof. vm_compute. reflexivity. Qed.

Lemma scaled_0_95 : scaled (Prim2SF 0.95) ≤ 2 ^ 1074.
Proof. apply Z.leb_le. vm_compute. reflexivity. Qed.

Lemma scaled_0_9 : scaled (Prim2SF 0.9) ≤ 2 ^ 1074.
Proof. apply Z.leb_le. vm_compute. reflexivity. Qed.

Lemma within_unit s :
  (0 <=? s)%float = true → (s <=? 1)%float = true → within s (2 ^ 1074).
Proof.
  rewrite !leb_spec. intros H0 H1.
  assert (nonneg_finite (Prim2SF s)) as Hs.
  { change (Prim2SF 0) with (S754_zero false) in H0.
    change (Prim2SF 1) with (S754_finite false 4503599627370496 (-52)) in H1.
    by destruct (Prim2SF s) as [|[]| |[] ? ?]. }
  split; [done|].
  rewrite SFleb_scaled in H1 by (done || apply Prim2SF_valid).
  apply bool_decide_eq_true in H1. by rewrite scaled_one in H1.
Qed.

Lemma mul_within x c b :
  nonneg_finite (Prim2SF x) → nonneg_finite (Prim2SF c) → nonneg_finite (Prim2SF b) →
  scaled (Prim2SF x) * scaled (Prim2SF c) ≤ scaled (Prim2SF b) * 2 ^ 1074 →
  within (x * c) (scaled (Prim2SF b)).
Proof.
  intros Hx Hc Hb Hle. unfold within. rewrite mul_spec.
  apply SF64mul_upper; auto using Prim2SF_valid.
Qed.

Lemma zero_leb a y s :
  Prim2SF a = S754_zero s → (a <=? y)%float = (0 <=? y)%float.
Proof.
  intros Ha. rewrite !leb_spec, Ha.
  change (Prim2SF 0) with (S754_zero false). by destruct (Prim2SF y).
Qed.

Lemma leb_zero a s :
  nonneg_finite (Prim2SF a) → Prim2SF a = S754_zero s →
  (0 <=? a)%float = true ∧ (a <=? 100)%float = true.
Proof. intros _ Ha. rewrite !leb_spec, Ha. by destruct s. Qed.

(** A float between 0 and 100 rounds to one of the 1001 floats of the
    table, the one of its number of tenths. *)
Lemma round1_finite x m e :
  Prim2SF x = S754_finite false m e →
  scaled (Prim2SF x) ≤ 100 * 2 ^ 1074 →
  ∃ n, (n ≤ 1000)%nat
       ∧ Z.of_nat n = round_half_even (10 * scaled (Prim2SF x)) (2 ^ 1074)
       ∧ round1 x = tenth_float n.
Proof.
  intros Hx Hle. pose proof (scaled_nonneg _ (Prim2SF_valid x)) as Hpos.
  unfold round1. rewrite Hx in *. cbn [scaled] in *.
  assert (0 < 2 ^ 1074) as HD by (apply Z.pow_pos_nonneg; lia).
  pose proof (round_half_even_mono 0 (10 * (Z.pos m * 2 ^ (e + 1074)))
                (2 ^ 1074) HD ltac:(lia)) as Hlo.
  pose proof (round_half_even_mono (10 * (Z.pos m * 2 ^ (e + 1074)))
                (1000 * 2 ^ 1074) (2 ^ 1074) HD ltac:(lia)) as Hhi.
  rewrite round_half_even_exact in Hhi by done.
  pose proof (round_half_even_exact 0 (2 ^ 1074) HD) as Hzero.
  change (0 * 2 ^ 1074) with 0 in Hzero. rewrite Hzero in Hlo.
  unfold tenths. rewrite <- Z.mul_assoc.
  set (n := round_half_even _ _) in *.
  exists (Z.to_nat n). rewrite Z2Nat.id by lia.
  split_and!; [lia | done |]. unfold tenth_float. by rewrite Z2Nat.id by lia.
Qed.

Lemma round1_range x :
  within x (100 * 2 ^ 1074) →
  (0 <=? round1 x)%float = true ∧ (round1 x <=? 100)%float = true.
Proof.
  intros [Hx Hle]. destruct (Prim2SF x) as [s|s| |[] m e] eqn:Hsf; try done.
  - unfold round1. rewrite Hsf. by eapply leb_zero; [rewrite Hsf|].
  - rewrite <- Hsf in Hle.
    destruct (round1_finite x m e Hsf Hle) as (n & Hn & _ & ->).
    by apply tenth_float_in_range.
Qed.

Lemma round1_mono a x :
  within a (scaled (Prim2SF x)) → within x (100 * 2 ^ 1074) →
  (round1 a <=? round1 x)%float = true.
Proof.
  intros [Ha Hax] [Hx Hle].
  destruct (Prim2SF a) as [s|s| |[] ma ea] eqn:Hsa; try done.
  - unfold round1 at 1. rewrite Hsa. rewrite (zero_leb a _ s Hsa).
    by apply round1_range.
  - pose proof (scaled_finite_pos ma ea) as Hapos.
    rewrite <- Hsa in Hapos, Hax. specialize (Hapos (Prim2SF_valid a)).
    destruct (Prim2SF x) as [t|t| |[] mx ex] eqn:Hsx; try done;
      [cbn [scaled] in Hax; lia|].
    rewrite <- Hsx in Hle, Hax.
    destruct (round1_finite a ma ea Hsa ltac:(lia)) as (na & Hna & Hna' & ->).
    destruct (round1_finite x mx ex Hsx Hle) as (nx & Hnx & Hnx' & ->).
    apply tenth_float_mono. split; [|done].
    assert (0 < 2 ^ 1074) as HD by (apply Z.pow_pos_nonneg; lia).
    pose proof (round_half_even_mono (10 * scaled (Prim2SF a))
                  (10 * scaled (Prim2SF x)) (2 ^ 1074) HD ltac:(lia)).
    lia.
Qed.

End PyFloatFacts.

(** ** Further facts on the edit distance *)

Module LevenshteinFacts.
Import Levenshtein.
Section Facts.
Context {A : Type} `{EqDecision A}.

Lemma edits_zero (xs ys : list A) : edits xs ys 0 → xs = ys.
Proof.
  intros H. remember 0 as n eqn:Hn.
  induction H; try done. f_equal. by apply IHedits.
Qed.

Lemma edits_refl (xs : list A) : edits xs xs 0.
Proof. induction xs; by constructor. Qed.

Lemma levenshtein_zero_iff (xs ys : list A) : levenshtein xs ys = 0 ↔ xs = ys.
Proof.
  split.
  - intros H. apply edits_zero. rewrite <- H. apply levenshtein_edits.
  - intros <-. pose proof (levenshtein_least _ _ _ (edits_refl xs)). lia.
Qed.

Lemma edits_max (xs ys : list A) : edits xs ys (length xs `max` length ys).
Proof.
  revert ys. induction xs as [|x xs IH]; intros ys.
  - apply edits_from_nil.
  - destruct ys as [|y ys].
    + apply (edits_to_nil (x :: xs)).
    + simpl. apply edits_sub, IH.
Qed.

Lemma levenshtein_le_max (xs ys : list A) :
  levenshtein xs ys ≤ length xs `max` length ys.
Proof. apply levenshtein_least, edits_max. Qed.

Lemma edits_length (xs ys : list A) n :
  edits xs ys n → length xs ≤ length ys + n ∧ length ys ≤ length xs + n.
Proof. induction 1; simpl; lia. Qed.

Lemma levenshtein_ge_length_gap (xs ys : list A) :
  length xs - length ys ≤ levenshtein xs ys
  ∧ length ys - length xs ≤ levenshtein xs ys.
Proof. pose proof (edits_length _ _ _ (levenshtein_edits xs ys)). lia. Qed.

End Facts.
End LevenshteinFacts.

(** ** Sums, filters and quotients *)

Module ListFacts.

Lemma sum_list_zero (l : list nat) : sum_list l = 0 ↔ Forall (λ n, n = 0) l.
Proof.
  induction l as [|n l IH]; [by split; [constructor|]|].
  change (sum_list (n :: l)) with (n + sum_list l).
  rewrite Forall_cons, <- IH. lia.
Qed.

Lemma sum_list_fmap_le {A} (f g : A → nat) (l : list A) :
  Forall (λ x, f x ≤ g x) l → sum_list (f <$> l) ≤ sum_list (g <$> l).
Proof.
  induction 1 as [|x l Hx _ IH]; [done|]. cbn [fmap list_fmap].
  change (sum_list (?n :: ?l)) with (n + sum_list l). lia.
Qed.

Lemma sum_list_fmap_eq_iff {A} (f g : A → nat) (l : list A) :
  Forall (λ x, f x ≤ g x) l →
  sum_list (f <$> l) = sum_list (g <$> l) ↔ Forall (λ x, f x = g x) l.
Proof.
  induction 1 as [|x l Hx Hl IH]; [by split; [constructor|]|].
  cbn [fmap list_fmap]. change (sum_list (?n :: ?l)) with (n + sum_list l).
  pose proof (sum_list_fmap_le f g l Hl). rewrite Forall_cons, <- IH. lia.
Qed.

Lemma zip_take_min {A B} (a : list A) (b : list B) :
  zip (take (length a `min` length b) a) (take (length a `min` length b) b)
  = zip a b.
Proof.
  revert b. induction a as [|x a IH]; intros [|y b]; try done.
  simpl. by rewrite IH.
Qed.

Lemma length_filter_all {A} (P : A → Prop) `{!∀ x, Decision (P x)} (l : list A) :
  length (filter P l) = length l ↔ Forall P l.
Proof.
  induction l as [|x l IH]; [by split; [constructor|]|].
  rewrite filter_cons, Forall_cons. pose proof (length_filter P l).
  case_decide; simpl; rewrite <- IH; [split; [by split; [|lia] | lia] | split; [lia | tauto]].
Qed.

End ListFacts.

Module QFacts.
Import Evaluate CorpusMetrics.

Lemma Zpos_of_nat (n : nat) : 0 < n → Z.pos (Pos.of_nat n) = Z.of_nat n.
Proof. intros Hn. rewrite <- positive_nat_Z, Nat2Pos.id by lia. done. Qed.

Lemma pooled_ratio_zero num den :
  0 < den → (pooled_ratio num den == 0)%Q ↔ num = 0.
Proof.
  intros Hden. unfold pooled_ratio, quotient.
  rewrite bool_decide_eq_true_2 by done.
  unfold Qeq. simpl. lia.
Qed.

Lemma pooled_ratio_one num den :
  0 < den → (pooled_ratio num den == 1)%Q ↔ num = den.
Proof.
  intros Hden. unfold pooled_ratio, quotient.
  rewrite bool_decide_eq_true_2 by done.
  unfold Qeq. simpl. rewrite Zpos_of_nat by done. lia.
Qed.

Lemma pooled_ratio_unit num den :
  num ≤ den → (0 <= pooled_ratio num den)%Q ∧ (pooled_ratio num den <= 1)%Q.
Proof.
  intros Hle. unfold pooled_ratio, quotient. case_bool_decide as Hden.
  - unfold Qle. simpl. rewrite Zpos_of_nat by done. lia.
  - done.
Qed.

End QFacts.

(** ** Positional matches *)

Module CorpusFacts.
Import Evaluate Levenshtein CorpusMetrics.

(** The pairs the loops of the corpus functions run over. *)
Lemma words_pairs_case_insensitive hyps hyps' refs refs' :
  Forall2 (λ a b, PyStr.lower a = PyStr.lower b) hyps hyps' →
  Forall2 (λ a b, PyStr.lower a = PyStr.lower b) refs refs' →
  (λ pair, (words pair.1, words pair.2)) <$> zip hyps refs
  = (λ pair, (words pair.1, words pair.2)) <$> zip hyps' refs'.
Proof.
  intros Hh. revert refs refs'.
  induction Hh as [|h h' hyps hyps' Hh _ IH]; intros refs refs' Hr; [done|].
  destruct Hr as [|r r' refs refs' Hr Hrs]; [done|].
  cbn [zip zip_with fmap list_fmap fst snd]. unfold words at 1 2 3 4.
  rewrite Hh, Hr. f_equal. by apply IH.
Qed.

(** At most the shared positions can match. *)
Lemma positional_matches_le pred gt : positional_matches pred gt ≤ length gt.
Proof.
  unfold positional_matches.
  etrans; [apply length_filter|]. rewrite length_seq. lia.
Qed.

Lemma positional_matches_all pred gt :
  positional_matches pred gt = length gt ↔ gt `prefix_of` pred.
Proof.
  unfold positional_matches. split.
  - intros Hall.
    pose proof (length_filter (λ k, pred !! k = gt !! k)
                  (seq 0 (length pred `min` length gt))) as Hle.
    rewrite length_seq in Hle.
    assert (length pred `min` length gt = length gt) as Hmin by lia.
    rewrite Hmin in Hall.
    assert (Forall (λ k, pred !! k = gt !! k) (seq 0 (length gt))) as Hsame
      by (rewrite <- ListFacts.length_filter_all; by rewrite length_seq).
    exists (drop (length gt) pred). rewrite <- (take_drop (length gt) pred) at 1.
    f_equal. apply list_eq. intros i.
    destruct (decide (i < length gt)) as [Hi|Hi].
    + rewrite lookup_take_lt by done.
      rewrite Forall_forall in Hsame. apply Hsame, elem_of_seq. lia.
    + rewrite lookup_take_ge by lia. symmetry. apply lookup_ge_None. lia.
  - intros [rest ->]. rewrite length_app.
    replace ((length gt + length rest) `min` length gt) with (length gt) by lia.
    transitivity (length (seq 0 (length gt))); [|apply length_seq].
    rewrite ListFacts.length_filter_all. apply Forall_forall.
    intros i [_ Hi]%elem_of_seq. by rewrite lookup_app_l by lia.
Qed.

End CorpusFacts.

(** ** Further facts on the confusion counts *)

Module ErrorMiningFacts.
Import Evaluate ErrorMining.

(** The returned dict is the head of the ranking of the tally. *)
Lemma top_errors_of_tally predictions ground_truths :
  top_phoneme_errors (generate_error_analysis predictions ground_truths)
  = take 10 (sorted (λ x : string * nat, - Z.of_nat x.2)%Z
               (foldl bump [] (mismatch_keys predictions ground_truths))).
Proof.
  unfold generate_error_analysis. cbn [top_phoneme_errors].
  rewrite record_utterance_keys. fold (mismatch_keys predictions ground_truths).
  destruct (ranking_of_tally (mismatch_keys predictions ground_truths))
    as (Hnd & _ & _).
  apply dict_of_items. rewrite fmap_take.
  eapply sublist_NoDup; [done | apply sublist_take].
Qed.

Lemma bump_total d k : sum_list (bump d k).*2 = sum_list d.*2 + 1.
Proof.
  unfold bump. induction d as [|[k' v'] d IH]; [done|].
  cbn [dict_set dict_get]. case_bool_decide as Hk; cbn [fmap list_fmap snd].
  - change (sum_list (?n :: ?l)) with (n + sum_list l). lia.
  - change (sum_list (?n :: ?l)) with (n + sum_list l). rewrite IH. lia.
Qed.

Lemma tally_total keys : sum_list (foldl bump [] keys).*2 = length keys.
Proof.
  induction keys as [|k keys IH] using rev_ind; [done|].
  rewrite foldl_snoc, bump_total, IH, length_app. done.
Qed.

Lemma sum_list_take_le n (l : list nat) : sum_list (take n l) ≤ sum_list l.
Proof.
  revert n. induction l as [|x l IH]; intros [|n]; simpl; try lia.
  specialize (IH n). lia.
Qed.

Lemma filter_nil_iff {A} (P : A → Prop) `{!∀ x, Decision (P x)} (l : list A) :
  filter P l = [] ↔ Forall (λ x, ¬ P x) l.
Proof.
  induction l as [|x l IH]; [by split; [constructor|]|].
  rewrite filter_cons, Forall_cons, <- IH. case_decide; [|tauto].
  split; [done | tauto].
Qed.

Lemma utterance_keys_nil pred_phonemes gt_phonemes :
  utterance_keys pred_phonemes gt_phonemes = []
  ↔ ∀ i p g, pred_phonemes !! i = Some p → gt_phonemes !! i = Some g → p = g.
Proof.
  unfold utterance_keys. split.
  - intros Hnil%fmap_nil_inv i p g Hp Hg.
    rewrite filter_nil_iff, Forall_lookup in Hnil.
    specialize (Hnil i (p, g)). cbn [fst snd] in Hnil.
    destruct (decide (p = g)) as [|Hne]; [done|]. destruct Hnil; [|done].
    apply lookup_zip_with_Some. eauto.
  - intros Hagree.
    assert (filter (λ pg : string * string, pg.1 ≠ pg.2)
                   (zip pred_phonemes gt_phonemes) = []) as ->; [|done].
    apply filter_nil_iff, Forall_lookup. intros i [p g] Hpg. cbn [fst snd].
    apply lookup_zip_with_Some in Hpg as (p' & g' & [= <- <-] & Hp & Hg).
    intros Hne. apply Hne. by eapply Hagree.
Qed.

Lemma mismatch_keys_nil predictions ground_truths :
  mismatch_keys predictions ground_truths = []
  ↔ Forall (λ pair, ∀ i p g,
               phonemes_of pair.1 !! i = Some p →
               phonemes_of pair.2 !! i = Some g → p = g)
           (zip predictions ground_truths).
Proof.
  unfold mismatch_keys.
  induction (zip predictions ground_truths) as [|pair pairs IH];
    [by split; [constructor|]|].
  cbn [fmap list_fmap mjoin list_join]. rewrite Forall_cons, <- IH.
  rewrite <- utterance_keys_nil. split.
  - intros [Hhere Hrest]%app_eq_nil. split; [exact Hhere | exact Hrest].
  - intros [-> Hrest]. exact Hrest.
Qed.

Lemma tally_nil keys : foldl bump [] keys = [] ↔ keys = [].
Proof.
  split; [|by intros ->]. intros Hnil.
  destruct (tally_invariant keys) as (_ & Hdom & _). cbn zeta in Hdom.
  rewrite Hnil in Hdom. destruct keys as [|k keys]; [done|].
  assert (k ∈ ([] : list (string * nat)).*1) as Hin by (apply Hdom; by left).
  by apply elem_of_nil in Hin.
Qed.

End ErrorMiningFacts.

(** ** Words and whitespace *)

Module SplitFacts.
Import PyStr.

(** A text of whitespace only (the empty text included). *)
Fixpoint blank (s : string) : bool :=
  match s with
  | EmptyString => true
  | String c s' => is_space c && blank s'
  end.

Lemma split_from_nil cur s :
  split_from cur s = [] ↔ cur = None ∧ blank s = true.
Proof.
  revert cur. induction s as [|c s IH]; intros cur; cbn [split_from blank].
  - destruct cur; split; (done || by intros [? ?]).
  - destruct (is_space c); cbn [andb].
    + destruct cur as [w|]; [split; (done || by intros [? ?])|].
      rewrite IH. split; by intros [_ ?].
    + rewrite IH. split; by intros [? ?].
Qed.

Lemma split_nil s : split s = [] ↔ blank s = true.
Proof. unfold split. rewrite split_from_nil. split; [by intros [_ ?] | done]. Qed.

Lemma split_from_app_space cur a c b :
  is_space c = true →
  split_from cur (a +:+ String c b) = split_from cur a ++ split b.
Proof.
  intros Hc. revert cur. induction a as [|x a IH]; intros cur.
  - change (EmptyString +:+ String c b) with (String c b).
    cbn [split_from]. rewrite Hc. by destruct cur.
  - change (String x a +:+ String c b) with (String x (a +:+ String c b)).
    cbn [split_from]. destruct (is_space x).
    + destruct cur; by rewrite IH.
    + by rewrite IH.
Qed.

Lemma split_app_space a c b :
  is_space c = true → split (a +:+ String c b) = split a ++ split b.
Proof. apply split_from_app_space. Qed.

Lemma is_space_lower_char c : is_space (lower_char c) = is_space c.
Proof. by destruct c as [[] [] [] [] [] [] [] []]. Qed.

Lemma blank_lower s : blank (lower s) = blank s.
Proof.
  induction s as [|c s IH]; [done|]. cbn [lower blank].
  by rewrite is_space_lower_char, IH.
Qed.

Lemma words_nil s : CorpusMetrics.words s = [] ↔ blank s = true.
Proof. unfold CorpusMetrics.words. by rewrite split_nil, blank_lower. Qed.

End SplitFacts.

(** ** The ends of a stripped string *)

Module PyStr2Facts.
Import PyStr PyStr2.

(** The first and the last character of a string, if any. *)
Definition first_char (s : string) : option ascii :=
  match s with EmptyString => None | String c _ => Some c end.

Fixpoint last_char (s : string) : option ascii :=
  match s with
  | EmptyString => None
  | String c EmptyString => Some c
  | String _ s' => last_char s'
  end.

Lemma last_char_None s : last_char s = None → s = EmptyString.
Proof.
  induction s as [|a s IH]; [done|]. cbn [last_char].
  destruct s as [|b s]; [done|]. intros H. by specialize (IH H).
Qed.

Lemma lstrip_first s c : first_char (lstrip s) = Some c → is_space c = false.
Proof.
  induction s as [|a s IH]; [done|]. cbn [lstrip].
  destruct (is_space a) eqn:Ha; [done|]. by intros [= <-].
Qed.

Lemma rstrip_last s c : last_char (rstrip s) = Some c → is_space c = false.
Proof.
  induction s as [|a s IH]; [done|]. cbn [rstrip].
  destruct (rstrip s) as [|b r] eqn:Hr.
  - destruct (is_space a) eqn:Ha; [done|]. by intros [= <-].
  - cbn [last_char]. exact IH.
Qed.

Lemma rstrip_first s c :
  first_char s = Some c → is_space c = false → first_char (rstrip s) = Some c.
Proof.
  destruct s as [|a s]; [done|]. intros [= ->] Hc. cbn [rstrip].
  destruct (rstrip s); [by rewrite Hc | done].
Qed.

Lemma strip_ends s :
  match first_char (strip s), last_char (strip s) with
  | None, None => strip s = EmptyString
  | Some a, Some b => is_space a = false ∧ is_space b = false
  | _, _ => False
  end.
Proof.
  unfold strip. destruct (first_char (lstrip s)) as [a|] eqn:Hfirst.
  - pose proof (lstrip_first _ _ Hfirst) as Ha.
    rewrite (rstrip_first _ _ Hfirst Ha).
    destruct (last_char (rstrip (lstrip s))) as [b|] eqn:Hlast.
    + split; [done | by eapply rstrip_last].
    + pose proof (rstrip_first _ _ Hfirst Ha) as Hr.
      by rewrite (last_char_None _ Hlast) in Hr.
  - destruct (lstrip s); done.
Qed.

End PyStr2Facts.

(** ** Rounding never crosses a float, from below *)

Module Binary64Lower.
Import Binary64.
Open Scope Z_scope.

Lemma shr_1_m r : 0 ≤ shr_m r → shr_m (shr_1 r) = shr_m r / 2.
Proof.
  destruct r as [m r s]. cbn [shr_m]. intros Hm.
  rewrite shr_1_nonneg by done. cbn [shr_m]. apply Z.div2_div.
Qed.

Lemma shr_iter_m (n : nat) r :
  0 ≤ shr_m r → shr_m (@Nat.iter n _ shr_1 r) = shr_m r / 2 ^ Z.of_nat n.
Proof.
  intros Hm. induction n as [|n IH].
  - simpl. by rewrite Z.div_1_r.
  - change (@Nat.iter (S n) _ shr_1 r) with (shr_1 (@Nat.iter n _ shr_1 r)).
    rewrite shr_1_m, IH.
    + rewrite Nat2Z.inj_succ, Z.pow_succ_r by lia.
      rewrite Z.div_div by lia. f_equal. lia.
    + rewrite IH. apply Z.div_pos; lia.
Qed.

Lemma shr_m_div r E k :
  0 ≤ shr_m r →
  shr_m (shr r E k).1 = shr_m r / 2 ^ Z.max k 0 ∧ (shr r E k).2 = E + Z.max k 0.
Proof.
  intros Hm. destruct k as [|p|p]; cbn [shr fst snd].
  - by rewrite Z.div_1_r, Z.add_0_r.
  - rewrite iter_pos_nat, shr_iter_m, positive_nat_Z, Z.max_l by lia. done.
  - by rewrite Z.div_1_r, Z.add_0_r.
Qed.

Lemma shr_record_of_loc_m m l : shr_m (shr_record_of_loc m l) = m.
Proof. by destruct l as [|[]]. Qed.

Lemma bounded_mantissa mB eB :
  bounded prec emax mB eB = true → Z.pos mB < 2 ^ 53 ∧ -1074 ≤ eB.
Proof.
  intros [Hcan%canonical_exponent _]%andb_true_iff.
  pose proof (digits2_bounds mB) as [_ Hhi]. split; [|lia].
  eapply Z.lt_le_trans; [exact Hhi|]. apply Z.pow_le_mono_r; lia.
Qed.

(** Cutting [num / den] down to a multiple of [2^g] stays above every
    float below it, when the grid is fine enough for the float ([g] at
    most its exponent) or the quotient keeps 53 digits. *)
Lemma grid_floor_lower (mB : positive) (eB num den g K : Z) :
  bounded prec emax mB eB = true →
  0 < den → 0 ≤ g + K → 0 ≤ eB + K →
  Z.pos mB * 2 ^ (eB + K) * den ≤ num →
  g ≤ eB ∨ 2 ^ 52 ≤ num / (den * 2 ^ (g + K)) →
  Z.pos mB * 2 ^ (eB + K) ≤ num / (den * 2 ^ (g + K)) * 2 ^ (g + K).
Proof.
  intros HB Hden Hg HeB Hle Hcase.
  pose proof (Z.pow_pos_nonneg 2 (g + K) ltac:(lia) Hg) as Hgrid.
  set (q := num / (den * 2 ^ (g + K))) in *.
  destruct (decide (g ≤ eB)) as [Hfine|Hcoarse].
  - replace (eB + K) with (eB - g + (g + K)) in * by lia.
    rewrite (Z.pow_add_r 2 (eB - g) (g + K)) in * by lia.
    pose proof (Z.pow_pos_nonneg 2 (eB - g) ltac:(lia) ltac:(lia)).
    assert (Z.pos mB * 2 ^ (eB - g) ≤ q) as Hq.
    { apply Z.div_le_lower_bound; [lia|]. lia. }
    rewrite Z.mul_assoc. apply Z.mul_le_mono_nonneg_r; lia.
  - destruct Hcase as [?|Hq]; [lia|].
    destruct (bounded_mantissa _ _ HB) as [HmB _].
    assert (2 ^ (eB + K) * 2 ≤ 2 ^ (g + K)) as Hpow.
    { replace (g + K) with (eB + K + 1 + (g - eB - 1)) by lia.
      rewrite (Z.pow_add_r 2 (eB + K + 1) (g - eB - 1)),
              (Z.pow_add_r 2 (eB + K) 1) by lia.
      change (2 ^ 1) with 2.
      pose proof (Z.pow_pos_nonneg 2 (g - eB - 1) ltac:(lia) ltac:(lia)).
      pose proof (Z.pow_pos_nonneg 2 (eB + K) ltac:(lia) ltac:(lia)). nia. }
    pose proof (Z.pow_pos_nonneg 2 (eB + K) ltac:(lia) ltac:(lia)).
    change (2 ^ 53) with (2 ^ 52 * 2) in HmB.
    assert (Z.pos mB * 2 ^ (eB + K) ≤ 2 ^ 52 * (2 ^ (eB + K) * 2)) by nia.
    assert (2 ^ 52 * (2 ^ (eB + K) * 2) ≤ 2 ^ 52 * 2 ^ (g + K))
      by (apply Z.mul_le_mono_nonneg_l; lia).
    assert (2 ^ 52 * 2 ^ (g + K) ≤ q * 2 ^ (g + K))
      by (apply Z.mul_le_mono_nonneg_r; lia).
    lia.
Qed.

(** One alignment of [M * 2^E] to its canonical exponent. *)
Lemma shr_fexp_lower (M E : Z) (l : location) (mB : positive) (eB K : Z) :
  bounded prec emax mB eB = true →
  0 ≤ M → 0 ≤ E + K → 1074 ≤ K →
  Z.pos mB * 2 ^ (eB + K) ≤ M * 2 ^ (E + K) →
  let mrs := (shr_fexp prec emax M E l).1 in
  let e' := (shr_fexp prec emax M E l).2 in
  0 ≤ shr_m mrs
  ∧ e' = Z.max E (fexp prec emax (Zdigits2 M + E))
  ∧ Z.pos mB * 2 ^ (eB + K) ≤ shr_m mrs * 2 ^ (e' + K).
Proof.
  intros HB HM HE HK Hle. cbn zeta. unfold shr_fexp.
  pose proof (fexp_eq (Zdigits2 M + E)) as Hfe.
  set (fe := fexp prec emax (Zdigits2 M + E)) in *. clearbody fe.
  destruct (shr_m_div (shr_record_of_loc M l) E (fe - E)) as [Hm He];
    [by rewrite shr_record_of_loc_m|].
  rewrite Hm, He, shr_record_of_loc_m.
  split; [apply Z.div_pos; [lia | apply Z.pow_pos_nonneg; lia]|].
  split; [lia|].
  destruct (bounded_mantissa _ _ HB) as [HmB HeB].
  destruct (decide (fe ≤ E)) as [Hnone|Hcut].
  - rewrite Z.max_r by lia. change (2 ^ 0) with 1.
    by rewrite Z.div_1_r, Z.add_0_r.
  - rewrite Z.max_l by lia. replace (E + (fe - E)) with fe by lia.
    pose proof (Z.pow_pos_nonneg 2 (E + K) ltac:(lia) ltac:(lia)) as HEK.
    pose proof (Z.pow_pos_nonneg 2 (fe - E) ltac:(lia) ltac:(lia)) as Hp.
    assert (M * 2 ^ (E + K) / (1 * 2 ^ (fe + K)) = M / 2 ^ (fe - E)) as Hq.
    { replace (fe + K) with (fe - E + (E + K)) by lia.
      rewrite (Z.pow_add_r 2 (fe - E) (E + K)), Z.mul_1_l by lia.
      rewrite Z.div_mul_cancel_r by lia. done. }
    rewrite <- Hq.
    apply grid_floor_lower; [done | lia | lia | lia | lia |].
    rewrite Hq.
    destruct (decide (Zdigits2 M + E - 53 ≤ -1074)) as [Hsub|Hnorm]; [left; lia|].
    right. destruct M as [|m|m]; [cbn [Zdigits2] in *; lia | | lia].
    cbn [Zdigits2] in *. pose proof (digits2_bounds m) as [Hlo _].
    apply Z.div_le_lower_bound; [lia|].
    replace (Z.pos (digits2_pos m) - 1) with (fe - E + 52) in Hlo by lia.
    rewrite (Z.pow_add_r 2 (fe - E) 52) in Hlo by lia. lia.
Qed.

(** Rounding [M * 2^E], whatever lies beyond [M], gives an infinity or
    a float that is at least any float [mB * 2^eB] below it. *)
Lemma binary_round_aux_lower (M E : Z) (l : location) (mB : positive) (eB : Z) :
  bounded prec emax mB eB = true →
  0 ≤ M → -2148 ≤ E →
  Z.pos mB * 2 ^ (eB + 2148) ≤ M * 2 ^ (E + 2148) →
  let r := binary_round_aux prec emax false M E l in
  r = S754_infinity false
  ∨ (∃ m e, r = S754_finite false m e ∧ Z.pos mB * 2 ^ (eB + 1074) ≤ scaled r).
Proof.
  intros HB HM HE Hle. cbn zeta. unfold binary_round_aux.
  destruct (bounded_mantissa _ _ HB) as [HmB HeB].
  pose proof (shr_fexp_lower M E l mB eB 2148 HB HM ltac:(lia) ltac:(lia) Hle)
    as (Hm1 & He1 & Hle1).
  destruct (shr_fexp prec emax M E l) as [mrs1 e1]. cbn [fst snd] in *.
  pose proof (round_nearest_even_bounds mrs1) as [[HN _] _].
  set (N := round_nearest_even (shr_m mrs1) (loc_of_shr_record mrs1)) in *.
  assert (-1074 ≤ e1) as He1lo by (rewrite He1, fexp_eq; lia).
  pose proof (Z.pow_pos_nonneg 2 (e1 + 2148) ltac:(lia) ltac:(lia)) as Hp1.
  assert (Z.pos mB * 2 ^ (eB + 2148) ≤ N * 2 ^ (e1 + 2148)) as HleN by nia.
  pose proof (shr_fexp_lower N e1 loc_Exact mB eB 2148 HB ltac:(lia) ltac:(lia)
                ltac:(lia) HleN) as (Hm2 & He2 & Hle2).
  destruct (shr_fexp prec emax N e1 loc_Exact) as [mrs2 e2]. cbn [fst snd] in *.
  assert (-1074 ≤ e2) as He2lo by lia.
  pose proof (Z.pow_pos_nonneg 2 (eB + 2148) ltac:(lia) ltac:(lia)) as HpB.
  pose proof (Z.pow_pos_nonneg 2 (e2 + 2148) ltac:(lia) ltac:(lia)) as Hp2.
  destruct (shr_m mrs2) as [|m2|m2] eqn:Hr2; [lia| |lia].
  destruct (e2 <=? emax - prec); [right|by left].
  exists m2, e2. split; [done|]. cbn [scaled].
  replace (eB + 2148) with (eB + 1074 + 1074) in Hle2 by lia.
  replace (e2 + 2148) with (e2 + 1074 + 1074) in Hle2 by lia.
  rewrite (Z.pow_add_r 2 (eB + 1074) 1074),
          (Z.pow_add_r 2 (e2 + 1074) 1074) in Hle2 by lia.
  pose proof (Z.pow_pos_nonneg 2 1074 ltac:(lia) ltac:(lia)).
  rewrite !Z.mul_assoc in Hle2.
  by apply Z.mul_le_mono_pos_r in Hle2.
Qed.

(** The product of two positive floats is at least any float below the
    exact product. *)
Lemma SF64mul_lower mx ex my ey mB eB :
  bounded prec emax mx ex = true → bounded prec emax my ey = true →
  bounded prec emax mB eB = true →
  Z.pos mB * 2 ^ (eB + 1074) * 2 ^ 1074
  ≤ Z.pos mx * 2 ^ (ex + 1074) * (Z.pos my * 2 ^ (ey + 1074)) →
  let r := SF64mul (S754_finite false mx ex) (S754_finite false my ey) in
  r = S754_infinity false
  ∨ (∃ m e, r = S754_finite false m e ∧ Z.pos mB * 2 ^ (eB + 1074) ≤ scaled r).
Proof.
  intros Hx Hy HB Hle. cbn zeta. cbn [SFmul xorb].
  destruct (bounded_mantissa _ _ Hx) as [_ Hex].
  destruct (bounded_mantissa _ _ Hy) as [_ Hey].
  destruct (bounded_mantissa _ _ HB) as [_ HeB].
  apply binary_round_aux_lower; [done | lia | lia |].
  rewrite Pos2Z.inj_mul.
  replace (ex + ey + 2148) with ((ex + 1074) + (ey + 1074)) by lia.
  replace (eB + 2148) with ((eB + 1074) + 1074) by lia.
  rewrite (Z.pow_add_r 2 (ex + 1074) (ey + 1074)),
          (Z.pow_add_r 2 (eB + 1074) 1074) by lia.
  lia.
Qed.

End Binary64Lower.

(** ** The suggestions of the service on the scores it computes *)

Module ScoreFacts.
Import Binary64 Binary64Lower PyFloat PyFloatFacts.
Open Scope Z_scope.

Lemma round_half_even_reaches P D k :
  0 < D → k ≤ round_half_even P D → (2 * k - 1) * D ≤ 2 * P.
Proof.
  intros HD. unfold round_half_even.
  pose proof (Z.mod_pos_bound P D HD) as Hr.
  pose proof (Z.div_mod P D ltac:(lia)) as HP.
  destruct (Z.ltb_spec (2 * (P mod D)) D), (Z.ltb_spec D (2 * (P mod D)));
    destruct (Z.even (P / D)); nia.
Qed.

Lemma round_half_even_from P D k :
  0 < D → k * D ≤ P → k ≤ round_half_even P D.
Proof.
  intros HD Hle. rewrite <- (round_half_even_exact k D HD).
  by apply round_half_even_mono.
Qed.

Lemma tenth_floats_below_70 :
  forallb (λ x, (x <? 70)%float) (take 700 tenth_floats) = true.
Proof. vm_compute. reflexivity. Qed.

Lemma tenth_floats_from_60 :
  forallb (λ x, negb (x <? 60)%float) (drop 600 tenth_floats) = true.
Proof. vm_compute. reflexivity. Qed.

Lemma tenth_float_below_70 n : (n < 700)%nat → (tenth_float n <? 70)%float = true.
Proof.
  intros Hn. pose proof tenth_floats_below_70 as Hall.
  rewrite forallb_forall in Hall. apply Hall.
  apply list_elem_of_In. apply (list_elem_of_lookup_2 _ n).
  rewrite lookup_take_lt by done. apply tenth_floats_lookup. lia.
Qed.

Lemma tenth_float_from_60 n :
  (600 ≤ n ≤ 1000)%nat → (tenth_float n <? 60)%float = false.
Proof.
  intros Hn. pose proof tenth_floats_from_60 as Hall.
  rewrite forallb_forall in Hall. apply negb_true_iff, Hall.
  apply list_elem_of_In. apply (list_elem_of_lookup_2 _ (n - 600)).
  rewrite lookup_drop. replace (600 + (n - 600))%nat with n by lia.
  apply tenth_floats_lookup. lia.
Qed.

Lemma scaled_0_9_lower : 9 * 2 ^ 1074 ≤ 10 * scaled (Prim2SF 0.9).
Proof. apply Z.leb_le. vm_compute. reflexivity. Qed.

Lemma prim_0_9 : Prim2SF 0.9 = S754_finite false 8106479329266893 (-53).
Proof. reflexivity. Qed.

Lemma prim_62 : Prim2SF 62 = S754_finite false 8725724278030336 (-47).
Proof. reflexivity. Qed.

Lemma scaled_62 : scaled (Prim2SF 62) = 62 * 2 ^ 1074.
Proof. vm_compute. reflexivity. Qed.

(** A value between 0 and 100 that rounds to 70 or more keeps, times
    0.9, a rounded value of 60 or more. *)
Lemma round1_0_9_of_70 x :
  within x (100 * 2 ^ 1074) →
  (round1 x <? 70)%float = false → (round1 (x * 0.9) <? 60)%float = false.
Proof.
  intros [Hx Hle] H70.
  assert (0 < 2 ^ 1074) as HU by (apply Z.pow_pos_nonneg; lia).
  destruct (Prim2SF x) as [s|s| |[] m e] eqn:Hsx; try done.
  { unfold round1 in H70. rewrite Hsx in H70.
    rewrite ltb_spec, Hsx in H70. by destruct s. }
  rewrite <- Hsx in Hle.
  destruct (round1_finite x m e Hsx Hle) as (n & Hn & Hn' & Hrx).
  rewrite Hrx in H70.
  assert (700 ≤ n)%nat as Hn70.
  { destruct (decide (n < 700)%nat) as [Hlt|]; [|lia].
    by rewrite (tenth_float_below_70 n Hlt) in H70. }
  pose proof (round_half_even_reaches (10 * scaled (Prim2SF x)) (2 ^ 1074) 700 HU
                ltac:(lia)) as Hreach.
  (* the product *)
  pose proof (Prim2SF_valid x) as Hvx. rewrite Hsx in Hvx. cbn in Hvx.
  pose proof (Prim2SF_valid 0.9) as Hv9. rewrite prim_0_9 in Hv9. cbn in Hv9.
  pose proof (Prim2SF_valid 62) as Hv62. rewrite prim_62 in Hv62. cbn in Hv62.
  pose proof scaled_0_9_lower as H9. pose proof scaled_62 as H62.
  pose proof scaled_0_9 as H9hi.
  rewrite prim_0_9 in H9, H9hi. rewrite prim_62 in H62. rewrite Hsx in Hreach, Hle.
  cbn [scaled] in H9, H9hi, H62, Hreach, Hle.
  assert (within (x * 0.9) (scaled (Prim2SF x))) as [Hy Hyle].
  { apply mul_within; [by rewrite Hsx | done | by rewrite Hsx |].
    rewrite Hsx, prim_0_9. cbn [scaled].
    apply Z.mul_le_mono_nonneg_l; lia. }
  rewrite Hsx in Hyle. cbn [scaled] in Hyle.
  pose proof (SF64mul_lower m e 8106479329266893 (-53) 8725724278030336 (-47)
                Hvx Hv9 Hv62) as Hlow.
  rewrite mul_spec, Hsx, prim_0_9 in Hy, Hyle.
  set (sx := Z.pos m * 2 ^ (e + 1074)) in *.
  set (s9 := 8106479329266893 * 2 ^ (-53 + 1074)) in *.
  set (U := 2 ^ 1074) in *.
  destruct Hlow as [Hinf|(my & ey & Hfin & Hlow)].
  { rewrite H62.
    assert (1399 * U * (9 * U) ≤ 20 * sx * (10 * s9))
      by (apply Z.mul_le_mono_nonneg; lia).
    nia. }
  { by rewrite Hinf in Hy. }
  assert (Prim2SF (x * 0.9) = S754_finite false my ey) as Hsy
    by (by rewrite mul_spec, Hsx, prim_0_9).
  rewrite Hfin in Hyle, Hlow. rewrite H62 in Hlow.
  destruct (round1_finite (x * 0.9) my ey Hsy) as (ny & Hny & Hny' & ->).
  { rewrite Hsy. lia. }
  apply tenth_float_from_60. split; [|done].
  rewrite Hsy in Hny'. fold U in Hny'.
  pose proof (round_half_even_from (10 * scaled (S754_finite false my ey)) U 620 HU
                ltac:(lia)).
  lia.
Qed.

End ScoreFacts.

(** ** Signs and ranges of the GOP metrics *)

Module GopRanges.
Import Evaluate Binary64 Binary64Lower.
Open Scope float_scope.

(** A float that is not below zero: [+0], a positive float, [+inf],
    or NaN. *)
Definition not_negative (x : spec_float) : Prop :=
  match x with
  | S754_zero false | S754_infinity false | S754_finite false _ _ | S754_nan => True
  | _ => False
  end.

Lemma binary_round_aux_sign M E l :
  not_negative (binary_round_aux prec emax false M E l).
Proof.
  unfold binary_round_aux.
  destruct (shr_fexp prec emax M E l) as [mrs1 e1].
  destruct (shr_fexp prec emax _ e1 loc_Exact) as [mrs2 e2].
  destruct (shr_m mrs2); [done | by destruct (e2 <=? emax - prec)%Z | done].
Qed.

Lemma binary_normalize_sign (M E : Z) :
  (0 ≤ M)%Z → not_negative (binary_normalize prec emax M E false).
Proof.
  destruct M as [|m|m]; [done | | lia]. intros _.
  unfold binary_normalize, binary_round.
  destruct (shl_align m E _) as [mz ez]. apply binary_round_aux_sign.
Qed.

Lemma of_nat_sign n : not_negative (Prim2SF (Np.of_nat n)).
Proof.
  unfold Np.of_nat, Np.of_int. rewrite of_uint63_spec.
  apply binary_normalize_sign. apply Uint63.to_Z_bounded.
Qed.

Lemma add_sign x y :
  not_negative (Prim2SF x) → not_negative (Prim2SF y) →
  not_negative (Prim2SF (x + y)).
Proof.
  rewrite add_spec.
  destruct (Prim2SF x) as [[]|[]| |[] mx ex], (Prim2SF y) as [[]|[]| |[] my ey];
    try done.
  intros _ _. unfold SF64add, SFadd. cbn [cond_Zopp]. apply binary_normalize_sign.
  apply Z.add_nonneg_nonneg; apply Pos2Z.is_nonneg.
Qed.

Lemma sum_sign (a : list float) :
  Forall (λ x, not_negative (Prim2SF x)) a → not_negative (Prim2SF (Np.sum a)).
Proof.
  unfold Np.sum. assert (not_negative (Prim2SF 0)) as H0 by done.
  revert H0. generalize 0. induction a as [|x a IH]; intros acc Hacc Ha; [done|].
  apply Forall_cons in Ha as [Hx Ha]. cbn [foldl]. apply IH; [|done].
  by apply add_sign.
Qed.

Lemma div_sign x y :
  not_negative (Prim2SF x) → not_negative (Prim2SF y) →
  not_negative (Prim2SF (x / y)).
Proof.
  rewrite div_spec.
  destruct (Prim2SF x) as [[]|[]| |[] mx ex], (Prim2SF y) as [[]|[]| |[] my ey];
    try done.
  intros _ _. unfold SF64div, SFdiv. cbn [xorb].
  destruct (SFdiv_core_binary prec emax (Z.pos mx) ex (Z.pos my) ey) as [[q e] l].
  apply binary_round_aux_sign.
Qed.

Lemma mean_sign (a : list float) :
  Forall (λ x, not_negative (Prim2SF x)) a → not_negative (Prim2SF (Np.mean a)).
Proof. intros Ha. apply div_sign; [by apply sum_sign | apply of_nat_sign]. Qed.

Lemma abs_sign x : not_negative (Prim2SF (abs x)).
Proof. rewrite abs_spec. by destruct (Prim2SF x) as [[]|[]| |[] ? ?]. Qed.

Lemma square_sign x : not_negative (Prim2SF (x * x)).
Proof.
  rewrite mul_spec. destruct (Prim2SF x) as [[]|[]| |[] m e]; try done;
    unfold SF64mul, SFmul; cbn [xorb]; apply binary_round_aux_sign.
Qed.

Lemma sqrt_sign x : not_negative (Prim2SF x) → not_negative (Prim2SF (sqrt x)).
Proof.
  rewrite sqrt_spec. destruct (Prim2SF x) as [[]|[]| |[] m e]; try done.
  intros _. unfold SF64sqrt, SFsqrt.
  destruct (SFsqrt_core_binary prec emax (Z.pos m) e) as [[q e'] l].
  apply binary_round_aux_sign.
Qed.

Lemma not_negative_leb x :
  not_negative (Prim2SF x) → (0 <=? x) = true ∨ x = nan.
Proof.
  rewrite leb_spec. change (Prim2SF 0) with (S754_zero false).
  destruct (Prim2SF x) as [[]|[]| |[] m e] eqn:Hx; try done; auto.
  intros _. right. by apply GopFacts.float_is_nan.
Qed.

(** *** The order of floats *)

Lemma SFcompare_antisym x y :
  SFcompare y x = CompOpp <$> SFcompare x y.
Proof.
  destruct x as [[]|[]| |[] mx ex], y as [[]|[]| |[] my ey]; try done;
    cbn [SFcompare fmap option_fmap option_map];
    rewrite (Z.compare_antisym ey ex); destruct (ey ?= ex)%Z; cbn [CompOpp];
    try done;
    rewrite <- (Pos.compare_cont_antisym _ _ Eq); cbn [CompOpp];
    by destruct (Pos.compare_cont Eq my mx).
Qed.

Lemma not_ltb_leb x y :
  Prim2SF x ≠ S754_nan → Prim2SF y ≠ S754_nan →
  (x <? y) = false → (y <=? x) = true.
Proof.
  rewrite ltb_spec, leb_spec. unfold SFltb, SFleb.
  rewrite (SFcompare_antisym (Prim2SF x) (Prim2SF y)).
  intros Hx Hy. destruct (SFcompare (Prim2SF x) (Prim2SF y)) as [[]|] eqn:Hc;
    try done.
  destruct (Prim2SF x) as [[]|[]| |[] mx ex], (Prim2SF y) as [[]|[]| |[] my ey];
    done.
Qed.

Lemma is_nan_spec x : is_nan x = true ↔ Prim2SF x = S754_nan.
Proof.
  unfold is_nan. rewrite FloatAxioms.eqb_spec. unfold SFeqb.
  destruct (Prim2SF x) as [[]|[]| |[] m e]; cbn [SFcompare];
    rewrite ?Z.compare_refl, ?Pos.compare_cont_refl; cbn [CompOpp negb];
    by split.
Qed.

(** [np.clip(x, -1, 1)] is NaN or lies between -1 and 1. *)
Lemma clip_unit_range x :
  Np.clip x (-1) 1 = nan
  ∨ ((-1 <=? Np.clip x (-1) 1) = true ∧ (Np.clip x (-1) 1 <=? 1) = true).
Proof.
  unfold Np.clip, Np.maximum, Np.minimum.
  destruct (is_nan x) eqn:Hnan.
  - rewrite Hnan. left. by apply GopFacts.float_is_nan, is_nan_spec.
  - assert (Prim2SF x ≠ S754_nan) as Hx.
    { intros H%is_nan_spec. by rewrite H in Hnan. }
    change (is_nan (-1)) with false. change (is_nan 1) with false. cbv iota.
    destruct (x <? -1) eqn:Hlow.
    + change (is_nan (-1)) with false. cbv iota. right. done.
    + rewrite Hnan. destruct (1 <? x) eqn:Hhigh; right; [done|].
      split; [by apply not_ltb_leb | by apply not_ltb_leb].
Qed.

(** *** A perfect prediction *)

(** A float that is a number: a zero or a finite float. *)
Definition finite_float (x : float) : Prop :=
  match Prim2SF x with
  | S754_zero _ | S754_finite _ _ _ => True
  | _ => False
  end.

Lemma float_is_zero x : Prim2SF x = S754_zero false → x = 0.
Proof. intros H. by apply Prim2SF_inj. Qed.

Lemma sub_diag x : finite_float x → x - x = 0.
Proof.
  unfold finite_float. intros Hx. apply float_is_zero. rewrite sub_spec.
  destruct (Prim2SF x) as [[]|[]| |s m e]; try done.
  unfold SF64sub, SFsub. by rewrite Z.sub_diag.
Qed.

Lemma subtract_diag (a : list float) :
  Forall finite_float a → Np.subtract a a = replicate (length a) 0.
Proof.
  unfold Np.subtract. induction 1 as [|x a Hx _ IH]; [done|].
  cbn [zip_with length replicate]. by rewrite sub_diag, IH.
Qed.

Lemma sum_zeros n : Np.sum (replicate n 0) = 0.
Proof.
  unfold Np.sum. induction n as [|n IH]; [done|].
  cbn [replicate foldl]. exact IH.
Qed.

(** The float of a count between 1 and [2^63 - 1] is positive. *)
Lemma of_nat_positive n :
  (0 < n)%nat → (Z.of_nat n < 2 ^ 63)%Z →
  match Prim2SF (Np.of_nat n) with
  | S754_infinity false | S754_finite false _ _ => True
  | _ => False
  end.
Proof.
  intros Hpos Hlt. unfold Np.of_nat, Np.of_int. rewrite of_uint63_spec.
  rewrite Uint63.of_Z_spec, Z.mod_small by (change wB with (2 ^ 63)%Z; lia).
  destruct (Z.of_nat n) as [|m|m] eqn:Hn; [lia| |lia].
  unfold binary_normalize, binary_round, shl_align.
  set (fe := fexp prec emax (Z.pos (digits2_pos m) + 0)).
  assert (-1074 ≤ fe)%Z as Hfe by (unfold fe; rewrite fexp_eq; lia).
  assert (∀ mz ez, (-1074 ≤ ez)%Z →
            match binary_round_aux prec emax false (Z.pos mz) ez loc_Exact with
            | S754_infinity false | S754_finite false _ _ => True
            | _ => False
            end) as Hround.
  { intros mz ez Hez.
    destruct (binary_round_aux_lower (Z.pos mz) ez loc_Exact 1 (-1074))
      as [->|(m' & e' & -> & _)]; [done | lia | lia | | done | done].
    change (-1074 + 2148)%Z with 1074%Z.
    replace (ez + 2148)%Z with (ez + 1074 + 1074)%Z by lia.
    rewrite (Z.pow_add_r 2 (ez + 1074) 1074) by lia.
    pose proof (Z.pow_pos_nonneg 2 (ez + 1074) ltac:(lia) ltac:(lia)).
    pose proof (Z.pow_pos_nonneg 2 1074 ltac:(lia) ltac:(lia)). nia. }
  destruct (fe - 0)%Z eqn:Hd; apply Hround; lia.
Qed.

Lemma zero_div_positive y :
  match Prim2SF y with
  | S754_infinity false | S754_finite false _ _ => True
  | _ => False
  end →
  0 / y = 0.
Proof.
  intros Hy. apply float_is_zero. rewrite div_spec.
  change (Prim2SF 0) with (S754_zero false).
  by destruct (Prim2SF y) as [[]|[]| |[] m e].
Qed.

Lemma mean_zeros n :
  (0 < n)%nat → (Z.of_nat n < 2 ^ 63)%Z → Np.mean (replicate n 0) = 0.
Proof.
  intros Hpos Hlt. unfold Np.mean. rewrite sum_zeros, length_replicate.
  by apply zero_div_positive, of_nat_positive.
Qed.

End GopRanges.

(** ** Quotients of integers, rounded *)

Module Binary64Div.
Import Binary64 Binary64Lower.
Open Scope Z_scope.

Lemma digits_lower (m : positive) k : 2 ^ k ≤ Z.pos m → k + 1 ≤ Z.pos (digits2_pos m).
Proof.
  intros Hle. pose proof (digits2_bounds m) as [_ Hhi].
  destruct (decide (0 ≤ k)) as [Hk|]; [|lia].
  assert (2 ^ k < 2 ^ Z.pos (digits2_pos m)) as Hpow by lia.
  apply Z.pow_lt_mono_r_iff in Hpow; lia.
Qed.

Lemma digits_upper (m : positive) k : Z.pos m < 2 ^ k → Z.pos (digits2_pos m) ≤ k.
Proof.
  intros Hlt. pose proof (digits2_bounds m) as [Hlo _].
  destruct (decide (0 ≤ k)) as [Hk|Hk].
  - assert (2 ^ (Z.pos (digits2_pos m) - 1) < 2 ^ k) as Hpow by lia.
    apply Z.pow_lt_mono_r_iff in Hpow; lia.
  - rewrite Z.pow_neg_r in Hlt by lia. lia.
Qed.

Lemma canonical_of_digits (m : positive) (e : Z) :
  e = Z.max (Z.pos (digits2_pos m) + e - 53) (-1074) →
  canonical_mantissa prec emax m e = true.
Proof. intros He. unfold canonical_mantissa. rewrite fexp_eq. lia. Qed.

(** Rounding gives a float in canonical form, when the mantissa handed
    to it carries enough digits (nothing has to be shifted left). *)
Lemma binary_round_aux_valid (s : bool) (M E : Z) (l : location) :
  0 ≤ M → E ≤ fexp prec emax (Zdigits2 M + E) →
  valid_binary (binary_round_aux prec emax s M E l) = true.
Proof.
  intros HM Hshift. unfold binary_round_aux, shr_fexp.
  pose proof (fexp_eq (Zdigits2 M + E)) as Hfe.
  set (fe := fexp prec emax (Zdigits2 M + E)) in *. clearbody fe.
  destruct (shr_m_div (shr_record_of_loc M l) E (fe - E)) as [Hm1 He1];
    [by rewrite shr_record_of_loc_m|].
  destruct (shr (shr_record_of_loc M l) E (fe - E)) as [r1 e1].
  cbn [fst snd] in Hm1, He1. rewrite shr_record_of_loc_m in Hm1.
  rewrite Z.max_l in Hm1, He1 by lia.
  pose proof (round_nearest_even_bounds r1) as [HN _]. cbn zeta in HN.
  set (N := round_nearest_even (shr_m r1) (loc_of_shr_record r1)) in *.
  clearbody N.
  pose proof (Z.pow_pos_nonneg 2 (fe - E) ltac:(lia) ltac:(lia)) as Hp.
  assert (0 ≤ shr_m r1) as Hm1pos by (rewrite Hm1; apply Z.div_pos; lia).
  assert (e1 = fe) as -> by lia.
  (* the size of the rounded mantissa *)
  assert (N = 0 ∨ (0 < N ∧ Z.max (Zdigits2 N + fe - 53) (-1074) = fe)
          ∨ (N = 2 ^ 53 ∧ -1074 ≤ fe)) as HsizeN.
  { destruct M as [|m|m]; [|clear HM|lia].
    { rewrite Z.div_0_l in Hm1 by lia.
      destruct (decide (N = 0)) as [|HN0]; [by left|]. right. left.
      assert (N = 1) as -> by lia. cbn [Zdigits2 digits2_pos] in *. lia. }
    cbn [Zdigits2] in Hfe. pose proof (digits2_bounds m) as [Hlo Hhi].
    destruct (decide (Z.pos (digits2_pos m) + E - 53 < -1074)) as [Hsub|Hnorm].
    - (* subnormal range *)
      assert (fe = -1074) as Hfe' by lia.
      assert (shr_m r1 < 2 ^ 52) as Hr1.
      { rewrite Hm1. apply Z.div_lt_upper_bound; [lia|].
        rewrite <- Z.pow_add_r by lia.
        eapply Z.lt_le_trans; [exact Hhi|]. apply Z.pow_le_mono_r; lia. }
      destruct N as [|n|n]; [by left | right; left | lia].
      split; [lia|]. cbn [Zdigits2].
      pose proof (digits_upper n 53 ltac:(change (2 ^ 53) with (2 ^ 52 * 2); lia)).
      lia.
    - (* normal range *)
      assert (fe - E = Z.pos (digits2_pos m) - 53) as Hpeq by lia.
      assert (2 ^ 52 ≤ shr_m r1 < 2 ^ 53) as Hr1.
      { rewrite Hm1, Hpeq. split.
        - apply Z.div_le_lower_bound; [lia|].
          rewrite <- Z.pow_add_r by lia.
          replace (Z.pos (digits2_pos m) - 53 + 52)
            with (Z.pos (digits2_pos m) - 1) by lia. done.
        - apply Z.div_lt_upper_bound; [lia|].
          rewrite <- Z.pow_add_r by lia.
          replace (Z.pos (digits2_pos m) - 53 + 53)
            with (Z.pos (digits2_pos m)) by lia. done. }
      destruct (decide (N = 2 ^ 53)) as [->|Hne]; [right; right; lia|].
      right. left. destruct N as [|n|n]; [lia| |lia]. split; [lia|].
      cbn [Zdigits2].
      pose proof (digits_upper n 53 ltac:(lia)).
      pose proof (digits_lower n 52 ltac:(lia)). lia. }
  (* the second alignment *)
  cbn [shr_record_of_loc]. rewrite fexp_eq.
  assert (0 ≤ N) as HNpos by lia.
  destruct (shr_m_div {| shr_m := N; shr_r := false; shr_s := false |} fe
              (Z.max (Zdigits2 N + fe - 53) (-1074) - fe) HNpos) as [Hm2 He2].
  destruct (shr _ fe _) as [r2 e2]. cbn [fst snd shr_m] in Hm2, He2.
  destruct HsizeN as [->|[[HN0 Hk]|[-> Hfe53]]].
  - rewrite Z.div_0_l in Hm2 by (apply Z.pow_nonzero; lia). by rewrite Hm2.
  - rewrite Hk, Z.sub_diag in Hm2, He2. cbn in Hm2. rewrite Z.div_1_r in Hm2.
    rewrite Hm2. destruct N as [|n|n]; [lia| |lia].
    destruct (e2 <=? emax - prec) eqn:Hemax; [|done].
    cbn [SpecFloat.valid_binary]. unfold bounded. rewrite Hemax, andb_true_r.
    apply canonical_of_digits. cbn [Zdigits2] in Hk. lia.
  - change (Zdigits2 (2 ^ 53)) with 54 in Hm2, He2.
    replace (Z.max (54 + fe - 53) (-1074) - fe) with 1 in Hm2, He2 by lia.
    change (2 ^ 53 / 2 ^ Z.max 1 0) with (Z.pos 4503599627370496) in Hm2.
    rewrite Hm2.
    destruct (e2 <=? emax - prec) eqn:Hemax; [|done].
    cbn [SpecFloat.valid_binary]. unfold bounded. rewrite Hemax, andb_true_r.
    apply canonical_of_digits.
    change (Z.pos (digits2_pos 4503599627370496)) with 53. lia.
Qed.

(** Rounding a value strictly between [M * 2^E] and [(M + 1) * 2^E]
    never goes above a float [mB * 2^eB] above it. *)
Lemma binary_round_aux_upper_inexact
    (M : positive) (E : Z) (c : comparison) (mB : positive) (eB : Z) :
  -2148 ≤ E →
  E ≤ fexp prec emax (Z.pos (digits2_pos M) + E) →
  bounded prec emax mB eB = true →
  (Z.pos M + 1) * 2 ^ (E + 2148) ≤ Z.pos mB * 2 ^ (eB + 2148) →
  let r := binary_round_aux prec emax false (Z.pos M) E (loc_Inexact c) in
  nonneg_finite r ∧ scaled r ≤ Z.pos mB * 2 ^ (eB + 1074).
Proof.
  intros HE Hshift HB Hle.
  destruct (bounded_mantissa _ _ HB) as [HmB HeBlo].
  apply andb_true_iff in HB as [HcanB HeB].
  apply canonical_exponent in HcanB as HeqB. apply Z.leb_le in HeB.
  change (emax - prec) with 971 in HeB.
  cbn zeta. unfold binary_round_aux, shr_fexp. cbn [Zdigits2].
  pose proof (fexp_eq (Z.pos (digits2_pos M) + E)) as Hfe.
  set (fe := fexp prec emax (Z.pos (digits2_pos M) + E)) in *. clearbody fe.
  pose proof (Z.pow_pos_nonneg 2 (E + 2148) ltac:(lia) ltac:(lia)) as HK.
  assert (fe ≤ eB) as HfeB.
  { pose proof (magnitude_le M mB E eB 2148 ltac:(lia) ltac:(lia) ltac:(lia)). lia. }
  pose proof (Z.pow_pos_nonneg 2 (fe - E) ltac:(lia) ltac:(lia)) as Hp.
  pose proof (Z.pow_pos_nonneg 2 (eB - fe) ltac:(lia) ltac:(lia)) as HY.
  assert (Z.pos M + 1 ≤ Z.pos mB * 2 ^ (eB - fe) * 2 ^ (fe - E)) as HMY.
  { replace (eB + 2148) with (eB - fe + (fe - E) + (E + 2148)) in Hle by lia.
    rewrite (Z.pow_add_r 2 (eB - fe + (fe - E)) (E + 2148)),
            (Z.pow_add_r 2 (eB - fe) (fe - E)) in Hle by lia.
    apply (Z.mul_le_mono_pos_r _ _ (2 ^ (E + 2148)) HK). lia. }
  (* the first shift and the rounding *)
  destruct (shr_m_div (shr_record_of_loc (Z.pos M) (loc_Inexact c)) E (fe - E))
    as [Hm1 He1]; [by rewrite shr_record_of_loc_m|].
  destruct (shr (shr_record_of_loc (Z.pos M) (loc_Inexact c)) E (fe - E)) as [r1 e1].
  cbn [fst snd] in Hm1, He1. rewrite shr_record_of_loc_m in Hm1.
  rewrite Z.max_l in Hm1, He1 by lia. assert (e1 = fe) as -> by lia.
  pose proof (round_nearest_even_bounds r1) as [HN _]. cbn zeta in HN.
  set (N := round_nearest_even (shr_m r1) (loc_of_shr_record r1)) in *.
  clearbody N.
  assert (0 ≤ shr_m r1) as Hm1pos by (rewrite Hm1; apply Z.div_pos; lia).
  assert (shr_m r1 < Z.pos mB * 2 ^ (eB - fe)) as Hbelow.
  { rewrite Hm1. apply Z.div_lt_upper_bound; lia. }
  assert (-1074 ≤ fe) as Hfelo by lia.
  pose proof (Z.pow_pos_nonneg 2 (fe + 1074) ltac:(lia) ltac:(lia)) as Hunit.
  assert (N * 2 ^ (fe + 1074) ≤ Z.pos mB * 2 ^ (eB + 1074)) as HNB.
  { replace (eB + 1074) with (eB - fe + (fe + 1074)) by lia.
    rewrite (Z.pow_add_r 2 (eB - fe) (fe + 1074)) by lia. nia. }
  (* the second shift only truncates *)
  cbn [shr_record_of_loc]. rewrite fexp_eq.
  destruct (shr_m_div {| shr_m := N; shr_r := false; shr_s := false |} fe
              (Z.max (Zdigits2 N + fe - 53) (-1074) - fe) ltac:(cbn; lia))
    as [Hm2 He2].
  destruct (shr _ fe _) as [r2 e2]. cbn [fst snd shr_m] in Hm2, He2.
  set (k := Z.max (Z.max (Zdigits2 N + fe - 53) (-1074) - fe) 0) in *.
  assert (0 ≤ k) as Hk0 by lia.
  assert (e2 ≤ eB) as He2B.
  { destruct N as [|n|n]; [cbn [Zdigits2] in k; lia| |lia].
    cbn [Zdigits2] in k.
    pose proof (magnitude_le n mB fe eB 1074 ltac:(lia) ltac:(lia) HNB). lia. }
  pose proof (Z.pow_pos_nonneg 2 k ltac:(lia) Hk0) as Hk.
  assert (0 ≤ shr_m r2) as Hm2pos by (rewrite Hm2; apply Z.div_pos; lia).
  pose proof (Z.pow_pos_nonneg 2 (eB + 1074) ltac:(lia) ltac:(lia)) as HBpos.
  destruct (shr_m r2) as [|m2|m2] eqn:Hr2; [split; [done | cbn; lia] | | lia].
  rewrite (proj2 (Z.leb_le _ _)) by (change (emax - prec) with 971; lia).
  split; [done|]. cbn [scaled].
  replace (e2 + 1074) with (k + (fe + 1074)) by lia.
  rewrite (Z.pow_add_r 2 k (fe + 1074)) by lia.
  pose proof (Z.mul_div_le N (2 ^ k) Hk) as Htrunc.
  rewrite <- Hm2 in Htrunc. nia.
Qed.

(** The quotient and the remainder that the division hands to the
    rounding, for a divisor that is not astronomically larger than the
    dividend: at least 53 digits of quotient. *)
Lemma div_core_spec (a b : positive) :
  Z.pos (digits2_pos b) ≤ Z.pos (digits2_pos a) + 1021 →
  ∃ s q r l,
    SFdiv_core_binary prec emax (Z.pos a) 0 (Z.pos b) 0 = (q, - s, l)
    ∧ 0 ≤ s ≤ 1074
    ∧ Z.pos a * 2 ^ s = q * Z.pos b + r ∧ 0 ≤ r < Z.pos b
    ∧ 2 ^ 52 ≤ q
    ∧ (r = 0 → l = loc_Exact)
    ∧ (r ≠ 0 → ∃ c, l = loc_Inexact c).
Proof.
  intros Hsize. unfold SFdiv_core_binary. cbn [Zdigits2].
  rewrite fexp_eq, !Z.add_0_r, Z.sub_diag.
  set (d1 := Z.pos (digits2_pos a)) in *. set (d2 := Z.pos (digits2_pos b)) in *.
  pose proof (digits2_bounds a) as [Hlo1 _]. pose proof (digits2_bounds b) as [_ Hhi2].
  fold d1 in Hlo1. fold d2 in Hhi2.
  remember (Z.min (Z.max (d1 - d2 - 53) (-1074)) 0) as e' eqn:He'.
  remember (0 - e') as s eqn:Hs.
  assert (0 ≤ s ≤ 1074) as Hs' by lia.
  assert (53 - d1 + d2 ≤ s) as Hdigits by lia.
  assert (match s with
          | 0 => Z.pos a
          | Z.pos _ => Z.shiftl (Z.pos a) s
          | Z.neg _ => 0
          end = Z.pos a * 2 ^ s) as ->.
  { destruct s as [|p|p]; [by rewrite Z.mul_1_r | | lia].
    by rewrite Z.shiftl_mul_pow2 by lia. }
  pose proof (Z_div_mod (Z.pos a * 2 ^ s) (Z.pos b) ltac:(lia)) as Hdiv.
  destruct (Z.div_eucl (Z.pos a * 2 ^ s) (Z.pos b)) as [q r].
  destruct Hdiv as [Heq Hr].
  exists s, q, r, (new_location (Z.pos b) r).
  replace e' with (- s) by lia.
  split; [done|]. split; [done|]. split; [lia|]. split; [done|].
  split; [|split].
  - (* 53 digits *)
    pose proof (Z.pow_pos_nonneg 2 s ltac:(lia) ltac:(lia)) as Hps.
    assert (0 < d2 ∧ 0 < d1) as [Hd2 Hd1] by (unfold d1, d2; lia).
    pose proof (Z.pow_pos_nonneg 2 d2 ltac:(lia) ltac:(lia)) as HD.
    assert (2 ^ (d1 - 1 + s) ≤ Z.pos a * 2 ^ s) as Ha.
    { rewrite Z.pow_add_r by lia. apply Z.mul_le_mono_nonneg_r; lia. }
    replace (d1 - 1 + s) with (d1 - 1 + s - d2 - 52 + 52 + d2) in Ha by lia.
    rewrite (Z.pow_add_r 2 (d1 - 1 + s - d2 - 52 + 52) d2),
            (Z.pow_add_r 2 (d1 - 1 + s - d2 - 52) 52) in Ha by lia.
    pose proof (Z.pow_pos_nonneg 2 (d1 - 1 + s - d2 - 52) ltac:(lia) ltac:(lia)) as Hx.
    set (X := 2 ^ (d1 - 1 + s - d2 - 52)) in *. set (D := 2 ^ d2) in *.
    set (P := 2 ^ 52) in *. assert (0 < P) by (unfold P; lia).
    destruct (decide (P ≤ q)) as [|Hsmall]; [done|].
    assert (q + 1 ≤ P) as Hq1 by lia.
    assert ((q + 1) * Z.pos b ≤ P * Z.pos b) by (apply Z.mul_le_mono_nonneg_r; lia).
    assert (P * Z.pos b < P * D) by (apply Z.mul_lt_mono_pos_l; lia).
    assert (P * D ≤ X * P * D) by nia.
    lia.
  - intros ->. unfold new_location, new_location_even, new_location_odd.
    by destruct (Z.even (Z.pos b)).
  - intros Hne. unfold new_location, new_location_even, new_location_odd.
    destruct (Z.even (Z.pos b)); rewrite (proj2 (Z.eqb_neq r 0)) by done; eauto.
Qed.

(** [a / b] is at most any float above the exact quotient. *)
Lemma true_div_upper (a b mB : positive) (eB : Z) :
  Z.pos (digits2_pos b) ≤ Z.pos (digits2_pos a) + 1021 →
  bounded prec emax mB eB = true →
  Z.pos a * 2 ^ 1074 ≤ Z.pos mB * 2 ^ (eB + 1074) * Z.pos b →
  ∃ x, PyNum.true_div (Z.pos a) b = Some x
       ∧ nonneg_finite (Prim2SF x)
       ∧ scaled (Prim2SF x) ≤ Z.pos mB * 2 ^ (eB + 1074).
Proof.
  intros Hsize HB Hle. unfold PyNum.true_div.
  destruct (div_core_spec a b Hsize) as (s & q & r & l & -> & Hs & Heq & Hr & Hq & Hex & Hin).
  change (Z.pos a <? 0) with false.
  destruct (bounded_mantissa _ _ HB) as [HmB HeB].
  assert (0 < q) as Hqpos
    by (pose proof (Z.pow_pos_nonneg 2 52 ltac:(lia) ltac:(lia)); lia).
  destruct q as [|qp|qp]; [lia | clear Hqpos | lia].
  pose proof (digits_lower qp 52 Hq) as Hdq.
  assert (- s ≤ fexp prec emax (Z.pos (digits2_pos qp) + - s)) as Hshift
    by (rewrite fexp_eq; lia).
  pose proof (binary_round_aux_valid false (Z.pos qp) (- s) l ltac:(lia) Hshift)
    as Hvalid.
  pose proof (Z.pow_pos_nonneg 2 s ltac:(lia) ltac:(lia)) as Hps.
  pose proof (Z.pow_pos_nonneg 2 1074 ltac:(lia) ltac:(lia)) as HU.
  pose proof (Z.pow_pos_nonneg 2 (eB + 1074) ltac:(lia) ltac:(lia)) as HpB.
  pose proof (Z.pow_pos_nonneg 2 (1074 - s) ltac:(lia) ltac:(lia)) as Hrest.
  (* the quotient, cut, is below the float *)
  assert (Z.pos qp * 2 ^ 1074 ≤ Z.pos mB * 2 ^ (eB + 1074) * 2 ^ s) as Hcut.
  { apply (Z.mul_le_mono_pos_r _ _ (Z.pos b)); [lia|]. nia. }
  assert (Z.pos qp * 2 ^ (- s + 2148) ≤ Z.pos mB * 2 ^ (eB + 2148)) as Hcut'.
  { replace (- s + 2148) with (1074 + (1074 - s)) by lia.
    replace (eB + 2148) with (eB + 1074 + s + (1074 - s)) by lia.
    rewrite (Z.pow_add_r 2 1074 (1074 - s)),
            (Z.pow_add_r 2 (eB + 1074 + s) (1074 - s)),
            (Z.pow_add_r 2 (eB + 1074) s) by lia.
    rewrite !Z.mul_assoc. apply Z.mul_le_mono_nonneg_r; lia. }
  assert (nonneg_finite (binary_round_aux prec emax false (Z.pos qp) (- s) l)
          ∧ scaled (binary_round_aux prec emax false (Z.pos qp) (- s) l)
            ≤ Z.pos mB * 2 ^ (eB + 1074)) as [Hfin Hup].
  { destruct (decide (r = 0)) as [Hr0|Hr0].
    - rewrite (Hex Hr0). apply binary_round_aux_upper; [lia | done | done | done].
    - destruct (Hin Hr0) as [c ->].
      apply binary_round_aux_upper_inexact; [lia | done | done |].
      (* the float is a multiple of the unit of the quotient *)
      pose proof (magnitude_le qp mB (- s) eB 2148 ltac:(lia) ltac:(lia) Hcut') as Hmag.
      apply andb_true_iff in HB as [HcanB%canonical_exponent _].
      assert (- s ≤ eB) as Hgrid by lia.
      pose proof (Z.pow_pos_nonneg 2 (eB + s) ltac:(lia) ltac:(lia)) as HY.
      assert (Z.pos qp + 1 ≤ Z.pos mB * 2 ^ (eB + s)) as Hnext.
      { assert (Z.pos qp * Z.pos b < Z.pos mB * 2 ^ (eB + s) * Z.pos b); [|nia].
        assert (Z.pos a * 2 ^ s * 2 ^ 1074
                ≤ Z.pos mB * 2 ^ (eB + s) * Z.pos b * 2 ^ 1074) as Hscaled.
        { replace (eB + s) with (eB + 1074 + s - 1074) by lia.
          assert (2 ^ (eB + 1074 + s - 1074) * 2 ^ 1074 = 2 ^ (eB + 1074) * 2 ^ s)
            as Hpow by (rewrite <- !Z.pow_add_r by lia; f_equal; lia).
          nia. }
        apply Z.mul_le_mono_pos_r in Hscaled; lia. }
      replace (eB + 2148) with (eB + s + (- s + 2148)) by lia.
      rewrite (Z.pow_add_r 2 (eB + s) (- s + 2148)) by lia.
      rewrite Z.mul_assoc. apply Z.mul_le_mono_nonneg_r; [|lia].
      apply Z.pow_nonneg. lia. }
  destruct (binary_round_aux prec emax false (Z.pos qp) (- s) l) as [[]|[]| |[] m e]
    eqn:Hround; try done;
    (eexists; split; [done|]; by rewrite Prim2SF_SF2Prim).
Qed.

(** [a / b] overflows or is at least any float below the exact
    quotient. *)
Lemma true_div_lower (a b mB : positive) (eB : Z) :
  Z.pos (digits2_pos b) ≤ Z.pos (digits2_pos a) + 1021 →
  bounded prec emax mB eB = true →
  Z.pos mB * 2 ^ (eB + 1074) * Z.pos b ≤ Z.pos a * 2 ^ 1074 →
  PyNum.true_div (Z.pos a) b = None
  ∨ ∃ x m e, PyNum.true_div (Z.pos a) b = Some x
             ∧ Prim2SF x = S754_finite false m e
             ∧ Z.pos mB * 2 ^ (eB + 1074) ≤ scaled (Prim2SF x).
Proof.
  intros Hsize HB Hle. unfold PyNum.true_div.
  destruct (div_core_spec a b Hsize) as (s & q & r & l & -> & Hs & Heq & Hr & Hq & _).
  change (Z.pos a <? 0) with false.
  destruct (bounded_mantissa _ _ HB) as [HmB HeB].
  assert (0 < q) as Hqpos
    by (pose proof (Z.pow_pos_nonneg 2 52 ltac:(lia) ltac:(lia)); lia).
  destruct q as [|qp|qp]; [lia | clear Hqpos | lia].
  pose proof (digits_lower qp 52 Hq) as Hdq.
  assert (- s ≤ fexp prec emax (Z.pos (digits2_pos qp) + - s)) as Hshift
    by (rewrite fexp_eq; lia).
  pose proof (binary_round_aux_valid false (Z.pos qp) (- s) l ltac:(lia) Hshift)
    as Hvalid.
  pose proof (Z.pow_pos_nonneg 2 1074 ltac:(lia) ltac:(lia)) as HU.
  pose proof (Z.pow_pos_nonneg 2 (- s + 2148) ltac:(lia) ltac:(lia)) as Hunit.
  assert (Z.pos a * 2 ^ 2148 / (Z.pos b * 2 ^ (- s + 2148)) = Z.pos qp) as Hquot.
  { replace 2148 with (s + (- s + 2148)) at 1 by lia.
    rewrite (Z.pow_add_r 2 s (- s + 2148)), Z.mul_assoc by lia.
    rewrite Z.div_mul_cancel_r by lia.
    symmetry. apply (Z.div_unique_pos _ _ _ r); lia. }
  assert (Z.pos mB * 2 ^ (eB + 2148) ≤ Z.pos qp * 2 ^ (- s + 2148)) as Hfloor.
  { rewrite <- Hquot. apply grid_floor_lower; [done | lia | lia | lia | | ].
    - assert (2 ^ (eB + 2148) = 2 ^ (eB + 1074) * 2 ^ 1074) as ->
        by (rewrite <- Z.pow_add_r by lia; f_equal; lia).
      assert (2 ^ 2148 = 2 ^ 1074 * 2 ^ 1074) as ->
        by (by rewrite <- Z.pow_add_r by lia).
      rewrite !Z.mul_assoc.
      rewrite <- (Z.mul_assoc (Z.pos mB * 2 ^ (eB + 1074))), (Z.mul_comm (2 ^ 1074)),
        Z.mul_assoc.
      apply Z.mul_le_mono_nonneg_r; lia.
    - right. by rewrite Hquot. }
  destruct (binary_round_aux_lower (Z.pos qp) (- s) l mB eB HB ltac:(lia) ltac:(lia)
              Hfloor) as [Hinf|(m & e & Hfin & Hlow)].
  - left. by rewrite Hinf.
  - right. rewrite Hfin in *. exists (SF2Prim (S754_finite false m e)), m, e.
    by rewrite Prim2SF_SF2Prim.
Qed.

(** *** Comparisons on non-negative floats *)

Lemma SFltb_scaled x y :
  valid_binary x = true → valid_binary y = true →
  nonneg_finite x → nonneg_finite y →
  SFltb x y = bool_decide (scaled x < scaled y).
Proof.
  intros Hx Hy Nx Ny.
  assert (SFltb x y = negb (SFleb y x)) as ->.
  { unfold SFltb, SFleb. rewrite (GopRanges.SFcompare_antisym x y).
    destruct (SFcompare x y) as [[]|] eqn:Hc; try done.
    destruct x as [|[]| |[] ? ?], y as [|[]| |[] ? ?]; done. }
  rewrite SFleb_scaled by done.
  case_bool_decide; case_bool_decide; simpl; lia.
Qed.

Lemma int_lt_float_scaled (k : Z) (x : float) :
  nonneg_finite (Prim2SF x) →
  PyNum.int_lt_float k x = bool_decide (k * 2 ^ 1074 < scaled (Prim2SF x)).
Proof.
  unfold PyNum.int_lt_float. pose proof (Prim2SF_valid x) as Hvalid.
  pose proof (Z.pow_pos_nonneg 2 1074 ltac:(lia) ltac:(lia)) as HU.
  destruct (Prim2SF x) as [s|s| |[] m e]; try done; intros _; cbn [scaled].
  - destruct (Z.ltb_spec k 0); symmetry;
      [apply bool_decide_eq_true | apply bool_decide_eq_false]; nia.
  - destruct (bounded_mantissa _ _ Hvalid) as [_ He].
    destruct (Z.leb_spec 0 e) as [Hpos|Hneg].
    + rewrite (Z.pow_add_r 2 e 1074) by lia.
      pose proof (Z.pow_pos_nonneg 2 e ltac:(lia) ltac:(lia)).
      destruct (Z.ltb_spec k (Z.pos m * 2 ^ e)); symmetry;
        [apply bool_decide_eq_true | apply bool_decide_eq_false]; nia.
    + assert (2 ^ 1074 = 2 ^ (- e) * 2 ^ (e + 1074)) as ->
        by (rewrite <- Z.pow_add_r by lia; f_equal; lia).
      pose proof (Z.pow_pos_nonneg 2 (- e) ltac:(lia) ltac:(lia)).
      pose proof (Z.pow_pos_nonneg 2 (e + 1074) ltac:(lia) ltac:(lia)).
      destruct (Z.ltb_spec (k * 2 ^ (- e)) (Z.pos m)); symmetry;
        [apply bool_decide_eq_true | apply bool_decide_eq_false]; nia.
Qed.

End Binary64Div.

(** ** The duration thresholds of [validate], in milliseconds *)

Module AudioFacts.
Import Binary64 Binary64Lower Binary64Div.
Open Scope Z_scope.

Lemma pow_1074 : 2 ^ 1074 = 18014398509481984 * 2 ^ 1020.
Proof. vm_compute. reflexivity. Qed.

Lemma pow_2022 : 2 ^ (948 + 1074) = 2 ^ 948 * 2 ^ 1074.
Proof. by rewrite Z.pow_add_r by lia. Qed.

Lemma pow_1000 : 2 ^ 1000 = 4503599627370496 * 2 ^ 948.
Proof. vm_compute. reflexivity. Qed.

(** A length in milliseconds over 1000, against the two thresholds. *)
Lemma duration_of_length (n : nat) :
  Z.of_nat n < 2 ^ 1000 →
  ∃ d, PyNum.true_div (Z.of_nat n) 1000 = Some d
       ∧ PyNum.int_lt_float 30 d = bool_decide (30000 < Z.of_nat n)
       ∧ (d <? 0.5)%float = bool_decide (Z.of_nat n < 500).
Proof.
  intros Hlen. destruct (Z.of_nat n) as [|a|a] eqn:Hn; [|clear Hn|lia].
  { exists 0%float. split; [done|]. split; reflexivity. }
  assert (Z.pos (digits2_pos 1000) ≤ Z.pos (digits2_pos a) + 1021) as Hsize
    by (change (Z.pos (digits2_pos 1000)) with 10; lia).
  pose proof (Z.pow_pos_nonneg 2 1020 ltac:(lia) ltac:(lia)) as HU.
  pose proof (Z.pow_pos_nonneg 2 948 ltac:(lia) ltac:(lia)) as HV.
  (* the quotient is a float *)
  destruct (true_div_upper a 1000 4503599627370496 948 Hsize eq_refl)
    as (d & Hd & Hfin & _).
  { rewrite pow_2022. rewrite pow_1000 in Hlen.
    pose proof (Z.pow_pos_nonneg 2 1074 ltac:(lia) ltac:(lia)). nia. }
  exists d. split; [done|].
  rewrite int_lt_float_scaled, ltb_spec, SFltb_scaled
    by (done || apply Prim2SF_valid).
  change (scaled (Prim2SF 0.5)) with (4503599627370496 * 2 ^ (-53 + 1074)).
  change (-53 + 1074) with 1021. change (2 ^ 1021) with (2 ^ (1 + 1020)).
  rewrite (Z.pow_add_r 2 1 1020), pow_1074 by lia. change (2 ^ 1) with 2.
  set (U := 2 ^ 1020) in *.
  destruct (decide (Z.pos a < 500)) as [Hshort|Hnotshort].
  - (* below half a second *)
    destruct (true_div_upper a 1000 8989607068696576 (-54) Hsize eq_refl)
      as (d' & Hd' & _ & Hup).
    { change (-54 + 1074) with 1020. rewrite pow_1074. fold U. lia. }
    rewrite Hd in Hd'. injection Hd' as <-.
    change (-54 + 1074) with 1020 in Hup. fold U in Hup.
    rewrite (bool_decide_eq_false_2 (30000 < Z.pos a)) by lia.
    rewrite (bool_decide_eq_true_2 (Z.pos a < 500)) by lia.
    split; [apply bool_decide_eq_false | apply bool_decide_eq_true]; lia.
  - rewrite (bool_decide_eq_false_2 (Z.pos a < 500)) by lia.
    destruct (true_div_lower a 1000 4503599627370496 (-53) Hsize eq_refl)
      as [Hnone|(d' & m & e & Hd' & _ & Hlow)].
    { change (-53 + 1074) with 1021. change (2 ^ 1021) with (2 ^ (1 + 1020)).
      rewrite (Z.pow_add_r 2 1 1020), pow_1074 by lia. change (2 ^ 1) with 2.
      fold U. lia. }
    { by rewrite Hd in Hnone. }
    rewrite Hd in Hd'. injection Hd' as <-.
    change (-53 + 1074) with 1021 in Hlow.
    change (2 ^ 1021) with (2 ^ (1 + 1020)) in Hlow.
    rewrite (Z.pow_add_r 2 1 1020) in Hlow by lia. change (2 ^ 1) with 2 in Hlow.
    fold U in Hlow.
    split; [|apply bool_decide_eq_false; lia].
    destruct (decide (30000 < Z.pos a)) as [Hlong|Hnotlong].
    + (* above thirty seconds *)
      rewrite (bool_decide_eq_true_2 (30000 < Z.pos a)) by lia.
      destruct (true_div_lower a 1000 8444524179226624 (-48) Hsize eq_refl)
        as [Hnone|(d' & m' & e' & Hd' & _ & Hlow')].
      { change (-48 + 1074) with 1026. change (2 ^ 1026) with (2 ^ (6 + 1020)).
        rewrite (Z.pow_add_r 2 6 1020), pow_1074 by lia. change (2 ^ 6) with 64.
        fold U. lia. }
      { by rewrite Hd in Hnone. }
      rewrite Hd in Hd'. injection Hd' as <-.
      change (-48 + 1074) with 1026 in Hlow'.
      change (2 ^ 1026) with (2 ^ (6 + 1020)) in Hlow'.
      rewrite (Z.pow_add_r 2 6 1020) in Hlow' by lia. change (2 ^ 6) with 64 in Hlow'.
      fold U in Hlow'. apply bool_decide_eq_true. lia.
    + rewrite (bool_decide_eq_false_2 (30000 < Z.pos a)) by lia.
      destruct (true_div_upper a 1000 8444249301319680 (-48) Hsize eq_refl)
        as (d' & Hd' & _ & Hup).
      { change (-48 + 1074) with 1026. change (2 ^ 1026) with (2 ^ (6 + 1020)).
        rewrite (Z.pow_add_r 2 6 1020), pow_1074 by lia. change (2 ^ 6) with 64.
        fold U. lia. }
      rewrite Hd in Hd'. injection Hd' as <-.
      change (-48 + 1074) with 1026 in Hup.
      change (2 ^ 1026) with (2 ^ (6 + 1020)) in Hup.
      rewrite (Z.pow_add_r 2 6 1020) in Hup by lia. change (2 ^ 6) with 64 in Hup.
      fold U in Hup. apply bool_decide_eq_false. lia.
Qed.

End AudioFacts.

(** ** Manifest lines and the sizes of the splits *)

Module DataPrepFacts.
Import PyStr PyStr2 DataPrep Binary64 Binary64Lower.

Lemma split_space_once_spec s :
  (split_space_once s = [s] ∧ contains " " s = false)
  ∨ (∃ a t, split_space_once s = [a; t] ∧ s = a +:+ " " +:+ t
            ∧ contains " " a = false).
Proof.
  induction s as [|c s IH]; [by left|]. cbn [split_space_once].
  case_bool_decide as Hc.
  - right. exists EmptyString, s. by rewrite Hc.
  - assert (startswith " " (String c s) = false) as Hstart.
    { cbn [startswith]. rewrite bool_decide_eq_false_2; [done | congruence]. }
    destruct IH as [[-> Hs]|(a & t & -> & -> & Ha)].
    + left. split; [done|]. cbn [contains]. by rewrite Hstart, Hs.
    + right. exists (String c a), t. split; [done|]. split; [done|].
      cbn [contains]. rewrite Ha, orb_false_r.
      cbn [startswith]. rewrite bool_decide_eq_false_2; [done | congruence].
Qed.

Lemma load_app data lines :
  foldl (λ data line,
           match parse_line line with
           | Some sample => data ++ [sample]
           | None => data
           end) data lines
  = data ++ omap parse_line lines.
Proof.
  revert data. induction lines as [|line lines IH]; intros data.
  - simpl. by rewrite app_nil_r.
  - cbn [foldl]. rewrite IH. simpl.
    destruct (parse_line line); [by rewrite <- app_assoc | done].
Qed.

Lemma load_omap lines : load lines = omap parse_line lines.
Proof. apply (load_app []). Qed.

(** *** The float of a count *)

Open Scope Z_scope.

Lemma iter_xO_value (m d : positive) :
  Z.pos (Pos.iter xO m d) = Z.pos m * 2 ^ Z.pos d.
Proof.
  induction d as [|d IH] using Pos.peano_ind.
  - cbn [Pos.iter]. lia.
  - rewrite Pos.iter_succ, Pos2Z.inj_succ, Z.pow_succ_r, Pos2Z.inj_xO, IH by lia.
    lia.
Qed.

Lemma iter_xO_digits (m d : positive) :
  Z.pos (digits2_pos (Pos.iter xO m d)) = Z.pos (digits2_pos m) + Z.pos d.
Proof.
  induction d as [|d IH] using Pos.peano_ind.
  - cbn [Pos.iter digits2_pos]. lia.
  - rewrite Pos.iter_succ. cbn [digits2_pos]. lia.
Qed.

Lemma of_nat_finite (n : nat) :
  Z.of_nat n < 2 ^ 63 → nonneg_finite (Prim2SF (Np.of_nat n)).
Proof.
  intros Hlt. unfold Np.of_nat, Np.of_int. rewrite of_uint63_spec.
  rewrite Uint63.of_Z_spec, Z.mod_small by (change wB with (2 ^ 63); lia).
  destruct (Z.of_nat n) as [|m|m] eqn:Hnz; [done| |lia]. clear Hnz.
  unfold binary_normalize, binary_round, shl_align. rewrite fexp_eq.
  pose proof (Z.pow_pos_nonneg 2 2148 ltac:(lia) ltac:(lia)) as HK.
  assert (Z.pos m * 2 ^ 2148 ≤ 4503599627370496 * 2 ^ (11 + 2148)) as Hbound.
  { rewrite (Z.pow_add_r 2 11 2148) by lia.
    change (2 ^ 63) with (4503599627370496 * 2 ^ 11) in Hlt. nia. }
  destruct (Z.max (Z.pos (digits2_pos m) + 0 - 53) (-1074) - 0) as [|d|d] eqn:Hd.
  - apply (binary_round_aux_upper m 0 4503599627370496 11);
      [lia | rewrite fexp_eq; lia | done | done].
  - apply (binary_round_aux_upper m 0 4503599627370496 11);
      [lia | rewrite fexp_eq; lia | done | done].
  - apply (binary_round_aux_upper _ _ 4503599627370496 11);
      [lia | rewrite fexp_eq, iter_xO_digits; lia | done |].
    rewrite iter_xO_value.
    replace (Z.max (Z.pos (digits2_pos m) + 0 - 53) (-1074)) with (- Z.pos d) by lia.
    replace 2148 with (Z.pos d + (- Z.pos d + 2148)) in Hbound at 1 by lia.
    rewrite (Z.pow_add_r 2 (Z.pos d)) in Hbound by lia. lia.
Qed.

(** A count times a ratio between 0 and 1 is a number that is not
    negative, and [int] turns it into a size. *)
Lemma size_defined (n : nat) (r : float) :
  Z.of_nat n < 2 ^ 63 →
  (0 <=? r)%float = true → (r <=? 1)%float = true →
  ∃ k, int_of_float (Np.of_nat n * r) = Some k ∧ 0 ≤ k.
Proof.
  intros Hn Hlo Hhi. pose proof (of_nat_finite n Hn) as Hx.
  destruct (PyFloatFacts.within_unit r Hlo Hhi) as [Hr Hr1].
  pose proof (scaled_nonneg _ (Prim2SF_valid (Np.of_nat n))) as Hx0.
  destruct (PyFloatFacts.mul_within (Np.of_nat n) r (Np.of_nat n) Hx Hr Hx)
    as [Hfin _]; [by apply Z.mul_le_mono_nonneg_l|].
  unfold int_of_float.
  destruct (Prim2SF (Np.of_nat n * r)) as [s|s| |[] m e]; try done.
  - by exists 0.
  - eexists. split; [done|]. destruct (Z.leb_spec 0 e).
    + apply Z.mul_nonneg_nonneg; [lia | apply Z.pow_nonneg; lia].
    + apply Z.div_pos; [lia | apply Z.pow_pos_nonneg; lia].
Qed.

(** *** Slices *)

Lemma py_slice_partition {A} (l : list A) (a b : Z) :
  0 ≤ a → 0 ≤ b →
  py_slice l None (Some a)
  ++ py_slice l (Some a) (Some (a + b))
  ++ py_slice l (Some (a + b)) None
  = l.
Proof.
  intros Ha Hb. unfold py_slice. cbn [from_option].
  rewrite !(proj2 (Z.ltb_ge _ 0)) by lia.
  set (n := Z.of_nat (length l)).
  rewrite Z.sub_0_r. cbn [Z.to_nat drop].
  set (i := Z.to_nat (Z.min a n)). set (j := Z.to_nat (Z.min (a + b) n)).
  assert (i ≤ j ≤ length l)%nat as Hij by (unfold i, j, n; lia).
  replace (Z.to_nat (Z.min (a + b) n - Z.min a n)) with (j - i)%nat
    by (unfold i, j; lia).
  replace (Z.to_nat (n - Z.min (a + b) n)) with (length l - j)%nat
    by (unfold j, n; lia).
  rewrite (take_ge (drop j l)) by (rewrite length_drop; lia).
  replace (drop j l) with (drop (j - i) (drop i l))
    by (rewrite drop_drop; f_equal; lia).
  by rewrite (take_drop (j - i) (drop i l)), take_drop.
Qed.

End DataPrepFacts.

(** ** The loops of the latency benchmark *)

Module BenchmarkFacts.
Import Evaluate Benchmark.

Section Loops.
Context {Sample : Type}.
Variable model : Sample → bool.
Variable perf_counter : nat → float.
Variable test_samples : list Sample.
Hypothesis model_returns : Forall (λ sample, model sample = true) test_samples.

(** The latency the [k]-th timed run records. *)
Definition latency_of_run (k : nat) : float :=
  ((perf_counter (2 * k + 1) - perf_counter (2 * k)) * 1000)%float.

Lemma warmup_loop (w : nat) (t : Trace) :
  w ≤ length test_samples →
  for_each (seq 0 w) (warmup_run model test_samples) t
  = Some {| calls := calls t ++ take w test_samples; readings := readings t;
            latencies := latencies t |}.
Proof using model_returns.
  intros Hw.
  destruct (TableProofs.for_each_seq_invariant
              (λ i t', t' = {| calls := calls t ++ take i test_samples;
                               readings := readings t;
                               latencies := latencies t |})
              (warmup_run model test_samples) 0 w t) as (t' & -> & ->).
  - destruct t. simpl. by rewrite app_nil_r.
  - intros i t' Hi ->. unfold warmup_run.
    destruct (lookup_lt_is_Some_2 test_samples i) as [sample Hsample]; [lia|].
    rewrite Hsample. cbn [mbind option_bind].
    rewrite Forall_lookup in model_returns. rewrite (model_returns _ _ Hsample).
    eexists. split; [done|]. cbn [calls readings latencies].
    by rewrite (take_S_r _ _ _ Hsample), app_assoc.
  - done.
Qed.

Lemma timed_loop (r : nat) (t : Trace) :
  r ≤ length test_samples → readings t = 0 → latencies t = [] →
  for_each (seq 0 r) (timed_run model perf_counter test_samples) t
  = Some {| calls := calls t ++ take r test_samples; readings := 2 * r;
            latencies := latency_of_run <$> seq 0 r |}.
Proof using model_returns.
  intros Hr Hreadings Hlatencies.
  destruct (TableProofs.for_each_seq_invariant
              (λ i t', t' = {| calls := calls t ++ take i test_samples;
                               readings := 2 * i;
                               latencies := latency_of_run <$> seq 0 i |})
              (timed_run model perf_counter test_samples) 0 r t) as (t' & -> & ->).
  - destruct t. simpl in *. by rewrite app_nil_r, Hreadings, Hlatencies.
  - intros i t' Hi ->. unfold timed_run.
    destruct (lookup_lt_is_Some_2 test_samples i) as [sample Hsample]; [lia|].
    rewrite Hsample. cbn [mbind option_bind].
    rewrite Forall_lookup in model_returns. rewrite (model_returns _ _ Hsample).
    eexists. split; [done|]. cbn [calls readings latencies]. f_equal.
    + by rewrite (take_S_r _ _ _ Hsample), app_assoc.
    + lia.
    + rewrite seq_S, fmap_app. cbn [fmap list_fmap]. unfold latency_of_run.
      by replace (2 * i + 1) with (2 * i + 1) by lia.
  - done.
Qed.

End Loops.
End BenchmarkFacts.

(** * The repository's unit tests, on the embedding

    The cases of [tests/unit/ai_core/test_model_evaluation.py] and of
    [tests/unit/backend/test_pronunciation_service.py] that exercise
    the functions above. *)

Module UnitTests.
Import Evaluate.

(** [approx(expected, abs=1e-6)] *)
Definition approx (x expected : float) : bool :=
  (PrimFloat.abs (x - expected) <=? 1e-6)%float.

Definition correlation_of (r : PyError + GopMetrics) : float :=
  match r with inr metrics => correlation metrics | inl _ => nan end.
Definition mae_of (r : PyError + GopMetrics) : float :=
  match r with inr metrics => mae metrics | inl _ => nan end.
Definition rmse_of (r : PyError + GopMetrics) : float :=
  match r with inr metrics => rmse metrics | inl _ => nan end.

Example test_perfect_correlation :
  approx (correlation_of (calculate_gop_metrics [1; 2; 3; 4; 5] [1; 2; 3; 4; 5])%float) 1 = true
  ∧ approx (mae_of (calculate_gop_metrics [1; 2; 3; 4; 5] [1; 2; 3; 4; 5])%float) 0 = true.
Proof. by vm_compute. Qed.

Example test_zero_correlation :
  approx (correlation_of (calculate_gop_metrics [1; 2; 3; 4; 5] [5; 4; 3; 2; 1])%float) (-1)
  = true.
Proof. by vm_compute. Qed.

Example test_mae_calculation :
  approx (mae_of (calculate_gop_metrics [1; 2; 3] [2; 3; 4])%float) 1 = true.
Proof. by vm_compute. Qed.

Example test_rmse_calculation :
  approx (rmse_of (calculate_gop_metrics [0; 0] [3; 4])%float) (PrimFloat.sqrt 12.5)
  = true.
Proof. by vm_compute. Qed.

Example test_perfect_phoneme_accuracy :
  (calculate_phoneme_accuracy
     [["P"; "AE"; "T"]; ["K"; "AE"; "T"]] [["P"; "AE"; "T"]; ["K"; "AE"; "T"]]
   == 1)%Q.
Proof. by vm_compute. Qed.

Example test_zero_phoneme_accuracy :
  (calculate_phoneme_accuracy [["X"; "Y"; "Z"]] [["A"; "B"; "C"]] == 0)%Q.
Proof. by vm_compute. Qed.

Example test_partial_phoneme_accuracy :
  (calculate_phoneme_accuracy [["P"; "X"; "T"]] [["P"; "AE"; "T"]] == 2 # 3)%Q.
Proof. by vm_compute. Qed.

Example test_different_length_sequences :
  (calculate_phoneme_accuracy [["P"; "AE"]] [["P"; "AE"; "T"]] == 2 # 3)%Q.
Proof. by vm_compute. Qed.

Example test_zero_wer :
  calculate_word_error_rate ["hello world"] ["hello world"] = Some (0 # 2).
Proof. by vm_compute. Qed.

Example test_complete_wer :
  calculate_word_error_rate ["goodbye moon"] ["hello world"] = Some (2 # 2).
Proof. by vm_compute. Qed.

Example test_insertion_error :
  calculate_word_error_rate ["hello beautiful world"] ["hello world"] = Some (1 # 2).
Proof. by vm_compute. Qed.

Example test_deletion_error :
  calculate_word_error_rate ["hello"] ["hello world"] = Some (1 # 2).
Proof. by vm_compute. Qed.

Example test_case_insensitive :
  calculate_word_error_rate ["HELLO WORLD"] ["hello world"] = Some (0 # 2).
Proof. by vm_compute. Qed.

(** The ratio is pooled: one error over the four reference words of
    the corpus, where the mean of the two per-pair ratios would be
    1/6. *)
Example pooled_not_mean_of_ratios :
  calculate_word_error_rate ["a"; "b c"] ["a"; "b c d"] = Some (1 # 4).
Proof. by vm_compute. Qed.

Example test_vietnamese_interference_detection :
  Pronunciation.vietnamese_interference
    (Pronunciation._generate_feedback "think" "think"
       (Pronunciation.scores_of_similarity 1))
  = Some [Pronunciation.tip_th].
Proof. by vm_compute. Qed.

Example test_score_calculation_perfect_match :
  Pronunciation.scores_of_similarity 1
  = {| Pronunciation.overall := 100; Pronunciation.accuracy := 95;
       Pronunciation.fluency := 90; Pronunciation.completeness := 100 |}.
Proof. by vm_compute. Qed.

(** [round] goes by the exact binary value and sends ties to the even
    decimal. *)
Example round1_examples :
  PyFloat.round1 0.25 = 0.2%float
  ∧ PyFloat.round1 0.35 = 0.3%float
  ∧ PyFloat.round1 0.75 = 0.8%float
  ∧ PyFloat.round1 2.675 = 2.7%float
  ∧ PyFloat.round1 (-0.04) = (-0)%float
  ∧ PyFloat.round1 63.33333333333333 = 63.3%float.
Proof. by vm_compute. Qed.

End UnitTests.

(** * Further properties of the code *)

(** ** evaluate.py: word error rate, phoneme accuracy, error analysis *)

Module CorpusProperties.
Import Evaluate CorpusMetrics ErrorMining.

(** X1. When the references hold at least one word, the word error rate
    is 0 exactly when every hypothesis has, after lowercasing and
    splitting at whitespace, the same words as its reference. *)
Theorem wer_zero_iff_word_for_word (hypotheses references : list string) :
  0 < sum_list ((λ pair, length (words pair.2)) <$> zip hypotheses references) →
  ∃ wer,
    calculate_word_error_rate hypotheses references = Some wer
    ∧ ((wer == 0)%Q
       ↔ Forall (λ pair, words pair.1 = words pair.2) (zip hypotheses references)).
Proof.
  intros Hwords. eexists. split; [apply word_error_rate_closed_form|].
  rewrite QFacts.pooled_ratio_zero by done.
  rewrite ListFacts.sum_list_zero, Forall_fmap. apply Forall_iff.
  intros [hyp ref]. simpl. rewrite LevenshteinFacts.levenshtein_zero_iff.
  by split.
Qed.

Lemma wer_zero_iff_word_for_word_witness :
  ∃ wer,
    calculate_word_error_rate ["Hello   World"] ["hello world"] = Some wer
    ∧ ((wer == 0)%Q
       ↔ Forall (λ pair, words pair.1 = words pair.2)
           (zip ["Hello   World"] ["hello world"])).
Proof.
  apply (wer_zero_iff_word_for_word ["Hello   World"] ["hello world"]).
  vm_compute. lia.
Defined.

(** X2. References of whitespace only (or empty) give a word error
    rate of 0, whatever the hypotheses say: the words the hypotheses
    insert are counted in the numerator and then dropped with it. *)
Theorem wer_zero_without_reference_words (hypotheses references : list string) :
  Forall (λ ref, SplitFacts.blank ref = true) references →
  calculate_word_error_rate hypotheses references = Some 0%Q.
Proof.
  intros Hblank. rewrite word_error_rate_closed_form. unfold pooled_ratio.
  rewrite bool_decide_eq_false_2; [done|].
  assert (sum_list ((λ pair : string * string, length (words pair.2))
                      <$> zip hypotheses references) = 0) as ->; [|lia].
  apply ListFacts.sum_list_zero, Forall_fmap.
  revert hypotheses. induction Hblank as [|ref refs Href _ IH];
    intros [|hyp hyps]; simpl; try by constructor.
  constructor; [|apply IH].
  simpl. by rewrite (proj2 (SplitFacts.words_nil ref) Href).
Qed.

Lemma wer_zero_without_reference_words_witness :
  calculate_word_error_rate ["hello world"; "again"] ["  "; ""] = Some 0%Q.
Proof.
  apply (wer_zero_without_reference_words ["hello world"; "again"] ["  "; ""]).
  repeat constructor.
Defined.

(** X3. When nothing is recognised (every hypothesis is empty or
    whitespace only) and the references hold at least one word, every
    reference word counts as one deletion and the word error rate is
    exactly 1. *)
Theorem wer_one_when_nothing_is_recognised (hypotheses references : list string) :
  Forall (λ hyp, SplitFacts.blank hyp = true) hypotheses →
  0 < sum_list ((λ pair, length (words pair.2)) <$> zip hypotheses references) →
  ∃ wer,
    calculate_word_error_rate hypotheses references = Some wer ∧ (wer == 1)%Q.
Proof.
  intros Hblank Hwords. eexists. split; [apply word_error_rate_closed_form|].
  apply QFacts.pooled_ratio_one; [done|]. f_equal.
  clear Hwords. revert references.
  induction Hblank as [|hyp hyps Hhyp _ IH]; intros [|ref refs]; try done.
  cbn [zip zip_with fmap list_fmap fst snd]. rewrite (IH refs).
  by rewrite (proj2 (SplitFacts.words_nil hyp) Hhyp), Levenshtein.levenshtein_nil_r.
Qed.

Lemma wer_one_when_nothing_is_recognised_witness :
  ∃ wer,
    calculate_word_error_rate [""; "  "] ["hello world"; "good morning"] = Some wer
    ∧ (wer == 1)%Q.
Proof.
  apply (wer_one_when_nothing_is_recognised [""; "  "] ["hello world"; "good morning"]).
  - repeat constructor.
  - vm_compute. lia.
Defined.

(** X4. The edit distance of a pair lies between the difference and the
    larger of the two word counts.  So the word error rate is at most 1
    when no hypothesis has more words than its reference (only
    insertions can push it above 1), and it is never negative. *)
Theorem wer_at_most_one_without_longer_hypotheses
    (hypotheses references : list string) :
  Forall (λ pair, length (words pair.1) ≤ length (words pair.2))
         (zip hypotheses references) →
  ∃ wer,
    calculate_word_error_rate hypotheses references = Some wer
    ∧ (0 <= wer)%Q ∧ (wer <= 1)%Q.
Proof.
  intros Hshort. eexists. split; [apply word_error_rate_closed_form|].
  apply QFacts.pooled_ratio_unit, ListFacts.sum_list_fmap_le.
  eapply Forall_impl; [exact Hshort|]. intros [hyp ref] Hle. simpl in *.
  pose proof (LevenshteinFacts.levenshtein_le_max (words ref) (words hyp)). lia.
Qed.

Lemma wer_at_most_one_without_longer_hypotheses_witness :
  ∃ wer,
    calculate_word_error_rate ["the cat"; "a dog barks"] ["the cat sat"; "one dog barked"]
    = Some wer
    ∧ (0 <= wer)%Q ∧ (wer <= 1)%Q.
Proof.
  apply (wer_at_most_one_without_longer_hypotheses
           ["the cat"; "a dog barks"] ["the cat sat"; "one dog barked"]).
  repeat constructor.
Defined.

(** X5. The word error rate does not see case: texts that are equal
    once lowercased give the same rate. *)
Theorem wer_case_insensitive (hypotheses hypotheses' references references' : list string) :
  Forall2 (λ a b, PyStr.lower a = PyStr.lower b) hypotheses hypotheses' →
  Forall2 (λ a b, PyStr.lower a = PyStr.lower b) references references' →
  calculate_word_error_rate hypotheses references
  = calculate_word_error_rate hypotheses' references'.
Proof.
  intros Hh Hr. rewrite !word_error_rate_closed_form.
  pose proof (CorpusFacts.words_pairs_case_insensitive _ _ _ _ Hh Hr) as Hpairs.
  apply (f_equal (fmap (λ ws : list string * list string,
                          Levenshtein.levenshtein ws.2 ws.1))) in Hpairs as Hd.
  apply (f_equal (fmap (λ ws : list string * list string, length ws.2)))
    in Hpairs as Hn.
  rewrite <- !list_fmap_compose in Hd, Hn. unfold compose in Hd, Hn. simpl in Hd, Hn.
  by rewrite Hd, Hn.
Qed.

Lemma wer_case_insensitive_witness :
  calculate_word_error_rate ["The CAT sat"] ["the cat SAT down"]
  = calculate_word_error_rate ["the cat sat"] ["THE CAT sat DOWN"].
Proof.
  apply (wer_case_insensitive
           ["The CAT sat"] ["the cat sat"] ["the cat SAT down"] ["THE CAT sat DOWN"]);
    repeat constructor.
Defined.

(** X6. The corpus functions pair their two lists with [zip]: the items
    of the longer list that have no partner are ignored, without any
    error. *)
Theorem unpaired_items_are_ignored
    (hypotheses references : list string)
    (predicted_phonemes ground_truth_phonemes : list (list string))
    (predictions ground_truths : list (gmap string (list string))) :
  calculate_word_error_rate hypotheses references
  = calculate_word_error_rate
      (take (length hypotheses `min` length references) hypotheses)
      (take (length hypotheses `min` length references) references)
  ∧ calculate_phoneme_accuracy predicted_phonemes ground_truth_phonemes
    = calculate_phoneme_accuracy
        (take (length predicted_phonemes `min` length ground_truth_phonemes)
              predicted_phonemes)
        (take (length predicted_phonemes `min` length ground_truth_phonemes)
              ground_truth_phonemes)
  ∧ generate_error_analysis predictions ground_truths
    = generate_error_analysis
        (take (length predictions `min` length ground_truths) predictions)
        (take (length predictions `min` length ground_truths) ground_truths).
Proof.
  unfold calculate_word_error_rate, calculate_phoneme_accuracy,
    generate_error_analysis.
  by rewrite !ListFacts.zip_take_min.
Qed.

(** X7. Phoneme accuracy always lies between 0 and 1. *)
Theorem phoneme_accuracy_between_0_and_1
    (predicted_phonemes ground_truth_phonemes : list (list string)) :
  (0 <= calculate_phoneme_accuracy predicted_phonemes ground_truth_phonemes)%Q
  ∧ (calculate_phoneme_accuracy predicted_phonemes ground_truth_phonemes <= 1)%Q.
Proof.
  rewrite phoneme_accuracy_closed_form.
  apply QFacts.pooled_ratio_unit, ListFacts.sum_list_fmap_le, Forall_forall.
  intros [pred gt] _. apply CorpusFacts.positional_matches_le.
Qed.

(** X8. When the ground truth holds at least one phoneme, the accuracy
    is 1 exactly when every ground-truth sequence is a prefix of its
    prediction: phonemes predicted beyond the end of the ground truth are
    never penalised. *)
Theorem phoneme_accuracy_one_iff_prefix
    (predicted_phonemes ground_truth_phonemes : list (list string)) :
  0 < sum_list (length <$> (zip predicted_phonemes ground_truth_phonemes).*2) →
  (calculate_phoneme_accuracy predicted_phonemes ground_truth_phonemes == 1)%Q
  ↔ Forall (λ pair, pair.2 `prefix_of` pair.1)
           (zip predicted_phonemes ground_truth_phonemes).
Proof.
  rewrite <- list_fmap_compose. intros Htotal.
  rewrite phoneme_accuracy_closed_form, QFacts.pooled_ratio_one by done.
  rewrite ListFacts.sum_list_fmap_eq_iff.
  - apply Forall_iff. intros [pred gt]. apply CorpusFacts.positional_matches_all.
  - apply Forall_forall. intros [pred gt] _. apply CorpusFacts.positional_matches_le.
Qed.

Lemma phoneme_accuracy_one_iff_prefix_witness :
  (calculate_phoneme_accuracy [["K"; "AE"; "T"; "S"]] [["K"; "AE"; "T"]] == 1)%Q
  ↔ Forall (λ pair : list string * list string, pair.2 `prefix_of` pair.1)
           (zip [["K"; "AE"; "T"; "S"]] [["K"; "AE"; "T"]]).
Proof.
  apply (phoneme_accuracy_one_iff_prefix [["K"; "AE"; "T"; "S"]] [["K"; "AE"; "T"]]).
  vm_compute. lia.
Defined.

(** X9. The list of top errors is empty exactly when, in every pair of
    records, the two phoneme sequences agree at each position they
    share.  Positions that only one of the two sequences has are never
    reported: a prediction that drops the last phonemes of the ground
    truth counts as free of errors. *)
Theorem no_error_iff_shared_positions_agree
    (predictions ground_truths : list (gmap string (list string))) :
  top_phoneme_errors (generate_error_analysis predictions ground_truths) = []
  ↔ Forall (λ pair, ∀ i p g,
               phonemes_of pair.1 !! i = Some p →
               phonemes_of pair.2 !! i = Some g → p = g)
           (zip predictions ground_truths).
Proof.
  rewrite ErrorMiningFacts.top_errors_of_tally,
          <- ErrorMiningFacts.mismatch_keys_nil.
  set (keys := mismatch_keys predictions ground_truths).
  rewrite <- (ErrorMiningFacts.tally_nil keys).
  set (key := (λ x : string * nat, - Z.of_nat x.2)%Z).
  pose proof (sorted_perm key (foldl bump [] keys)) as Hperm.
  split.
  - intros Htake. destruct (sorted key (foldl bump [] keys)) as [|e l]; [|done].
    by apply Permutation_nil_l in Hperm.
  - intros Hnil. rewrite Hnil in *. by apply Permutation_nil_r in Hperm as ->.
Qed.

(** X10. The returned dict has at most 10 entries, and its counts add up
    to at most the number of mismatching positions of the corpus, each
    mismatch being counted once: to exactly that number when no more
    than 10 different keys occur. *)
Theorem top_errors_count_each_mismatch_once
    (predictions ground_truths : list (gmap string (list string))) :
  let top := top_phoneme_errors (generate_error_analysis predictions ground_truths) in
  let keys := mismatch_keys predictions ground_truths in
  length top ≤ 10
  ∧ sum_list top.*2 ≤ length keys
  ∧ (length (remove_dups keys) ≤ 10 → sum_list top.*2 = length keys).
Proof.
  intros top keys. unfold top. rewrite ErrorMiningFacts.top_errors_of_tally.
  fold keys. set (key := (λ x : string * nat, - Z.of_nat x.2)%Z).
  pose proof (sorted_perm key (foldl bump [] keys)) as Hperm.
  pose proof (ErrorMiningFacts.tally_total keys) as Htotal.
  assert (sum_list (sorted key (foldl bump [] keys)).*2 = length keys) as Hsum.
  { rewrite <- Htotal. by rewrite Hperm. }
  split_and!.
  - rewrite length_take. lia.
  - rewrite fmap_take, <- Hsum. apply ErrorMiningFacts.sum_list_take_le.
  - intros Hfew. rewrite take_ge; [done|].
    destruct (tally_invariant keys) as (Hnd & Hdom & _). cbn zeta in *.
    rewrite Hperm, <- (length_fmap fst).
    assert ((foldl bump [] keys).*1 ≡ₚ remove_dups keys) as ->; [|done].
    apply NoDup_Permutation; [done | apply NoDup_remove_dups |].
    intros k. by rewrite Hdom, elem_of_remove_dups.
Qed.

End CorpusProperties.

(** ** evaluate.py: the GOP metrics *)

Module GopProperties.
Import Evaluate.
Open Scope float_scope.

(** X11. On arrays of one length the three GOP metrics stay in their
    ranges, whatever the scores: the mean absolute error and the root
    mean square error are never negative, and the correlation lies
    between -1 and 1.  The only other value any of them takes is NaN. *)
Theorem gop_metrics_stay_in_range (predicted_scores ground_truth_scores : list float) :
  length predicted_scores = length ground_truth_scores →
  ∃ metrics,
    calculate_gop_metrics predicted_scores ground_truth_scores = inr metrics
    ∧ (correlation metrics = nan
       ∨ ((-1 <=? correlation metrics) = true ∧ (correlation metrics <=? 1) = true))
    ∧ ((0 <=? mae metrics) = true ∨ mae metrics = nan)
    ∧ ((0 <=? rmse metrics) = true ∨ rmse metrics = nan).
Proof.
  intros Hlen. unfold calculate_gop_metrics.
  rewrite bool_decide_eq_true_2 by done. eexists. split; [done|].
  cbn [correlation mae rmse]. split_and!.
  - apply GopRanges.clip_unit_range.
  - apply GopRanges.not_negative_leb, GopRanges.mean_sign, Forall_fmap, Forall_forall.
    intros d _. apply GopRanges.abs_sign.
  - apply GopRanges.not_negative_leb, GopRanges.sqrt_sign, GopRanges.mean_sign,
      Forall_fmap, Forall_forall.
    intros d _. apply GopRanges.square_sign.
Qed.

Lemma gop_metrics_stay_in_range_witness :
  ∃ metrics,
    calculate_gop_metrics [0.2; 0.9; 0.4] [0.3; 0.8; 0.1] = inr metrics
    ∧ (correlation metrics = nan
       ∨ ((-1 <=? correlation metrics) = true ∧ (correlation metrics <=? 1) = true))
    ∧ ((0 <=? mae metrics) = true ∨ mae metrics = nan)
    ∧ ((0 <=? rmse metrics) = true ∨ rmse metrics = nan).
Proof.
  apply (gop_metrics_stay_in_range [0.2; 0.9; 0.4] [0.3; 0.8; 0.1]). reflexivity.
Defined.

(** X12. A perfect prediction has no error: when the predicted scores
    are the ground-truth scores, all of them numbers (no infinity, no
    NaN) and at least one, the mean absolute error and the root mean
    square error are exactly 0. *)
Theorem gop_errors_vanish_on_perfect_prediction (scores : list float) :
  Forall GopRanges.finite_float scores →
  (0 < length scores)%nat → (Z.of_nat (length scores) < 2 ^ 63)%Z →
  ∃ metrics,
    calculate_gop_metrics scores scores = inr metrics
    ∧ mae metrics = 0 ∧ rmse metrics = 0.
Proof.
  intros Hfinite Hpos Hlt. unfold calculate_gop_metrics.
  rewrite bool_decide_eq_true_2 by done. eexists. split; [done|].
  cbn [mae rmse]. rewrite GopRanges.subtract_diag by done.
  rewrite !fmap_replicate.
  change (abs 0) with 0. change (0 * 0) with 0.
  by rewrite GopRanges.mean_zeros.
Qed.

Lemma gop_errors_vanish_on_perfect_prediction_witness :
  ∃ metrics,
    calculate_gop_metrics [0.25; 0.5; 0.875] [0.25; 0.5; 0.875] = inr metrics
    ∧ mae metrics = 0 ∧ rmse metrics = 0.
Proof.
  apply (gop_errors_vanish_on_perfect_prediction [0.25; 0.5; 0.875]).
  - repeat constructor.
  - simpl. lia.
  - simpl. lia.
Defined.

End GopProperties.

(** ** evaluate.py: the latency benchmark *)

Module BenchmarkProperties.
Import Benchmark.

(** X13. When the model returns on every sample, and there is at least
    one sample and one timed run, [benchmark_latency] calls the model on
    the first [min(num_warmup, n)] samples and then on the first
    [min(num_runs, n)] samples again ([n] the number of samples; a
    negative [num_warmup] counts as 0).  Only the second series is
    timed: two readings of the clock around each call, and one latency
    per call, the difference of its two readings times 1000.  The
    statistics are those of these latencies: with fewer samples than
    [num_runs] they rest on [n] latencies only. *)
Theorem benchmark_times_the_first_samples {Sample : Type}
    (model : Sample → bool) (perf_counter : nat → float)
    (np_percentile : list float → float → float)
    (np_mean np_std : list float → float)
    (test_samples : list Sample) (num_warmup num_runs : Z) :
  Forall (λ sample, model sample = true) test_samples →
  0 < length test_samples → (0 < num_runs)%Z →
  ∃ trace stats,
    benchmark_latency model perf_counter np_percentile np_mean np_std
      test_samples num_warmup num_runs
    = Some (trace, stats)
    ∧ calls trace
      = take (Z.to_nat (num_warmup `min` Z.of_nat (length test_samples))) test_samples
        ++ take (Z.to_nat (num_runs `min` Z.of_nat (length test_samples))) test_samples
    ∧ readings trace
      = 2 * Z.to_nat (num_runs `min` Z.of_nat (length test_samples))
    ∧ latencies trace
      = BenchmarkFacts.latency_of_run perf_counter
          <$> seq 0 (Z.to_nat (num_runs `min` Z.of_nat (length test_samples)))
    ∧ latencies trace ≠ []
    ∧ stats = {| p50 := np_percentile (latencies trace) 50%float;
                 p90 := np_percentile (latencies trace) 90%float;
                 p99 := np_percentile (latencies trace) 99%float;
                 mean := np_mean (latencies trace);
                 std := np_std (latencies trace) |}.
Proof.
  intros Hreturns Hsamples Hruns. unfold benchmark_latency, Evaluate.range.
  rewrite !Nat.sub_0_r.
  rewrite (BenchmarkFacts.warmup_loop model test_samples Hreturns) by lia.
  cbn [mbind option_bind calls readings latencies].
  rewrite (BenchmarkFacts.timed_loop model perf_counter test_samples Hreturns)
    by (done || lia).
  cbn [mbind option_bind calls readings latencies].
  destruct (Z.to_nat (num_runs `min` Z.of_nat (length test_samples)))
    as [|runs] eqn:Hruns'; [lia|].
  cbn [seq fmap list_fmap]. do 2 eexists. split; [done|].
  cbn [calls readings latencies]. by split_and!.
Qed.

Lemma benchmark_times_the_first_samples_witness :
  ∃ trace stats,
    benchmark_latency (λ _ : string, true) (λ k, Np.of_nat k)
      (λ _ _, 0%float) (λ _, 0%float) (λ _, 0%float) ["a"; "b"; "c"] 2 100
    = Some (trace, stats)
    ∧ calls trace
      = take (Z.to_nat (2 `min` Z.of_nat (length ["a"; "b"; "c"]))) ["a"; "b"; "c"]
        ++ take (Z.to_nat (100 `min` Z.of_nat (length ["a"; "b"; "c"]))) ["a"; "b"; "c"]
    ∧ readings trace
      = 2 * Z.to_nat (100 `min` Z.of_nat (length ["a"; "b"; "c"]))
    ∧ latencies trace
      = BenchmarkFacts.latency_of_run (λ k, Np.of_nat k)
          <$> seq 0 (Z.to_nat (100 `min` Z.of_nat (length ["a"; "b"; "c"])))
    ∧ latencies trace ≠ []
    ∧ stats = {| p50 := (λ _ _, 0%float) (latencies trace) 50%float;
                 p90 := (λ _ _, 0%float) (latencies trace) 90%float;
                 p99 := (λ _ _, 0%float) (latencies trace) 99%float;
                 mean := (λ _, 0%float) (latencies trace);
                 std := (λ _, 0%float) (latencies trace) |}.
Proof.
  apply (benchmark_times_the_first_samples (λ _ : string, true) (λ k, Np.of_nat k)
           (λ _ _, 0%float) (λ _, 0%float) (λ _, 0%float) ["a"; "b"; "c"] 2 100).
  - repeat constructor.
  - simpl. lia.
  - lia.
Defined.

End BenchmarkProperties.

(** ** pronunciation.py: the service *)

Module ServiceProperties.
Import Pronunciation.

(** X14. [transcribe] joins the texts of the recognised segments with
    single spaces and strips the result: whenever the recogniser
    answers, the transcription is returned and carries no whitespace
    at either end (it may be empty). *)
Theorem transcription_is_stripped
    (asr_segments : list float → option (list string))
    (audio : list float) (segments : list string) :
  asr_segments audio = Some segments →
  ∃ transcription,
    Service.transcribe asr_segments audio = Some transcription
    ∧ transcription = PyStr2.strip (PyStr2.join " " segments)
    ∧ match PyStr2Facts.first_char transcription,
            PyStr2Facts.last_char transcription with
      | None, None => transcription = EmptyString
      | Some a, Some b => PyStr.is_space a = false ∧ PyStr.is_space b = false
      | _, _ => False
      end.
Proof.
  intros Hasr. unfold Service.transcribe. rewrite Hasr. simpl.
  eexists. split; [done|]. split; [done|]. apply PyStr2Facts.strip_ends.
Qed.

Lemma transcription_is_stripped_witness :
  ∃ transcription,
    Service.transcribe (λ _, Some [" Hello"; "world. "; " "]) [0%float]
    = Some transcription
    ∧ transcription = PyStr2.strip (PyStr2.join " " [" Hello"; "world. "; " "])
    ∧ match PyStr2Facts.first_char transcription,
            PyStr2Facts.last_char transcription with
      | None, None => transcription = EmptyString
      | Some a, Some b => PyStr.is_space a = false ∧ PyStr.is_space b = false
      | _, _ => False
      end.
Proof.
  apply (transcription_is_stripped (λ _, Some [" Hello"; "world. "; " "]) [0%float]).
  reflexivity.
Defined.

(** X15. On the scores the service computes itself, the two suggestions
    are nested: whenever the recogniser answers and the similarity ratio
    lies in [0, 1], [analyze] returns a result whose suggestions are
    none, the slow-down one alone, or the slow-down one followed by the
    no-pauses one.  The no-pauses suggestion (fluency below 60) never
    comes without the slow-down suggestion (overall below 70). *)
Theorem analyze_suggestions_are_nested
    (asr_segments : list float → option (list string))
    (sequence_matcher_ratio : string → string → float)
    (audio : list float) (reference_text : string) (segments : list string) :
  (∀ a b, (0 <=? sequence_matcher_ratio a b)%float = true
          ∧ (sequence_matcher_ratio a b <=? 1)%float = true) →
  asr_segments audio = Some segments →
  ∃ result,
    Service.analyze asr_segments sequence_matcher_ratio audio reference_text
    = Some result
    ∧ Service.transcription result = PyStr2.strip (PyStr2.join " " segments)
    ∧ (suggestions (Service.feedback result) = []
       ∨ suggestions (Service.feedback result) = [suggest_slow_down]
       ∨ suggestions (Service.feedback result)
         = [suggest_slow_down; suggest_no_pauses]).
Proof.
  intros Hratio Hasr. unfold Service.analyze, Service.transcribe.
  rewrite Hasr. simpl. eexists. split; [done|]. split; [done|].
  cbn [Service.feedback]. unfold _generate_feedback, _calculate_scores.
  cbn [suggestions overall fluency scores_of_similarity].
  set (s := sequence_matcher_ratio _ _).
  destruct (Hratio (PyStr.lower reference_text)
              (PyStr.lower (PyStr2.strip (PyStr2.join " " segments)))) as [Hlo Hhi].
  fold s in Hlo, Hhi.
  destruct (PyFloatFacts.within_unit s Hlo Hhi) as [Hs Hs1].
  assert (PyFloatFacts.within (s * 100) (100 * 2 ^ 1074)) as Hx.
  { rewrite <- PyFloatFacts.scaled_hundred.
    apply PyFloatFacts.mul_within; [done | done | done |].
    pose proof (Binary64.scaled_nonneg _ (Prim2SF_valid 100)).
    rewrite Z.mul_comm. by apply Z.mul_le_mono_nonneg_l. }
  pose proof (ScoreFacts.round1_0_9_of_70 _ Hx) as Hnested.
  destruct (PyFloat.round1 (s * 100) <? 70)%float eqn:H70.
  - destruct (PyFloat.round1 (s * 100 * 0.9) <? 60)%float; auto.
  - rewrite Hnested by done. auto.
Qed.

Lemma analyze_suggestions_are_nested_witness :
  ∃ result,
    Service.analyze (λ _, Some ["I sink so"])
      (λ a b, if bool_decide (a = b) then 1%float else 0.5%float)
      [0%float] "I think so"
    = Some result
    ∧ Service.transcription result = PyStr2.strip (PyStr2.join " " ["I sink so"])
    ∧ (suggestions (Service.feedback result) = []
       ∨ suggestions (Service.feedback result) = [suggest_slow_down]
       ∨ suggestions (Service.feedback result)
         = [suggest_slow_down; suggest_no_pauses]).
Proof.
  apply (analyze_suggestions_are_nested (λ _, Some ["I sink so"])
           (λ a b, if bool_decide (a = b) then 1%float else 0.5%float)
           [0%float] "I think so" ["I sink so"]); [|reflexivity].
  intros a b. by case_bool_decide.
Defined.

End ServiceProperties.

(** ** audio.py: validation *)

Module AudioProperties.
Import Audio.

(** X16. For an upload that decodes, [validate] raises nothing and
    reports exactly the issues of the length in milliseconds and of the
    frame rate: "too long" above 30000 ms, "too short" below 500 ms,
    "sample rate too low" below 8000 Hz, in that order.  The upload is
    valid exactly when its length lies between 500 and 30000 ms and its
    rate is at least 8000 Hz; the number of channels is never
    looked at.  (Default settings; lengths below 2^1000 ms.) *)
Theorem validate_thresholds_in_milliseconds
    (from_file : list Byte.byte → option AudioSegment)
    (audio_data : list Byte.byte) (audio : AudioSegment) :
  from_file audio_data = Some audio →
  (Z.of_nat (len audio) < 2 ^ 1000)%Z →
  ∃ v,
    validate default_settings from_file audio_data = Some v
    ∧ PyNum.true_div (Z.of_nat (len audio)) 1000 = Some (duration v)
    ∧ sample_rate v = frame_rate audio
    ∧ channels v = segment_channels audio
    ∧ issues v
      = (if bool_decide (30000 < Z.of_nat (len audio))%Z
         then ["Audio too long (" +:+ PyNum.format_1f (duration v) +:+ "s > 30s)"]
         else [])
        ++ (if bool_decide (Z.of_nat (len audio) < 500)%Z
            then ["Audio too short (< 0.5s)"] else [])
        ++ (if bool_decide (frame_rate audio < 8000)%Z
            then ["Sample rate too low (" +:+ PyNum.str_of_int (frame_rate audio)
                  +:+ " < 8000 Hz)"]
            else [])
    ∧ (is_valid v = true
       ↔ (500 ≤ Z.of_nat (len audio) ≤ 30000)%Z ∧ (8000 ≤ frame_rate audio)%Z).
Proof.
  intros Hdecode Hlen. unfold validate. rewrite Hdecode.
  destruct (AudioFacts.duration_of_length (len audio) Hlen)
    as (d & -> & Hlong & Hshort).
  cbn [mbind option_bind AUDIO_MAX_DURATION default_settings].
  rewrite Hlong, Hshort. eexists. split; [done|].
  cbn [duration sample_rate channels issues is_valid].
  split; [done|]. split; [done|]. split; [done|].
  destruct (Z.ltb_spec (frame_rate audio) 8000) as [Hrate|Hrate].
  - rewrite (bool_decide_eq_true_2 (frame_rate audio < 8000)%Z) by done.
    split; [by repeat case_bool_decide|].
    rewrite bool_decide_eq_true. split; [|lia].
    repeat case_bool_decide; simpl; intros; discriminate.
  - rewrite (bool_decide_eq_false_2 (frame_rate audio < 8000)%Z) by lia.
    split; [by repeat case_bool_decide|].
    rewrite bool_decide_eq_true.
    repeat case_bool_decide; simpl; split; intros; (done || lia).
Qed.

Lemma validate_thresholds_in_milliseconds_witness :
  ∃ v,
    validate default_settings
      (λ _, Some {| len := 250; frame_rate := 7350; segment_channels := 2 |}) []
    = Some v
    ∧ PyNum.true_div (Z.of_nat 250) 1000 = Some (duration v)
    ∧ sample_rate v = 7350%Z
    ∧ channels v = 2%Z
    ∧ issues v
      = (if bool_decide (30000 < Z.of_nat 250)%Z
         then ["Audio too long (" +:+ PyNum.format_1f (duration v) +:+ "s > 30s)"]
         else [])
        ++ (if bool_decide (Z.of_nat 250 < 500)%Z
            then ["Audio too short (< 0.5s)"] else [])
        ++ (if bool_decide (7350 < 8000)%Z
            then ["Sample rate too low (" +:+ PyNum.str_of_int 7350
                  +:+ " < 8000 Hz)"]
            else [])
    ∧ (is_valid v = true
       ↔ (500 ≤ Z.of_nat 250 ≤ 30000)%Z ∧ (8000 ≤ 7350)%Z).
Proof.
  apply (validate_thresholds_in_milliseconds
           (λ _, Some {| len := 250; frame_rate := 7350; segment_channels := 2 |})
           [] {| len := 250; frame_rate := 7350; segment_channels := 2 |}).
  - reflexivity.
  - cbn [len]. apply Z.ltb_lt. vm_compute. reflexivity.
Defined.

End AudioProperties.

(** ** data_prep.py: the manifest *)

Module DataPrepProperties.
Import DataPrep.

(** X17. A line of the prompts file becomes a record exactly when, once
    stripped of the whitespace around it, it holds a space: the record
    then splits the stripped line at its first space (the id has no
    space in it, and id, a space and the text give the stripped line
    back), and the audio path is the id followed by ".wav".  A line
    without a space, such as an id followed by a tab, is skipped. *)
Theorem parse_line_splits_at_first_space (line : string) :
  match parse_line line with
  | Some sample =>
      PyStr2.strip line = audio_id sample +:+ " " +:+ text sample
      ∧ PyStr.contains " " (audio_id sample) = false
      ∧ audio_path sample = audio_id sample +:+ ".wav"
  | None => PyStr.contains " " (PyStr2.strip line) = false
  end.
Proof.
  unfold parse_line.
  destruct (DataPrepFacts.split_space_once_spec (PyStr2.strip line))
    as [[-> Hnone]|(a & t & -> & Hline & Ha)]; [done|].
  by cbn [audio_id text audio_path].
Qed.

(** X18. With two ratios between 0 and 1 the splits are a partition of
    the shuffled frame: the train, validation and test frames, in this
    order, give the shuffled frame back, so that every record parsed
    from the prompts file lands in exactly one split and the three
    returned sizes add up to the number of records.  The third ratio of
    the tuple is never read: the test split is whatever remains. *)
Theorem vivos_splits_partition_the_records
    (shuffle : list Sample → list Sample)
    (lines : list string) (r0 r1 : float) (more : list float) :
  (∀ df, shuffle df ≡ₚ df) →
  (Z.of_nat (length (load lines)) < 2 ^ 63)%Z →
  (0 <=? r0)%float = true → (r0 <=? 1)%float = true →
  (0 <=? r1)%float = true → (r1 <=? 1)%float = true →
  ∃ train_df val_df test_df,
    vivos_splits shuffle lines (r0 :: r1 :: more) = Some (train_df, val_df, test_df)
    ∧ train_df ++ val_df ++ test_df = shuffle (load lines)
    ∧ train_df ++ val_df ++ test_df ≡ₚ omap parse_line lines
    ∧ prepare_vivos_dataset shuffle (Some lines) (r0 :: r1 :: more)
      = Some {| train := length train_df; val := length val_df;
                test := length test_df |}
    ∧ length train_df + length val_df + length test_df
      = length (omap parse_line lines).
Proof.
  intros Hperm Hn H0lo H0hi H1lo H1hi.
  destruct (DataPrepFacts.size_defined _ r0 Hn H0lo H0hi) as (a & Ha & Ha0).
  destruct (DataPrepFacts.size_defined _ r1 Hn H1lo H1hi) as (b & Hb & Hb0).
  unfold prepare_vivos_dataset, vivos_splits. cbn [lookup list_lookup].
  cbn [mbind option_bind]. rewrite Ha. cbn [mbind option_bind]. rewrite Hb.
  cbn [mbind option_bind].
  pose proof (DataPrepFacts.py_slice_partition (shuffle (load lines)) a b Ha0 Hb0)
    as Hpart.
  do 3 eexists. split; [done|]. split; [exact Hpart|].
  split; [by rewrite Hpart, Hperm, DataPrepFacts.load_omap|].
  split; [done|].
  rewrite <- !length_app, <- app_assoc, Hpart, Hperm, DataPrepFacts.load_omap.
  done.
Qed.

Lemma vivos_splits_partition_the_records_witness :
  ∃ train_df val_df test_df,
    vivos_splits (@reverse Sample)
      ["S1_001 xin chao"; ""; "S1_002 cam on"; "S1_003"; "S2_001 tam biet"]
      (0.8 :: 0.1 :: [0.1])%float
    = Some (train_df, val_df, test_df)
    ∧ train_df ++ val_df ++ test_df
      = reverse (load ["S1_001 xin chao"; ""; "S1_002 cam on"; "S1_003";
                       "S2_001 tam biet"])
    ∧ train_df ++ val_df ++ test_df
      ≡ₚ omap parse_line ["S1_001 xin chao"; ""; "S1_002 cam on"; "S1_003";
                          "S2_001 tam biet"]
    ∧ prepare_vivos_dataset (@reverse Sample)
        (Some ["S1_001 xin chao"; ""; "S1_002 cam on"; "S1_003"; "S2_001 tam biet"])
        (0.8 :: 0.1 :: [0.1])%float
      = Some {| train := length train_df; val := length val_df;
                test := length test_df |}
    ∧ length train_df + length val_df + length test_df
      = length (omap parse_line ["S1_001 xin chao"; ""; "S1_002 cam on"; "S1_003";
                                 "S2_001 tam biet"]).
Proof.
  apply (vivos_splits_partition_the_records (@reverse Sample)
           ["S1_001 xin chao"; ""; "S1_002 cam on"; "S1_003"; "S2_001 tam biet"]
           0.8 0.1 [0.1%float]).
  - intros df. apply reverse_Permutation.
  - apply Z.ltb_lt. vm_compute. reflexivity.
  - reflexivity.
  - reflexivity.
  - reflexivity.
  - reflexivity.
Defined.

End DataPrepProperties.

(** ** tools.py: the feedback tool *)

Module ToolProperties.
Import Tools.

(** X19. The [phoneme_count] of the feedback tool counts
    whitespace-separated words, not phonemes: it is 0 exactly for a text
    of whitespace only, and the count of two texts joined by a
    whitespace character is the sum of their counts. *)
Theorem phoneme_count_counts_words
    (text more : string) (c : ascii) (detected_phonemes : option (list string)) :
  (phoneme_count (get_phoneme_feedback_tool text detected_phonemes) = 0
   ↔ SplitFacts.blank text = true)
  ∧ (PyStr.is_space c = true →
     phoneme_count
       (get_phoneme_feedback_tool (text +:+ String c more) detected_phonemes)
     = phoneme_count (get_phoneme_feedback_tool text detected_phonemes)
       + phoneme_count (get_phoneme_feedback_tool more detected_phonemes)).
Proof.
  cbn [phoneme_count get_phoneme_feedback_tool]. split.
  - rewrite <- SplitFacts.split_nil. by destruct (PyStr.split text).
  - intros Hc. by rewrite SplitFacts.split_app_space, length_app.
Qed.

(** X20. The tips of the feedback tool are drawn, in this order, from
    the "th", "r" and final-consonant patterns only: the short-vowel
    pattern of the table is never returned, whatever the text.  The
    detected phonemes handed to the tool have no influence on its
    result. *)
Theorem tool_never_returns_short_vowel_pattern
    (text : string) (detected_phonemes : option (list string)) :
  vietnamese_specific_tips (get_phoneme_feedback_tool text detected_phonemes)
    `sublist_of` [pattern_th; pattern_r; pattern_final_consonants]
  ∧ Forall (λ pattern, pattern ≠ pattern_short_vowels)
           (vietnamese_specific_tips
              (get_phoneme_feedback_tool text detected_phonemes))
  ∧ get_phoneme_feedback_tool text detected_phonemes
    = get_phoneme_feedback_tool text None.
Proof.
  unfold get_phoneme_feedback_tool. cbn [vietnamese_specific_tips].
  change (vietnamese_interference !!! "th") with pattern_th.
  change (vietnamese_interference !!! "r") with pattern_r.
  change (vietnamese_interference !!! "final_consonants")
    with pattern_final_consonants.
  split; [|split; [|done]].
  - destruct (PyStr.contains "th" _), (PyStr.contains "r" _); simpl;
      repeat (first [apply sublist_nil | apply sublist_skip | apply sublist_cons]).
  - destruct (PyStr.contains "th" _), (PyStr.contains "r" _); simpl;
      repeat constructor; discriminate.
Qed.

End ToolProperties.

(** * The claims *)

(** C10. Whatever the reference text, the transcription and the score,
    the feedback of the pronunciation service carries an empty
    [phonemes] list: no phoneme-level note is ever produced. *)
Theorem feedback_phonemes_always_empty
    (reference_text transcription : string)
    (score : Pronunciation.PronunciationScore) :
  Pronunciation.phonemes
    (Pronunciation._generate_feedback reference_text transcription score) = [].
Proof. reflexivity. Qed.

(** C9. Whatever the prediction and ground-truth records, the error
    analysis returns the four Vietnamese-specific categories, each with
    the count 0: no mismatch ever increments them. *)
Theorem vietnamese_categories_always_zero
    (predictions ground_truths : list (gmap string (list string))) :
  Evaluate.vietnamese_specific
    (Evaluate.generate_error_analysis predictions ground_truths)
  = [("th_errors", 0); ("r_errors", 0);
     ("final_consonant_errors", 0); ("vowel_length_errors", 0)].
Proof. reflexivity. Qed.

(** C6. When the lowercased reference text contains "th", the service
    returns an interference list that is not [None] and holds the
    interdental-fricative tip, and the feedback tool lists its "th"
    pattern. *)
Theorem th_reference_yields_th_tip
    (reference_text transcription : string)
    (score : Pronunciation.PronunciationScore)
    (detected_phonemes : option (list string)) :
  (∃ before after, PyStr.lower reference_text = before +:+ "th" +:+ after) →
  (∃ tips,
      Pronunciation.vietnamese_interference
        (Pronunciation._generate_feedback reference_text transcription score)
      = Some tips
      ∧ Pronunciation.tip_th ∈ tips)
  ∧ Tools.pattern_th
      ∈ Tools.vietnamese_specific_tips
          (Tools.get_phoneme_feedback_tool reference_text detected_phonemes).
Proof.
  intros Hth%PyStrFacts.contains_spec. split.
  - exists [Pronunciation.tip_th]. split; [|by left].
    unfold Pronunciation._generate_feedback. cbn [Pronunciation.vietnamese_interference].
    by rewrite Hth.
  - unfold Tools.get_phoneme_feedback_tool. cbn [Tools.vietnamese_specific_tips].
    rewrite Hth. destruct (PyStr.contains "r" _); by left.
Qed.

Lemma th_reference_yields_th_tip_witness :
  (∃ tips,
      Pronunciation.vietnamese_interference
        (Pronunciation._generate_feedback "Think about this" "sink about dis"
           {| Pronunciation.overall := 80; Pronunciation.accuracy := 76;
              Pronunciation.fluency := 72; Pronunciation.completeness := 80 |})
      = Some tips
      ∧ Pronunciation.tip_th ∈ tips)
  ∧ Tools.pattern_th
      ∈ Tools.vietnamese_specific_tips
          (Tools.get_phoneme_feedback_tool "Think about this" None).
Proof.
  apply (th_reference_yields_th_tip "Think about this").
  exists "", "ink about this". reflexivity.
Defined.

(** C2, the claim as stated fails on the service: a reference text
    without "th" gets no interference list at all, so no
    final-consonant tip either. *)
Lemma service_gives_no_tip_without_th :
  Pronunciation.vietnamese_interference
    (Pronunciation._generate_feedback "hello world" "hello world"
       {| Pronunciation.overall := 100; Pronunciation.accuracy := 95;
          Pronunciation.fluency := 90; Pronunciation.completeness := 100 |})
  = None.
Proof. reflexivity. Qed.

(** C2, amended. The feedback tool ends its tip list with the
    final-consonant pattern for every text; the service has no such
    rule: its interference list is the single "th" tip when the
    lowercased reference contains "th", and [None] otherwise. *)
Theorem final_consonant_tip_unconditional_in_tool_only :
  (∀ (text : string) (detected_phonemes : option (list string)),
      ∃ earlier,
        Tools.vietnamese_specific_tips
          (Tools.get_phoneme_feedback_tool text detected_phonemes)
        = earlier ++ [Tools.pattern_final_consonants])
  ∧ (∀ (reference_text transcription : string)
       (score : Pronunciation.PronunciationScore),
      Pronunciation.vietnamese_interference
        (Pronunciation._generate_feedback reference_text transcription score)
      = if PyStr.contains "th" (PyStr.lower reference_text)
        then Some [Pronunciation.tip_th] else None).
Proof.
  split.
  - intros text detected_phonemes. eexists. reflexivity.
  - intros reference_text transcription score.
    unfold Pronunciation._generate_feedback.
    cbn [Pronunciation.vietnamese_interference].
    by destruct (PyStr.contains "th" _).
Qed.

(** C1, the claim as stated fails: on a single point, and on a
    constant array, [calculate_gop_metrics] raises nothing and returns
    a record, whose correlation is NaN. *)
Lemma gop_metrics_returns_on_degenerate_input :
  Evaluate.calculate_gop_metrics [1%float] [2%float]
  = inr {| Evaluate.correlation := nan; Evaluate.mae := 1; Evaluate.rmse := 1 |}
  ∧ Evaluate.calculate_gop_metrics [1%float; 1%float] [1%float; 2%float]
    = inr {| Evaluate.correlation := nan;
             Evaluate.mae := 0.5;
             Evaluate.rmse := 0x1.6a09e667f3bcdp-1 |}.
Proof. split; vm_compute; reflexivity. Qed.

(** C1, amended. On two arrays of one length, degenerate or not,
    [calculate_gop_metrics] raises no error: it returns a record.  With
    fewer than two points the correlation of that record is NaN. *)
Theorem gop_metrics_never_fails_on_equal_lengths
    (predicted_scores ground_truth_scores : list float) :
  length predicted_scores = length ground_truth_scores →
  ∃ metrics,
    Evaluate.calculate_gop_metrics predicted_scores ground_truth_scores
    = inr metrics
    ∧ (length predicted_scores < 2 → Evaluate.correlation metrics = nan).
Proof.
  intros Hlen. unfold Evaluate.calculate_gop_metrics.
  rewrite bool_decide_eq_true_2 by done.
  eexists. split; [reflexivity|]. cbn [Evaluate.correlation]. intros Hshort.
  destruct predicted_scores as [|a [|? ?]], ground_truth_scores as [|b [|? ?]];
    simplify_eq/=; try lia.
  - apply GopFacts.corrcoef_no_point.
  - apply GopFacts.corrcoef_single_point.
Qed.

Lemma gop_metrics_never_fails_on_equal_lengths_witness :
  ∃ metrics,
    Evaluate.calculate_gop_metrics [3%float] [4%float] = inr metrics
    ∧ (1 < 2 → Evaluate.correlation metrics = nan).
Proof.
  apply (gop_metrics_never_fails_on_equal_lengths [3%float] [4%float]).
  reflexivity.
Defined.

(** C4. Phoneme accuracy counts, pair by pair, the positions below both
    lengths at which the two sequences agree, adds the full length of
    each ground-truth sequence to the denominator, and returns the one
    quotient of the two totals, or 0 when the denominator is 0. *)
Theorem phoneme_accuracy_positional_and_pooled
    (predicted_phonemes ground_truth_phonemes : list (list string)) :
  let pairs := zip predicted_phonemes ground_truth_phonemes in
  let correct :=
    sum_list ((λ pair, CorpusMetrics.positional_matches pair.1 pair.2) <$> pairs) in
  let total := sum_list ((λ pair, length pair.2) <$> pairs) in
  Evaluate.calculate_phoneme_accuracy predicted_phonemes ground_truth_phonemes
  = if bool_decide (0 < total) then Evaluate.quotient correct total else 0%Q.
Proof. apply CorpusMetrics.phoneme_accuracy_closed_form. Qed.

(** C3. The word error rate is the sum, over the (hypothesis, reference)
    pairs, of the edit distance between the two lowercased,
    whitespace-split word sequences, over the total number of reference
    words: one pooled quotient, and 0 when there is no reference word. *)
Theorem word_error_rate_pooled_edit_distance (hypotheses references : list string) :
  let pairs := zip hypotheses references in
  ∃ distances : list nat,
    Forall2
      (λ pair d,
         Levenshtein.is_distance
           (CorpusMetrics.words pair.2) (CorpusMetrics.words pair.1) d)
      pairs distances
    ∧ Evaluate.calculate_word_error_rate hypotheses references
      = Some
          (let total_words :=
             sum_list ((λ pair, length (CorpusMetrics.words pair.2)) <$> pairs) in
           if bool_decide (0 < total_words)
           then Evaluate.quotient (sum_list distances) total_words
           else 0%Q).
Proof.
  intros pairs.
  exists ((λ pair, Levenshtein.levenshtein
                     (CorpusMetrics.words pair.2) (CorpusMetrics.words pair.1))
            <$> pairs).
  split.
  - apply Forall2_fmap_r, Forall_Forall2_diag, Forall_forall.
    intros pair _. apply Levenshtein.levenshtein_is_distance.
  - apply CorpusMetrics.word_error_rate_closed_form.
Qed.

(** C8. Reordering the utterances, the same way on both sides of the
    pairs, changes neither the word error rate nor the phoneme
    accuracy. *)
Theorem corpus_metrics_ignore_utterance_order
    (texts texts' : list (string * string))
    (samples samples' : list (list string * list string)) :
  texts ≡ₚ texts' →
  samples ≡ₚ samples' →
  Evaluate.calculate_word_error_rate texts.*1 texts.*2
  = Evaluate.calculate_word_error_rate texts'.*1 texts'.*2
  ∧ Evaluate.calculate_phoneme_accuracy samples.*1 samples.*2
    = Evaluate.calculate_phoneme_accuracy samples'.*1 samples'.*2.
Proof.
  intros Htexts Hsamples.
  rewrite !CorpusMetrics.word_error_rate_closed_form,
          !CorpusMetrics.phoneme_accuracy_closed_form, !zip_fst_snd.
  by rewrite Htexts, Hsamples.
Qed.

Lemma corpus_metrics_ignore_utterance_order_witness :
  Evaluate.calculate_word_error_rate
    ["the cat sat"; "hello"] ["the cat sat down"; "hello world"]
  = Evaluate.calculate_word_error_rate
      ["hello"; "the cat sat"] ["hello world"; "the cat sat down"]
  ∧ Evaluate.calculate_phoneme_accuracy
      [["P"; "AE"]; ["K"; "AE"; "T"]] [["P"; "AE"; "T"]; ["K"; "AE"; "T"]]
    = Evaluate.calculate_phoneme_accuracy
        [["K"; "AE"; "T"]; ["P"; "AE"]] [["K"; "AE"; "T"]; ["P"; "AE"; "T"]].
Proof.
  apply (corpus_metrics_ignore_utterance_order
           [("the cat sat", "the cat sat down"); ("hello", "hello world")]
           [("hello", "hello world"); ("the cat sat", "the cat sat down")]
           [(["P"; "AE"], ["P"; "AE"; "T"]); (["K"; "AE"; "T"], ["K"; "AE"; "T"])]
           [(["K"; "AE"; "T"], ["K"; "AE"; "T"]); (["P"; "AE"], ["P"; "AE"; "T"])]);
    apply perm_swap.
Defined.

Open Scope float_scope.

(** C5, the claim as stated fails: accuracy and fluency are rounded
    from the unrounded products, not computed from the rounded
    [overall].  For the ratio [2.0 * 2 / 11] the service returns
    overall 36.4, accuracy 34.5 and fluency 32.7, where the formulas of
    the claim give 34.6 and 32.8. *)
Lemma accuracy_not_computed_from_rounded_overall :
  Pronunciation.overall (Pronunciation.scores_of_similarity (2 * 2 / 11)) = 36.4
  ∧ Pronunciation.accuracy (Pronunciation.scores_of_similarity (2 * 2 / 11)) = 34.5
  ∧ PyFloat.round1 (36.4 * 0.95) = 34.6
  ∧ Pronunciation.fluency (Pronunciation.scores_of_similarity (2 * 2 / 11)) = 32.7
  ∧ PyFloat.round1 (36.4 * 0.9) = 32.8.
Proof. vm_compute. repeat split; reflexivity. Qed.

(** C5, amended. For every similarity [s] with [0 <= s <= 1], the four
    scores are [overall = round(s*100, 1)],
    [accuracy = round(s*100*0.95, 1)], [fluency = round(s*100*0.9, 1)]
    and [completeness = round(s*100, 1)] (each product taken on the
    unrounded value); all four lie between 0 and 100, and accuracy and
    fluency are at most overall. *)
Theorem synthesized_scores_bounded_and_ordered (s : float) :
  (0 <=? s) = true → (s <=? 1) = true →
  let scores := Pronunciation.scores_of_similarity s in
  (Pronunciation.overall scores = PyFloat.round1 (s * 100)
   ∧ Pronunciation.accuracy scores = PyFloat.round1 (s * 100 * 0.95)
   ∧ Pronunciation.fluency scores = PyFloat.round1 (s * 100 * 0.9)
   ∧ Pronunciation.completeness scores = PyFloat.round1 (s * 100))
  ∧ ((0 <=? Pronunciation.overall scores) = true
     ∧ (Pronunciation.overall scores <=? 100) = true)
  ∧ ((0 <=? Pronunciation.accuracy scores) = true
     ∧ (Pronunciation.accuracy scores <=? 100) = true)
  ∧ ((0 <=? Pronunciation.fluency scores) = true
     ∧ (Pronunciation.fluency scores <=? 100) = true)
  ∧ ((0 <=? Pronunciation.completeness scores) = true
     ∧ (Pronunciation.completeness scores <=? 100) = true)
  ∧ (Pronunciation.accuracy scores <=? Pronunciation.overall scores) = true
  ∧ (Pronunciation.fluency scores <=? Pronunciation.overall scores) = true.
Proof.
  intros Hlo Hhi scores.
  destruct (PyFloatFacts.within_unit s Hlo Hhi) as [Hs Hs1].
  pose proof (Binary64.scaled_nonneg _ (Prim2SF_valid s)) as Hs0.
  assert (PyFloatFacts.within (s * 100) (100 * 2 ^ 1074)) as Hx.
  { rewrite <- PyFloatFacts.scaled_hundred.
    apply PyFloatFacts.mul_within; [done | done | done |].
    pose proof (Binary64.scaled_nonneg _ (Prim2SF_valid 100)).
    rewrite Z.mul_comm. by apply Z.mul_le_mono_nonneg_l. }
  pose proof (Binary64.scaled_nonneg _ (Prim2SF_valid (s * 100))) as Hx0.
  assert (∀ c : float,
             Binary64.nonneg_finite (Prim2SF c) →
             (Binary64.scaled (Prim2SF c) ≤ 2 ^ 1074)%Z →
             PyFloatFacts.within (s * 100 * c)
               (Binary64.scaled (Prim2SF (s * 100)))) as Hmul.
  { intros c Hc Hc1. destruct Hx as [Hx _].
    apply PyFloatFacts.mul_within; [done | done | done |].
    by apply Z.mul_le_mono_nonneg_l. }
  assert (∀ a, PyFloatFacts.within a (Binary64.scaled (Prim2SF (s * 100))) →
               PyFloatFacts.within a (100 * 2 ^ 1074)) as Hweaken.
  { intros a [Ha Hle]. destruct Hx as [_ Hx]. split; [done | lia]. }
  pose proof (Hmul 0.95 I PyFloatFacts.scaled_0_95) as Ha.
  pose proof (Hmul 0.9 I PyFloatFacts.scaled_0_9) as Hf.
  split; [done|]. cbn [scores Pronunciation.scores_of_similarity
    Pronunciation.overall Pronunciation.accuracy Pronunciation.fluency
    Pronunciation.completeness].
  pose proof (PyFloatFacts.round1_range _ Hx) as [? ?].
  pose proof (PyFloatFacts.round1_range _ (Hweaken _ Ha)) as [? ?].
  pose proof (PyFloatFacts.round1_range _ (Hweaken _ Hf)) as [? ?].
  pose proof (PyFloatFacts.round1_mono _ _ Ha Hx).
  pose proof (PyFloatFacts.round1_mono _ _ Hf Hx).
  split_and!; done.
Qed.

Lemma synthesized_scores_bounded_and_ordered_witness :
  (Pronunciation.overall (Pronunciation.scores_of_similarity 0.5)
   = PyFloat.round1 (0.5 * 100)
   ∧ Pronunciation.accuracy (Pronunciation.scores_of_similarity 0.5)
     = PyFloat.round1 (0.5 * 100 * 0.95)
   ∧ Pronunciation.fluency (Pronunciation.scores_of_similarity 0.5)
     = PyFloat.round1 (0.5 * 100 * 0.9)
   ∧ Pronunciation.completeness (Pronunciation.scores_of_similarity 0.5)
     = PyFloat.round1 (0.5 * 100))
  ∧ ((0 <=? Pronunciation.overall (Pronunciation.scores_of_similarity 0.5)) = true
     ∧ (Pronunciation.overall (Pronunciation.scores_of_similarity 0.5) <=? 100) = true)
  ∧ ((0 <=? Pronunciation.accuracy (Pronunciation.scores_of_similarity 0.5)) = true
     ∧ (Pronunciation.accuracy (Pronunciation.scores_of_similarity 0.5) <=? 100) = true)
  ∧ ((0 <=? Pronunciation.fluency (Pronunciation.scores_of_similarity 0.5)) = true
     ∧ (Pronunciation.fluency (Pronunciation.scores_of_similarity 0.5) <=? 100) = true)
  ∧ ((0 <=? Pronunciation.completeness (Pronunciation.scores_of_similarity 0.5)) = true
     ∧ (Pronunciation.completeness (Pronunciation.scores_of_similarity 0.5) <=? 100) = true)
  ∧ (Pronunciation.accuracy (Pronunciation.scores_of_similarity 0.5)
     <=? Pronunciation.overall (Pronunciation.scores_of_similarity 0.5)) = true
  ∧ (Pronunciation.fluency (Pronunciation.scores_of_similarity 0.5)
     <=? Pronunciation.overall (Pronunciation.scores_of_similarity 0.5)) = true.
Proof.
  apply (synthesized_scores_bounded_and_ordered 0.5); reflexivity.
Defined.

Close Scope float_scope.
